(** * dir2exe: the archive container and the pack / extract / launch protocol

    A shallow embedding of [tools/dir2exe.c].  The file is compiled twice:
    with [LOADER] it is the stub that runs when a packed executable starts,
    with [PACKER] it is the tool that builds the packed executable.

    Conventions of the embedding.
    - A C [char] / [uint8_t] is an [ascii]; a buffer is a [list ascii]; the
      C string in a buffer is the part before its first NUL ([cstr]).  A
      string that the program receives or computes is the list of its
      characters, so that its [strlen] is its [length].
    - [uint64_t] and [long] values are [Z] with the wrap-around written out
      ([to_u64], [to_long]).  [long] is the 32-bit type of the Windows ABI,
      the only platform the program targets.
    - Memory that the program reads before writing it (fresh [malloc]
      blocks, stack variables) is supplied by the environment.
    - The file system seen by the loader is a finite map from canonical
      paths to nodes, with names compared byte for byte.
    - The program tests no result of [malloc].  The embedding describes the
      runs in which every request is served. *)

From Stdlib Require Import ZArith Ascii String List Lia.
From stdpp Require Import gmap list fin_maps.
Import ListNotations.

Local Open Scope Z_scope.

(** ** C library and machine integers *)

Module C.

Definition NUL : ascii := Ascii.zero.

(** A string literal, as the characters it holds (terminator not included). *)
Definition lit (s : string) : list ascii := list_ascii_of_string s.
Arguments lit s%_string.

Definition to_u64 (z : Z) : Z := z mod 2 ^ 64.

Definition LONG_MAX : Z := 2 ^ 31 - 1.

(** Conversion to [long]: two's complement on 32 bits. *)
Definition to_long (z : Z) : Z := (z + 2 ^ 31) mod 2 ^ 32 - 2 ^ 31.

(** Conversion of a [DWORD] to [int], as in [return exit_code;]. *)
Definition to_int (z : Z) : Z := (z + 2 ^ 31) mod 2 ^ 32 - 2 ^ 31.

(** [ftell]: the position as a [long]; -1 when it is not representable. *)
Definition ftell (pos : nat) : Z :=
  if Z.of_nat pos <=? LONG_MAX then Z.of_nat pos else -1.

(** Little-endian image of an integer object of [n] bytes. *)
Fixpoint le_bytes (n : nat) (z : Z) : list ascii :=
  match n with
  | O => []
  | S n' => ascii_of_N (Z.to_N (z mod 256)) :: le_bytes n' (z / 256)
  end.

Fixpoint le_value (bs : list ascii) : Z :=
  match bs with
  | [] => 0
  | b :: bs' => Z.of_N (N_of_ascii b) + 256 * le_value bs'
  end.

(** The C string held in a buffer. *)
Fixpoint cstr (buf : list ascii) : list ascii :=
  match buf with
  | [] => []
  | ch :: rest => if Ascii.eqb ch NUL then [] else ch :: cstr rest
  end.

Definition strlen (buf : list ascii) : nat := length (cstr buf).

(** A string proper: no NUL among its characters. *)
Definition no_nul (s : list ascii) : Prop := Forall (fun ch => ch <> NUL) s.

(** [strcmp]: 0 when the two C strings are equal. *)
Fixpoint strcmp_go (a b : list ascii) : Z :=
  match a, b with
  | [], [] => 0
  | [], _ :: _ => -1
  | _ :: _, [] => 1
  | x :: a', y :: b' =>
      if Ascii.eqb x y then strcmp_go a' b'
      else if (N_of_ascii x <? N_of_ascii y)%N then -1 else 1
  end.

Definition strcmp (a b : list ascii) : Z := strcmp_go (cstr a) (cstr b).

(** [strcpy (dst, src)]: the contents of the buffer [dst] afterwards, for a
    string [src] that fits ([length src < length dst]). *)
Definition strcpy (dst src : list ascii) : list ascii :=
  src ++ NUL :: skipn (S (length src)) dst.

(** [snprintf (buf, n, ...)] where the formatted text is [text]: the C string
    left in [buf], at most [n - 1] characters. *)
Definition snprintf (n : nat) (text : list ascii) : list ascii :=
  firstn (n - 1) text.

(** [strrchr (s, ch)]: the suffix of [s] that starts at the last [ch]. *)
Fixpoint strrchr (s : list ascii) (ch : ascii) : option (list ascii) :=
  match s with
  | [] => None
  | x :: rest =>
      match strrchr rest ch with
      | Some r => Some r
      | None => if Ascii.eqb x ch then Some (x :: rest) else None
      end
  end.

(** Raw memory, read byte by byte. *)
Definition mem := nat -> ascii.

Definition mem_of (bs : list ascii) : mem := fun i => nth i bs NUL.

(** The bytes [data] stored at the start of [old]. *)
Definition overlay (data : list ascii) (old : mem) : mem :=
  fun i => nth i data (old i).

Definition load (m : mem) (start len : nat) : list ascii :=
  map m (seq start len).

(** An open read stream: the file's bytes and the position. *)
Record rstream := { r_data : list ascii; r_pos : nat }.

(** [fread (buf, 1, n, f)]: the bytes obtained and the stream afterwards. *)
Definition fread (n : Z) (f : rstream) : list ascii * rstream :=
  let avail := Z.of_nat (length (r_data f)) - Z.of_nat (r_pos f) in
  let got := firstn (Z.to_nat (Z.min n avail)) (skipn (r_pos f) (r_data f)) in
  (got, {| r_data := r_data f; r_pos := (r_pos f + length got)%nat |}).

(** [fseek (f, off, SEEK_SET)] with [off] already converted to [long]. *)
Definition fseek_set (off : Z) (f : rstream) : rstream :=
  if 0 <=? off then {| r_data := r_data f; r_pos := Z.to_nat off |} else f.

(** [fseek (f, off, SEEK_END)]. *)
Definition fseek_end (off : Z) (f : rstream) : rstream :=
  let target := Z.of_nat (length (r_data f)) + off in
  if 0 <=? target then {| r_data := r_data f; r_pos := Z.to_nat target |} else f.

End C.

(** ** The on-disk structures ([#pragma pack(push, 1)]) *)

Module Layout.
Import C.

(** Modelled from the spec: [MAX_PATH], the platform's path-length constant.
    It comes from <windows.h>, which is not part of the repository; the
    Windows SDK defines it as 260. *)
Definition MAX_PATH : nat := 260.

Definition MAGIC_BYTES : list ascii := lit "DIR2EXE".

Record ArchiveFooter := {
  manifest_offset : Z;
  magic : list ascii            (* char magic[8] *)
}.

Record ManifestEntry := {
  offset : Z;
  size : Z;
  is_executable : ascii;        (* 1 if this is the main exe, 0 otherwise *)
  relative_path : list ascii    (* char relative_path[MAX_PATH] *)
}.

Definition sizeof_ArchiveFooter : nat := 16.
Definition sizeof_ManifestEntry : nat := 17 + MAX_PATH.

(** The object representation of the two structures: what [fwrite] emits
    and what [fread] fills in. *)
Definition footer_bytes (f : ArchiveFooter) : list ascii :=
  le_bytes 8 (manifest_offset f) ++ magic f.

Definition footer_of_bytes (raw : list ascii) : ArchiveFooter :=
  {| manifest_offset := le_value (firstn 8 raw);
     magic := firstn 8 (skipn 8 raw) |}.

Definition entry_bytes (e : ManifestEntry) : list ascii :=
  le_bytes 8 (offset e) ++ le_bytes 8 (size e) ++ is_executable e :: relative_path e.

Definition entry_of_bytes (raw : list ascii) : ManifestEntry :=
  {| offset := le_value (firstn 8 raw);
     size := le_value (firstn 8 (skipn 8 raw));
     is_executable := nth 16 raw NUL;
     relative_path := firstn MAX_PATH (skipn 17 raw) |}.

Definition set_offset (v : Z) (e : ManifestEntry) : ManifestEntry :=
  {| offset := v; size := size e; is_executable := is_executable e;
     relative_path := relative_path e |}.

Definition set_size (v : Z) (e : ManifestEntry) : ManifestEntry :=
  {| offset := offset e; size := v; is_executable := is_executable e;
     relative_path := relative_path e |}.

Definition set_is_executable (v : ascii) (e : ManifestEntry) : ManifestEntry :=
  {| offset := offset e; size := size e; is_executable := v;
     relative_path := relative_path e |}.

Definition set_relative_path (v : list ascii) (e : ManifestEntry) : ManifestEntry :=
  {| offset := offset e; size := size e; is_executable := is_executable e;
     relative_path := v |}.

(** A well-formed in-memory entry: fields within the range of their types. *)
Definition entry_wf (e : ManifestEntry) : Prop :=
  0 <= offset e < 2 ^ 64 /\ 0 <= size e < 2 ^ 64 /\
  length (relative_path e) = MAX_PATH.

(** The footer an archive file ends with, and the manifest it points to. *)
Definition footer_in (file : list ascii) : ArchiveFooter :=
  footer_of_bytes (skipn (length file - sizeof_ArchiveFooter) file).

Definition manifest_in (file : list ascii) : list ManifestEntry :=
  let start := Z.to_nat (manifest_offset (footer_in file)) in
  let entry_count := le_value (firstn 8 (skipn start file)) in
  map (fun i =>
         entry_of_bytes
           (firstn sizeof_ManifestEntry
              (skipn (start + 8 + i * sizeof_ManifestEntry) file)))
    (seq 0 (Z.to_nat entry_count)).

Definition total_size (es : list ManifestEntry) : Z :=
  fold_right (fun e acc => size e + acc) 0 es.

(** The payload range of an entry lies between the end of the loader stub
    and the start of the manifest. *)
Definition in_payload_area (stub_length start : Z) (e : ManifestEntry) : Prop :=
  stub_length <= offset e /\ offset e + size e <= start.

End Layout.

(** ** The packer ([#ifdef PACKER]) *)

Module Packer.
Import C Layout.

(** What [FindFirstFileA] / [FindNextFileA] enumerate for a directory: the
    names in enumeration order (the pseudo-entries [.] and [..] included when
    the system reports them), each a regular file or a subdirectory with its
    own listing.  A file has its bytes and may or may not be openable for
    reading (a file locked by another process is not).  A subdirectory that
    cannot be enumerated has the empty listing.  The listing of a
    subdirectory is what the enumeration that [walk_directory] starts for it
    reports: the content of that directory as long as [snprintf] leaves the
    search pattern [base_path\current_path\*] whole. *)
Inductive dirent :=
| FileEnt (cFileName : list ascii) (bytes : list ascii) (openable : bool)
| DirEnt (cFileName : list ascii) (listing : list dirent).

(** [fopen (path, "rb")] on a file: its bytes, unless it cannot be opened. *)
Definition fopen_rb (bytes : list ascii) (openable : bool)
  : option (list ascii) :=
  if openable then Some bytes else None.

(** [fopen (full_path, "rb")] in [walk_directory], where [full_path] is what
    [snprintf] has made of [text] for the listed file with [bytes]: the
    listed file itself when the path is whole; when the path was cut, whatever
    the file system holds under the cut name ([cut]). *)
Definition fopen_full (cut : list ascii -> option (list ascii))
    (text bytes : list ascii) (openable : bool) : option (list ascii) :=
  if (length text <? MAX_PATH)%nat then fopen_rb bytes openable
  else cut (snprintf MAX_PATH text).

(** The environment of one run of [packer.exe]. *)
Record env := {
  argv : list (list ascii);              (* argv[0] .. argv[argc-1] *)
  loader_exe : option (list ascii);      (* fopen ("loader.exe", "rb") *)
  pack_dir_listing : list dirent;        (* the tree under argv[1] *)
  fopen_cut :                            (* fopen (path, "rb") for a path
                                            that snprintf has cut short *)
    list ascii -> option (list ascii);
  main_exe_file : option (list ascii);   (* fopen (argv[2], "rb") *)
  out_exe_writable : bool;               (* fopen (argv[3], "wb") succeeds *)
  stack_entry : list ascii;              (* loader_entry before it is written *)
  heap : nat -> list ascii               (* the n-th malloc'ed ManifestNode *)
}.

(** typedef struct ManifestNode: a singly linked list, newest node first. *)
Definition ManifestNode := list ManifestEntry.

Record state := {
  f_archive : list ascii;       (* bytes written to the output so far *)
  console : list (list ascii);  (* lines printed so far *)
  head : ManifestNode;
  mallocs : nat                 (* ManifestNodes allocated so far *)
}.

(** [printf]: every format of the program ends in a newline; [text] is what
    is printed before it. *)
Definition printf (text : list ascii) (st : state) : state :=
  {| f_archive := f_archive st; console := console st ++ [text];
     head := head st; mallocs := mallocs st |}.

Definition fwrite (bs : list ascii) (st : state) : state :=
  {| f_archive := f_archive st ++ bs; console := console st;
     head := head st; mallocs := mallocs st |}.

(** Contents of a block of [n] bytes that was never written. *)
Definition uninitialised (n : nat) (junk : list ascii) : list ascii :=
  firstn n (junk ++ repeat NUL n).

(** [malloc (sizeof (ManifestNode))].  The program links the node in front of
    the list at once and fills it in place; nothing reads the list in between,
    so the embedding fills the node first and links it with [push_node].
    The program does not test what [malloc] returns; the embedding describes
    the runs in which every request is served. *)
Definition malloc_node (E : env) (st : state) : ManifestEntry * state :=
  (entry_of_bytes (uninitialised sizeof_ManifestEntry (heap E (mallocs st))),
   {| f_archive := f_archive st; console := console st;
      head := head st; mallocs := S (mallocs st) |}).

Definition push_node (e : ManifestEntry) (st : state) : state :=
  {| f_archive := f_archive st; console := console st;
     head := e :: head st; mallocs := mallocs st |}.

Definition BUFFER_SIZE : Z := 1024 * 1024.

(** while ((bytes_read = fread (buffer, 1, 1024 * 1024, f_in)) > 0)
      fwrite (buffer, 1, bytes_read, f_archive);
    Every turn that does not leave the loop consumes at least one byte, so
    [fuel] larger than the file length is never exhausted. *)
Fixpoint copy_loop (fuel : nat) (f_in : rstream) (st : state) : state :=
  match fuel with
  | O => st
  | S fuel' =>
      let '(buffer, f_in') := fread BUFFER_SIZE f_in in
      match buffer with
      | [] => st
      | _ :: _ => copy_loop fuel' f_in' (fwrite buffer st)
      end
  end.

(** Appends a file to the archive and fills its manifest entry. *)
Definition append_file_to_archive (file_path : list ascii)
    (f_in : option (list ascii)) (entry : ManifestEntry) (st : state)
  : ManifestEntry * state :=
  match f_in with
  | None =>
      (set_size 0 entry,
       printf (lit "Warning: Could not open file " ++ file_path) st)
  | Some bytes =>
      let entry := set_offset (to_u64 (ftell (length (f_archive st)))) entry in
      let entry := set_size (to_u64 (ftell (length bytes))) entry in
      (entry,
       copy_loop (S (length bytes)) {| r_data := bytes; r_pos := 0 |} st)
  end.

Definition is_dot (name : list ascii) : bool :=
  (strcmp name (lit ".") =? 0) || (strcmp name (lit "..") =? 0).

(** Recursively walks a directory and adds files to the manifest list.
    [walk_entry] is the body of the do-while loop for one enumerated name;
    [walk_directory] is the loop over the enumeration [entries] of
    [base_path\current_path\*].  The recursive call for a subdirectory
    runs the same loop over that subdirectory's enumeration. *)
Fixpoint walk_entry (E : env) (base_path current_path : list ascii)
    (ent : dirent) (st : state) {struct ent} : state :=
  let cFileName := match ent with FileEnt n _ _ => n | DirEnt n _ => n end in
  if is_dot cFileName then st
  else
    let full_text :=
      base_path ++ lit "\" ++ current_path ++ lit "\" ++ cFileName in
    let full_path := snprintf MAX_PATH full_text in
    let relative :=
      snprintf MAX_PATH
        (current_path
         ++ (if (0 <? length current_path)%nat then lit "\" else [])
         ++ cFileName) in
    match ent with
    | DirEnt _ sub =>
        (fix walk_directory (entries : list dirent) (st : state) : state :=
           match entries with
           | [] => st
           | e :: more =>
               walk_directory more (walk_entry E base_path relative e st)
           end) sub st
    | FileEnt _ bytes openable =>
        let st := printf (lit "Packing: " ++ relative) st in
        let '(new_node, st) := malloc_node E st in
        let new_node :=
          set_relative_path (strcpy (relative_path new_node) relative) new_node in
        let new_node := set_is_executable Ascii.zero new_node in
        let '(new_node, st) :=
          append_file_to_archive full_path
            (fopen_full (fopen_cut E) full_text bytes openable) new_node st in
        push_node new_node st
    end.

Fixpoint walk_directory (E : env) (base_path current_path : list ascii)
    (entries : list dirent) (st : state) : state :=
  match entries with
  | [] => st
  | e :: more =>
      walk_directory E base_path current_path more
        (walk_entry E base_path current_path e st)
  end.

(** What a run of the packer leaves behind. *)
Record result := {
  exit_code : Z;
  out_exe : option (list ascii);   (* the output file, when it was created *)
  stdout : list (list ascii)
}.

(** A run in which every [malloc] is served either returns, or writes past
    the end of an object, after which the C program has no defined
    behaviour. *)
Inductive outcome :=
| Returned (r : result)
| BufferOverrun.

Definition arg (E : env) (i : nat) : list ascii := nth i (argv E) [].

Definition main (E : env) : outcome :=
  if negb (length (argv E) =? 4)%nat then
    Returned {| exit_code := 1; out_exe := None;
                stdout := [lit "Usage: packer.exe <directory_to_pack> <main_executable> <output_exe>"] |}
  else
    let pack_dir := arg E 1 in
    let main_exe := arg E 2 in
    let out_exe_name := arg E 3 in
    if negb (out_exe_writable E) then
      Returned {| exit_code := 1; out_exe := None;
                  stdout := [lit "Error: Could not create output file " ++ out_exe_name] |}
    else
      let st := {| f_archive := []; console := []; head := []; mallocs := 0 |} in
      (* 1. Start with the loader stub. *)
      let st := printf (lit "Writing loader stub...") st in
      let loader_entry :=
        entry_of_bytes (uninitialised sizeof_ManifestEntry (stack_entry E)) in
      let '(loader_entry, st) :=
        append_file_to_archive (lit "loader.exe") (loader_exe E) loader_entry st in
      if size loader_entry =? 0 then
        let st := printf (lit "Error: loader.exe not found or is empty. Compile it first.") st in
        Returned {| exit_code := 1; out_exe := Some (f_archive st);
                    stdout := console st |}
      else
        (* 2. Walk the directory and append all its files. *)
        let st := walk_directory E pack_dir [] (pack_dir_listing E) st in
        (* 3. Append the main executable. *)
        let st := printf (lit "Packing main executable: " ++ main_exe) st in
        let '(exe_node, st) := malloc_node E st in
        let base_name :=
          match strrchr main_exe "\"%char with
          | Some r => skipn 1 r
          | None => main_exe
          end in
        if (MAX_PATH <=? length base_name)%nat then BufferOverrun
        else
          let exe_node :=
            set_relative_path (strcpy (relative_path exe_node) base_name) exe_node in
          let exe_node := set_is_executable "001"%char exe_node in
          let '(exe_node, st) :=
            append_file_to_archive main_exe (main_exe_file E) exe_node st in
          let st := push_node exe_node st in
          (* 4. Write the manifest. *)
          let manifest_offset := to_u64 (ftell (length (f_archive st))) in
          let entry_count := to_u64 (Z.of_nat (length (head st))) in
          let st := fwrite (le_bytes 8 entry_count) st in
          let st := fwrite (concat (map entry_bytes (head st))) st in
          (* 5. Write the footer. *)
          let footer :=
            {| Layout.manifest_offset := manifest_offset;
               magic := strcpy (repeat NUL 8) MAGIC_BYTES |} in
          let st := fwrite (footer_bytes footer) st in
          let st :=
            printf ("010"%char :: lit "Successfully created " ++ out_exe_name)
              st in
          Returned {| exit_code := 0; out_exe := Some (f_archive st);
                      stdout := console st |}.

End Packer.

(** ** The file system the loader writes to *)

Module FS.
Import C.

(** A canonical path: the components from the top of the name space. *)
Abbreviation key := (list (list ascii)).

Inductive node :=
| FileN (bytes : list ascii)
| DirN.

#[global] Instance node_eq_dec : EqDecision node.
Proof. solve_decision. Defined.

Definition is_sep (ch : ascii) : bool :=
  Ascii.eqb ch "\"%char || Ascii.eqb ch "/"%char.

(** The components of a path string, empty ones included. *)
Fixpoint split (s : list ascii) : key :=
  match s with
  | [] => [[]]
  | ch :: rest =>
      if is_sep ch then [] :: split rest
      else match split rest with
           | c :: cs => (ch :: c) :: cs
           | [] => [[ch]]
           end
  end.

Definition list_eqb (a b : list ascii) : bool :=
  bool_decide (a = b).

(** One component applied to the path walked so far. *)
Definition step (stack : key) (comp : list ascii) : key :=
  if list_eqb comp [] || list_eqb comp (lit ".") then stack
  else if list_eqb comp (lit "..") then removelast stack
  else stack ++ [comp].

(** The canonical path a path string denotes. *)
Definition resolve (path : list ascii) : key := fold_left step (split path) [].

Definition parent (k : key) : key := removelast k.

(** The top of the name space is a directory by itself. *)
Definition is_dir (m : gmap key node) (k : key) : bool :=
  match k with
  | [] => true
  | _ => match m !! k with Some DirN => true | _ => false end
  end.

Definition exists_at (m : gmap key node) (k : key) : bool :=
  match k with
  | [] => true
  | _ => match m !! k with Some _ => true | None => false end
  end.

(** A directory is created when its parent is a directory and nothing has
    its name. *)
Definition mkdir (k : key) (m : gmap key node) : gmap key node :=
  if is_dir m (parent k) && negb (exists_at m k) then <[k := DirN]> m else m.

Definition CreateDirectoryA (path : list ascii) (m : gmap key node)
  : gmap key node :=
  mkdir (resolve path) m.

(** The directories on the way from [stack] to the file [stack ++ ks],
    created from the top down. *)
Fixpoint mkdirs (stack ks : key) (m : gmap key node) : gmap key node :=
  match ks with
  | [] => m
  | [_] => m
  | k :: ks' => mkdirs (stack ++ [k]) ks' (mkdir (stack ++ [k]) m)
  end.

(** [a] is a proper ancestor of [b]. *)
Definition above (a b : key) : Prop := exists c cs, b = a ++ c :: cs.

(** [fopen (path, "wb")]: the file's canonical path when it can be opened. *)
Definition fopen_wb (path : list ascii) (m : gmap key node) : option key :=
  let k := resolve path in
  if is_dir m (parent k) && negb (is_dir m k) then Some k else None.

Definition DeleteFileA (path : list ascii) (m : gmap key node)
  : gmap key node :=
  match m !! resolve path with
  | Some (FileN _) => delete (resolve path) m
  | _ => m
  end.

Definition RemoveDirectoryA (k : key) (m : gmap key node)
  : bool * gmap key node :=
  if is_dir m k
     && forallb (fun c => negb (bool_decide (parent c.1 = k)))
          (map_to_list m)
  then (true, delete k m) else (false, m).

Definition children (m : gmap key node) (k : key) : list key :=
  filter (fun c => c <> [] /\ parent c = k) (map fst (map_to_list m)).

Definition inside (root k : key) : bool := bool_decide (root `prefix_of` k).

(** Nothing exists at [root] or below it. *)
Definition fresh_below (root : key) (m : gmap key node) : bool :=
  forallb (fun kv => negb (inside root kv.1)) (map_to_list m).

End FS.

(** ** Separators *)

Module Separators.
Import C FS.

(** A path with every forward slash written as a backslash. *)
Definition backslashed (s : list ascii) : list ascii :=
  map (fun ch => if Ascii.eqb ch "/"%char then "\"%char else ch) s.

(** Two paths that differ only in which separator stands where. *)
Definition alike (a b : list ascii) : Prop :=
  Forall2 (fun x y => x = y \/ (is_sep x = true /\ is_sep y = true)) a b.

(** Create subdirectories if necessary: the loop as it is written, on the
    buffer [out_path], from the character at index [p] on.  At a separator
    the buffer is cut there, the directory named by what is left is created,
    and a backslash is put in the separator's place.  Returns the buffer and
    the file system when the loop ends; [fuel] bounds the number of turns, one
    per character. *)
Fixpoint create_subdirectories_in_place (fuel : nat) (out_path : list ascii)
    (p : nat) (m : gmap key node) : list ascii * gmap key node :=
  match fuel with
  | O => (out_path, m)
  | S fuel' =>
      match nth_error out_path p with
      | None => (out_path, m)                          (* *p == 0 *)
      | Some ch =>
          if is_sep ch then
            let cut := <[p := NUL]> out_path in        (* *p = 0 *)
            let m := CreateDirectoryA (cstr cut) m in
            let out_path := <[p := "\"%char]> cut in   (* *p = backslash *)
            create_subdirectories_in_place fuel' out_path (S p) m
          else create_subdirectories_in_place fuel' out_path (S p) m
      end
  end.

End Separators.

(** ** The loader ([#ifdef LOADER]) *)

Module Loader.
Import C Layout FS.

(** The environment of one run of a packed executable. *)
Record env := {
  (* fopen (self_path, "rb"): the bytes of the running file *)
  self : option (list ascii);
  (* the fresh name GetTempFileNameA returns *)
  temp_dir : list ascii;
  (* GetCommandLineA () *)
  cmd_line : list ascii;
  (* the file system when the run starts *)
  disk : gmap key node;
  (* CreateProcessA (application, command line, working directory) followed
     by the wait: [None] when the process cannot be started, else the child's
     exit code and the file system it leaves behind *)
  CreateProcessA :
    list ascii -> list ascii -> list ascii -> gmap key node ->
    option (Z * gmap key node);
  (* contents of objects before the program writes them *)
  stack_footer : mem;
  stack_entry_count : mem;
  heap_manifest : mem;
  heap_buffer : mem
}.

Record state := {
  fs : gmap key node;
  f_self : rstream;
  buffer : mem;
  main_exe_path : list ascii
}.

Definition BUFFER_SIZE : Z := 1024 * 1024.

(** while (remaining > 0) { ... }: returns the bytes written to [f_out], the
    stream and the buffer.  [remaining] drops by [BUFFER_SIZE] on every turn
    but the last, so [S (remaining / BUFFER_SIZE)] turns suffice. *)
Fixpoint copy_loop (fuel : nat) (remaining : Z) (f : rstream) (buf : mem)
    (written : list ascii) : list ascii * rstream * mem :=
  match fuel with
  | O => (written, f, buf)
  | S fuel' =>
      if 0 <? remaining then
        let to_read :=
          if BUFFER_SIZE <? remaining then BUFFER_SIZE else remaining in
        let '(got, f') := fread to_read f in
        let buf' := overlay got buf in
        copy_loop fuel' (remaining - to_read) f' buf'
          (written ++ load buf' 0 (Z.to_nat to_read))
      else (written, f, buf)
  end.

(** Create subdirectories if necessary: [before] is the part of [out_path]
    before [p], [rest] the part from [p] on. *)
Fixpoint create_subdirectories (before rest : list ascii) (m : gmap key node)
  : gmap key node :=
  match rest with
  | [] => m
  | ch :: rest' =>
      let m := if is_sep ch then CreateDirectoryA before m else m in
      create_subdirectories (before ++ [ch]) rest' m
  end.

Definition out_path_of (E : env) (e : ManifestEntry) : list ascii :=
  snprintf MAX_PATH (temp_dir E ++ lit "\" ++ cstr (relative_path e)).

(** The inner loop, started at [out_path + strlen (temp_dir) + 1]. *)
Definition subdirectories (E : env) (e : ManifestEntry) (m : gmap key node)
  : gmap key node :=
  let out_path := out_path_of E e in
  let start := S (length (temp_dir E)) in
  create_subdirectories (firstn start out_path) (skipn start out_path) m.

(** [out_path] when the inner loop has ended: it has put a backslash in the
    place of every separator from [out_path + strlen (temp_dir) + 1] on. *)
Definition rewritten_path (E : env) (e : ManifestEntry) : list ascii :=
  let out_path := out_path_of E e in
  let start := S (length (temp_dir E)) in
  firstn start out_path ++ Separators.backslashed (skipn start out_path).

(** The body of the extraction loop for [manifest[i] = e]. *)
Definition extract_entry (E : env) (st : state) (e : ManifestEntry) : state :=
  let m := subdirectories E e (fs st) in
  let out_path := rewritten_path E e in
  match fopen_wb out_path m with
  | None =>
      {| fs := m; f_self := f_self st; buffer := buffer st;
         main_exe_path := main_exe_path st |}
  | Some k =>
      let f := fseek_set (to_long (offset e)) (f_self st) in
      let '(written, f, buf) :=
        copy_loop (S (Z.to_nat (size e / BUFFER_SIZE))) (size e) f
          (buffer st) [] in
      {| fs := <[k := FileN written]> m; f_self := f; buffer := buf;
         main_exe_path :=
           if Ascii.eqb (is_executable e) Ascii.zero then main_exe_path st
           else out_path |}
  end.

(** Recursively deletes a directory and all its contents.  The enumeration
    of [path\*.*] is the set of keys directly below [path]; [fuel] bounds
    the depth of the recursion and the number of nodes is always enough. *)
Fixpoint recursive_delete_directory (fuel : nat) (path : key)
    (m : gmap key node) : bool * gmap key node :=
  match fuel with
  | O => (false, m)
  | S fuel' =>
      if is_dir m path then
        let m :=
          fold_left
            (fun acc child =>
               match acc !! child with
               | Some DirN => (recursive_delete_directory fuel' child acc).2
               | Some (FileN _) => delete child acc
               | None => acc
               end)
            (children m path) m in
        RemoveDirectoryA path m
      else (false, m)
  end.

(** manifest[i] *)
Definition manifest_at (manifest : mem) (i : nat) : ManifestEntry :=
  entry_of_bytes (load manifest (i * sizeof_ManifestEntry) sizeof_ManifestEntry).

Record result := {
  exit_code : Z;
  (* the file system when the extraction loop has ended *)
  extracted : gmap key node;
  (* application, command line and working directory of the child that
     CreateProcessA started *)
  launched : option (list ascii * list ascii * list ascii);
  (* the file system when the loader returns *)
  final : gmap key node
}.

(** 1. Find and read the footer to locate the manifest. *)
Definition read_footer (E : env) (data : list ascii) : ArchiveFooter * rstream :=
  let f := {| r_data := data; r_pos := 0 |} in
  let f :=
    fseek_end (to_long (to_u64 (- Z.of_nat sizeof_ArchiveFooter))) f in
  let '(got, f) := fread (Z.of_nat sizeof_ArchiveFooter) f in
  (footer_of_bytes (load (overlay got (stack_footer E)) 0 sizeof_ArchiveFooter), f).

(** 2. Read the manifest.  The program does not test what [malloc] returns
    for the [entry_count] entries; the embedding describes the runs in which
    the request is served. *)
Definition read_manifest (E : env) (footer : ArchiveFooter) (f : rstream)
  : list ManifestEntry * rstream :=
  let f := fseek_set (to_long (manifest_offset footer)) f in
  let '(got, f) := fread 8 f in
  let entry_count := le_value (load (overlay got (stack_entry_count E)) 0 8) in
  let '(got, f) := fread (Z.of_nat sizeof_ManifestEntry * entry_count) f in
  let manifest := overlay got (heap_manifest E) in
  (map (manifest_at manifest) (seq 0 (Z.to_nat entry_count)), f).

(** 3. Create a unique temporary directory. *)
Definition create_temp_dir (E : env) (m : gmap key node) : gmap key node :=
  (* GetTempFileNameA creates an empty file of that name *)
  let m :=
    match fopen_wb (temp_dir E) m with
    | Some k => <[k := FileN []]> m
    | None => m
    end in
  let m := DeleteFileA (temp_dir E) m in
  CreateDirectoryA (temp_dir E) m.

(** The test on the footer: [strcmp (footer.magic, MAGIC_BYTES) == 0]. *)
Definition accepts (E : env) (data : list ascii) : bool :=
  strcmp (magic (read_footer E data).1) MAGIC_BYTES =? 0.

(** The manifest as the loader reads it, and the stream afterwards. *)
Definition manifest_read (E : env) (data : list ascii)
  : list ManifestEntry * rstream :=
  let '(footer, f) := read_footer E data in
  read_manifest E footer f.

(** The state in which the extraction loop starts. *)
Definition extraction_start (E : env) (data : list ascii) : state :=
  {| fs := create_temp_dir E (disk E); f_self := (manifest_read E data).2;
     buffer := heap_buffer E; main_exe_path := [] |}.

(** 4. Extract all files from the manifest: the state when the loop ends. *)
Definition extraction (E : env) (data : list ascii) : state :=
  fold_left (extract_entry E) (manifest_read E data).1
    (extraction_start E data).

(** 6. Clean up the temporary directory. *)
Definition cleanup (E : env) (m : gmap key node) : gmap key node :=
  (recursive_delete_directory (S (length (map_to_list m)))
     (resolve (temp_dir E)) m).2.

Definition main (E : env) : result :=
  match self E with
  | None =>
      {| exit_code := 1; extracted := disk E; launched := None;
         final := disk E |}
  | Some data =>
      if negb (accepts E data) then
        (* Not a valid archive *)
        {| exit_code := 2; extracted := disk E; launched := None;
           final := disk E |}
      else
        let st := extraction E data in
        (* 5. Run the main executable and wait for it to finish. *)
        let '(code, run, m) :=
          if (0 <? length (main_exe_path st))%nat then
            match CreateProcessA E (main_exe_path st) (cmd_line E)
                    (temp_dir E) (fs st) with
            | Some (child_code, m') =>
                (child_code,
                 Some (main_exe_path st, cmd_line E, temp_dir E), m')
            | None => (1, None, fs st)
            end
          else (1, None, fs st) in
        {| exit_code := to_int code; extracted := fs st; launched := run;
           final := cleanup E m |}
  end.

End Loader.

(** ** Descriptions used in the statements *)

Module Walk.
Import C Layout FS Packer.

(** A regular file the walk reaches: the path handed to [fopen], the path
    recorded in the manifest, and what [fopen] gives. *)
Record walked := {
  w_full : list ascii;
  w_relative : list ascii;
  w_data : option (list ascii)
}.

(** The files in the order [walk_directory] reaches them. *)
Fixpoint walked_entry (cut : list ascii -> option (list ascii))
    (base_path current_path : list ascii) (ent : dirent) : list walked :=
  let cFileName := match ent with FileEnt n _ _ => n | DirEnt n _ => n end in
  if is_dot cFileName then []
  else
    let full_text :=
      base_path ++ lit "\" ++ current_path ++ lit "\" ++ cFileName in
    let full_path := snprintf MAX_PATH full_text in
    let relative :=
      snprintf MAX_PATH
        (current_path
         ++ (if (0 <? length current_path)%nat then lit "\" else [])
         ++ cFileName) in
    match ent with
    | DirEnt _ sub =>
        (fix walked_files (entries : list dirent) : list walked :=
           match entries with
           | [] => []
           | e :: more =>
               walked_entry cut base_path relative e ++ walked_files more
           end) sub
    | FileEnt _ bytes openable =>
        [{| w_full := full_path; w_relative := relative;
            w_data := fopen_full cut full_text bytes openable |}]
    end.

Fixpoint walked_files (cut : list ascii -> option (list ascii))
    (base_path current_path : list ascii) (entries : list dirent)
  : list walked :=
  match entries with
  | [] => []
  | e :: more =>
      walked_entry cut base_path current_path e
      ++ walked_files cut base_path current_path more
  end.

(** What the loop body does for one regular file. *)
Definition pack_file (E : env) (st : state) (w : walked) : state :=
  let st := printf (lit "Packing: " ++ w_relative w) st in
  let '(new_node, st) := malloc_node E st in
  let new_node :=
    set_relative_path (strcpy (relative_path new_node) (w_relative w)) new_node in
  let new_node := set_is_executable Ascii.zero new_node in
  let '(new_node, st) :=
    append_file_to_archive (w_full w) (w_data w) new_node st in
  push_node new_node st.

Definition payload (d : option (list ascii)) : list ascii :=
  match d with Some b => b | None => [] end.

(** The entry produced for the [n]-th allocated node when the output
    position is [pos]. *)
Definition entry_for (E : env) (n pos : nat) (flag : ascii)
    (relative : list ascii) (d : option (list ascii)) : ManifestEntry :=
  let node :=
    entry_of_bytes (uninitialised sizeof_ManifestEntry (heap E n)) in
  let node := set_relative_path (strcpy (relative_path node) relative) node in
  let node := set_is_executable flag node in
  match d with
  | None => set_size 0 node
  | Some b =>
      set_size (to_u64 (ftell (length b)))
        (set_offset (to_u64 (ftell pos)) node)
  end.

(** The entries of a sequence of walked files, in the order produced. *)
Fixpoint entries_for (E : env) (n pos : nat) (ws : list walked)
  : list ManifestEntry :=
  match ws with
  | [] => []
  | w :: ws' =>
      entry_for E n pos Ascii.zero (w_relative w) (w_data w)
      :: entries_for E (S n) (pos + length (payload (w_data w))) ws'
  end.

(** The lines printed for one walked file. *)
Definition log (w : walked) : list (list ascii) :=
  (lit "Packing: " ++ w_relative w)
  :: match w_data w with
     | None => [lit "Warning: Could not open file " ++ w_full w]
     | Some _ => []
     end.

Definition payloads (ws : list walked) : list ascii :=
  concat (map (fun w => payload (w_data w)) ws).

(** The part of [main_exe] after its last backslash. *)
Definition base_name (main_exe : list ascii) : list ascii :=
  match strrchr main_exe "\"%char with
  | Some r => skipn 1 r
  | None => main_exe
  end.

(** The base filename of a path: its last component, every directory
    component stripped.  Both separators the loader honours count. *)
Definition base_filename (path : list ascii) : list ascii :=
  List.last (split path) [].

(** An archive whose manifest, [entries], starts right after [body]. *)
Definition archive_of (body : list ascii) (entries : list ManifestEntry)
  : list ascii :=
  body
  ++ le_bytes 8 (to_u64 (Z.of_nat (length entries)))
  ++ concat (map entry_bytes entries)
  ++ footer_bytes
       {| manifest_offset := to_u64 (ftell (length body));
          magic := MAGIC_BYTES ++ [NUL] |}.

(** What a successful run over the loader stub [stub] produces. *)
Definition walk (E : env) : list walked :=
  walked_files (fopen_cut E) (arg E 1) [] (pack_dir_listing E).

Definition exe_entry (E : env) (stub : list ascii) : ManifestEntry :=
  entry_for E (length (walk E)) (length (stub ++ payloads (walk E)))
    "001"%char (base_name (arg E 2)) (main_exe_file E).

Definition manifest (E : env) (stub : list ascii) : list ManifestEntry :=
  exe_entry E stub :: rev (entries_for E 0 (length stub) (walk E)).

Definition body (E : env) (stub : list ascii) : list ascii :=
  (stub ++ payloads (walk E)) ++ payload (main_exe_file E).

Definition output (E : env) (stub : list ascii) : list ascii :=
  archive_of (body E stub) (manifest E stub).

Definition transcript (E : env) : list (list ascii) :=
  (([lit "Writing loader stub..."] ++ flat_map log (walk E))
   ++ [lit "Packing main executable: " ++ arg E 2])
  ++ match main_exe_file E with
     | None => [lit "Warning: Could not open file " ++ arg E 2]
     | Some _ => []
     end
  ++ ["010"%char :: lit "Successfully created " ++ arg E 3].

(** A name that can be one component of a path. *)
Definition valid_name (n : list ascii) : bool :=
  negb (list_eqb n []) && negb (list_eqb n (lit "."))
  && negb (list_eqb n (lit ".."))
  && forallb (fun ch => negb (is_sep ch) && negb (Ascii.eqb ch NUL)) n.

Definition name_of (ent : dirent) : list ascii :=
  match ent with FileEnt n _ _ => n | DirEnt n _ => n end.

(** A directory listing as a file system provides it: names are valid
    components (or the pseudo-entries) and differ within one directory. *)
Fixpoint wf_entry (ent : dirent) : bool :=
  (is_dot (name_of ent) || valid_name (name_of ent))
  && match ent with
     | FileEnt _ _ _ => true
     | DirEnt _ sub =>
         (fix wf_all (l : list dirent) : bool :=
            match l with
            | [] => true
            | e :: l' => wf_entry e && wf_all l'
            end) sub
         && bool_decide (NoDup (map name_of sub))
     end.

Definition wf_listing (entries : list dirent) : bool :=
  forallb wf_entry entries && bool_decide (NoDup (map name_of entries)).

(** The regular files under a directory in walk order, each with its path
    from that directory as a list of components, its bytes, and whether it
    can be opened. *)
Fixpoint tree_entry (ent : dirent) : list (key * (list ascii * bool)) :=
  if is_dot (name_of ent) then []
  else
    match ent with
    | FileEnt n bytes openable => [([n], (bytes, openable))]
    | DirEnt n sub =>
        map (fun kd => (n :: kd.1, kd.2))
          ((fix tree_files (l : list dirent) :=
              match l with
              | [] => []
              | e :: l' => tree_entry e ++ tree_files l'
              end) sub)
    end.

Fixpoint tree_files (entries : list dirent)
  : list (key * (list ascii * bool)) :=
  match entries with
  | [] => []
  | e :: more => tree_entry e ++ tree_files more
  end.

(** The path string of a list of components. *)
Fixpoint join (ks : key) : list ascii :=
  match ks with
  | [] => []
  | [k] => k
  | k :: ks' => k ++ "\"%char :: join ks'
  end.

(** The path of the entry [e], as the loader takes it, is the list of valid
    names [ks] and fits the path buffer. *)
Definition names (E : Loader.env) (e : ManifestEntry) (ks : key) : Prop :=
  cstr (relative_path e) = join ks
  /\ Forall (fun k => valid_name k = true) ks /\ ks <> []
  /\ (length (Loader.temp_dir E ++ lit "\" ++ join ks) < MAX_PATH)%nat.

(** The path string [pre] denotes [stack] and ends where the next component
    starts. *)
Definition opens (pre : list ascii) (stack : key) : Prop :=
  forall n tail, valid_name n = true ->
    resolve (pre ++ n ++ tail) = fold_left step (split (n ++ tail)) stack.

(** Below the directory [root] the file system holds files only at the
    paths [used], and directories only above them. *)
Definition tidy (root : key) (used : list key) (m : gmap key node) : Prop :=
  is_dir m root = true
  /\ forall c cs,
       match m !! (root ++ c :: cs) with
       | Some (FileN _) => In (c :: cs) used
       | Some DirN => exists s, In s used /\ above (c :: cs) s
       | None => True
       end.


(** No path occurs twice and none is above another. *)
Definition free (paths : list key) : Prop :=
  NoDup paths /\ forall a b, In a paths -> In b paths -> ~ above a b.

(** What the walk records for a file, read off the listing. *)
Definition recorded (curks : key) (kd : key * (list ascii * bool))
  : list ascii * option (list ascii) :=
  (join (curks ++ kd.1), fopen_rb kd.2.1 kd.2.2).

Definition fits_under (curks : key) (files : list (key * (list ascii * bool)))
  : Prop :=
  forall kd, In kd files -> (length (join (curks ++ kd.1)) < MAX_PATH)%nat.

(** The paths [base\current\name] that the walk hands to [fopen] are whole. *)
Definition opens_under (base : list ascii) (curks : key)
    (files : list (key * (list ascii * bool))) : Prop :=
  forall kd, In kd files ->
    (length base + 2 + length (join (curks ++ kd.1)) < MAX_PATH)%nat.

(** The walk records for every file the path made of the names down to it
    and, where the path handed to [fopen] is whole, what opening that file
    gives. *)
Definition walk_agrees (ent : dirent) : Prop :=
  wf_entry ent = true ->
  forall cut base curks,
    Forall (fun k => valid_name k = true) curks ->
    fits_under curks (tree_entry ent) ->
    map w_relative (walked_entry cut base (join curks) ent)
    = map (fun kd => join (curks ++ kd.1)) (tree_entry ent)
    /\ (opens_under base curks (tree_entry ent) ->
        map w_data (walked_entry cut base (join curks) ent)
        = map (fun kd => fopen_rb kd.2.1 kd.2.2) (tree_entry ent)).

(** The subdirectories under a directory at any depth, each with its path
    from that directory. *)
Fixpoint dirs_entry (ent : dirent) : list key :=
  if is_dot (name_of ent) then []
  else
    match ent with
    | FileEnt _ _ _ => []
    | DirEnt n sub =>
        [n] :: map (cons n)
                 ((fix tree_dirs (l : list dirent) :=
                     match l with
                     | [] => []
                     | e :: l' => dirs_entry e ++ tree_dirs l'
                     end) sub)
    end.

Fixpoint tree_dirs (entries : list dirent) : list key :=
  match entries with
  | [] => []
  | e :: more => dirs_entry e ++ tree_dirs more
  end.

(** Every search pattern [base\path\*] that the walk of the tree builds is
    whole, so that each listing is the content of the directory it stands
    for. *)
Definition patterns_fit (base : list ascii) (entries : list dirent) : Prop :=
  (length base + 3 < MAX_PATH)%nat
  /\ forall d, In d (tree_dirs entries) ->
       (length base + 3 + length (join d) < MAX_PATH)%nat.

(** A name as a file system that ignores case compares it. *)
Definition caseless (n : list ascii) : list ascii :=
  map (fun ch =>
         let c := nat_of_ascii ch in
         if ((97 <=? c) && (c <=? 122))%nat then ascii_of_nat (c - 32) else ch)
    n.

(** The files of a tree and the main executable [base] get different places
    also in a file system that ignores case: no two paths are the same or one
    above the other when case is ignored, and no directory that holds a file
    is called like [base]. *)
Definition case_free (base : list ascii)
    (files : list (key * (list ascii * bool))) : Prop :=
  free (map (fun kd => map caseless kd.1) files)
  /\ forall kd, In kd files ->
       ~ above [caseless base] (map caseless kd.1).

(** What the manifest entry [e] owes to the file [kd] of the listing: its
    path, and for a file that could be opened the place of its bytes in the
    archive [a]. *)
Definition carries (a : list ascii) (kd : key * (list ascii * bool))
    (e : ManifestEntry) : Prop :=
  cstr (relative_path e) = join kd.1
  /\ (kd.2.2 = true ->
      exists p,
        offset e = Z.of_nat p /\ size e = Z.of_nat (length kd.2.1)
        /\ Z.of_nat p <= LONG_MAX
        /\ (p + length kd.2.1 <= length a)%nat
        /\ firstn (length kd.2.1) (skipn p a) = kd.2.1).

End Walk.

(** ** Concrete runs *)

Module Scenario.
Import C Layout FS Packer.

Definition dots : list dirent := [DirEnt (lit ".") []; DirEnt (lit "..") []].

(** Scenario A: a directory holding [Content\readme.txt] = "hello", packed
    with the main executable [Game.exe]. *)
Definition tree_A : list dirent :=
  dots
  ++ [DirEnt (lit "Content")
        (dots ++ [FileEnt (lit "readme.txt") (lit "hello") true])].

Definition packer_A : Packer.env :=
  {| argv := [lit "packer.exe"; lit "pack"; lit "bin\Game.exe"; lit "Out.exe"];
     loader_exe := Some (lit "STUB");
     pack_dir_listing := tree_A;
     fopen_cut := fun _ => None;
     main_exe_file := Some (lit "MZgame");
     out_exe_writable := true;
     stack_entry := [];
     heap := fun _ => [] |}.

Definition archive_A : list ascii := Walk.output packer_A (lit "STUB").

(** Two files in one directory. *)
Definition packer_two : Packer.env :=
  {| argv := [lit "packer.exe"; lit "pack"; lit "Game.exe"; lit "Out.exe"];
     loader_exe := Some (lit "STUB");
     pack_dir_listing :=
       dots ++ [FileEnt (lit "a.txt") (lit "A") true;
                FileEnt (lit "b.txt") (lit "B") true];
     fopen_cut := fun _ => None;
     main_exe_file := Some (lit "MZgame");
     out_exe_writable := true;
     stack_entry := [];
     heap := fun _ => [] |}.

(** The main executable named with a forward slash. *)
Definition packer_slash : Packer.env :=
  {| argv := [lit "packer.exe"; lit "pack"; lit "build/Game.exe"; lit "Out.exe"];
     loader_exe := Some (lit "STUB");
     pack_dir_listing := dots;
     fopen_cut := fun _ => None;
     main_exe_file := Some (lit "MZgame");
     out_exe_writable := true;
     stack_entry := [];
     heap := fun _ => [] |}.

(** A file that another process keeps locked, and a heap that hands out
    blocks filled with 0xCD. *)
Definition packer_locked : Packer.env :=
  {| argv := [lit "packer.exe"; lit "pack"; lit "Game.exe"; lit "Out.exe"];
     loader_exe := Some (lit "STUB");
     pack_dir_listing :=
       dots ++ [FileEnt (lit "save.dat") (lit "hello") false;
                FileEnt (lit "b.txt") (lit "B") true];
     fopen_cut := fun _ => None;
     main_exe_file := Some (lit "MZgame");
     out_exe_writable := true;
     stack_entry := [];
     heap := fun _ => repeat "205"%char sizeof_ManifestEntry |}.

Definition archive_locked : list ascii := Walk.output packer_locked (lit "STUB").

(** The main executable is called [Content], like the packed directory's
    only subdirectory. *)
Definition packer_clash : Packer.env :=
  {| argv := [lit "packer.exe"; lit "pack"; lit "bin\Content"; lit "Out.exe"];
     loader_exe := Some (lit "STUB");
     pack_dir_listing := tree_A;
     fopen_cut := fun _ => None;
     main_exe_file := Some (lit "MZgame");
     out_exe_writable := true;
     stack_entry := [];
     heap := fun _ => [] |}.

(** A file whose name has 250 characters. *)
Definition long_name : list ascii := repeat "a"%char 250.

Definition packer_long : Packer.env :=
  {| argv := [lit "packer.exe"; lit "p"; lit "Game.exe"; lit "Out.exe"];
     loader_exe := Some (lit "STUB");
     pack_dir_listing := dots ++ [FileEnt long_name (lit "hello") true];
     fopen_cut := fun _ => None;
     main_exe_file := Some (lit "MZgame");
     out_exe_writable := true;
     stack_entry := [];
     heap := fun _ => [] |}.

(** A packed directory with a name of 249 characters.  The path built for
    [readme.txt] has 261 characters; cut to 259 it is the path of
    [readme.t]. *)
Definition deep_dir : list ascii := repeat "d"%char 249.

Definition packer_deep : Packer.env :=
  {| argv := [lit "packer.exe"; deep_dir; lit "Game.exe"; lit "Out.exe"];
     loader_exe := Some (lit "STUB");
     pack_dir_listing :=
       dots ++ [FileEnt (lit "readme.t") (lit "OTHER") true;
                FileEnt (lit "readme.txt") (lit "hello") true];
     fopen_cut :=
       fun path =>
         if list_eqb path (deep_dir ++ lit "\\readme.t")
         then Some (lit "OTHER") else None;
     main_exe_file := Some (lit "MZgame");
     out_exe_writable := true;
     stack_entry := [];
     heap := fun _ => [] |}.

(** A main executable of 2 GiB. *)
Definition two_gib : list ascii := repeat "x"%char (Z.to_nat (2 ^ 31)).

Definition packer_huge : Packer.env :=
  {| argv := [lit "packer.exe"; lit "pack"; lit "Game.exe"; lit "Out.exe"];
     loader_exe := Some (lit "STUB");
     pack_dir_listing := dots;
     fopen_cut := fun _ => None;
     main_exe_file := Some two_gib;
     out_exe_writable := true;
     stack_entry := [];
     heap := fun _ => [] |}.

(** The loader's side: a disk with [C:\Temp], the temporary name
    [C:\Temp\d2e1.tmp], and a system in which the child starts, leaves the
    files as they are and exits with 42. *)
Definition disk0 : gmap key node :=
  <[ [lit "C:"; lit "Temp"] := DirN ]> (<[ [lit "C:"] := DirN ]> ∅).

Definition loader_env (data : list ascii) : Loader.env :=
  {| Loader.self := Some data;
     Loader.temp_dir := lit "C:\Temp\d2e1.tmp";
     Loader.cmd_line := lit "Out.exe -level 3";
     Loader.disk := disk0;
     Loader.CreateProcessA := fun _ _ _ m => Some (42, m);
     Loader.stack_footer := fun _ => "205"%char;
     Loader.stack_entry_count := fun _ => "205"%char;
     Loader.heap_manifest := fun _ => "205"%char;
     Loader.heap_buffer := fun _ => "205"%char |}.

Definition root : key := [lit "C:"; lit "Temp"; lit "d2e1.tmp"].

(** Scenario D: the magic bytes of a valid archive corrupted. *)
Definition archive_D : list ascii :=
  firstn (length archive_A - 8) archive_A ++ lit "XIR2EXE" ++ [NUL].

(** A manifest entry written by hand. *)
Definition entry (off sz : Z) (flag : ascii) (path : list ascii)
  : ManifestEntry :=
  {| offset := off; size := sz; is_executable := flag;
     relative_path := uninitialised MAX_PATH path |}.

(** Scenario B: an entry whose path climbs out of the extraction root. *)
Definition archive_B : list ascii :=
  Walk.archive_of (lit "STUBpayload")
    [entry 4 7 "001"%char (lit "..\..\evil.exe")].

(** An entry whose payload range lies beyond the end of the file. *)
Definition archive_beyond : list ascii :=
  Walk.archive_of (lit "STUB") [entry 5000 5 Ascii.zero (lit "a.bin")].


(** The flagged entry names a directory that an earlier entry created. *)
Definition archive_blocked : list ascii :=
  Walk.archive_of (lit "STUBxy")
    [entry 4 1 Ascii.zero (lit "Game\x.txt"); entry 5 1 "001"%char (lit "Game")].

Definition out_of (o : outcome) : list ascii :=
  match o with
  | Returned r => match out_exe r with Some a => a | None => [] end
  | BufferOverrun => []
  end.

End Scenario.

(** ** The clean-up, path by path *)

Module Cleanup.
Import C FS.

(** WIN32_FIND_DATAA, as far as the program reads it. *)
Record find_data := {
  cFileName : list ascii;
  is_directory : bool     (* dwFileAttributes & FILE_ATTRIBUTE_DIRECTORY *)
}.

(** The directory part of a search pattern of the form [dir\*.*]. *)
Definition pattern_dir (search_path : list ascii) : option (list ascii) :=
  let n := (length search_path - 4)%nat in
  if bool_decide (skipn n search_path = lit "\*.*")
  then Some (firstn n search_path) else None.

(** What the enumeration reports for the node at [c]. *)
Definition found (m : gmap key node) (c : key) : find_data :=
  {| cFileName := List.last c [];
     is_directory := bool_decide (m !! c = Some DirN) |}.

(** [FindFirstFileA] and the [FindNextFileA] calls that follow it.  For the
    pattern [dir\*.*] they report the pseudo-entries and then the nodes
    directly below [dir], and give no handle when [dir] is not a directory.
    What they report for a pattern of another form, which the program hands
    over when [snprintf] has cut the pattern short, is up to the system
    ([other]). *)
Definition FindFiles
    (other : list ascii -> gmap key node -> option (list find_data))
    (search_path : list ascii) (m : gmap key node)
  : option (list find_data) :=
  match pattern_dir search_path with
  | Some dir =>
      if is_dir m (resolve dir) then
        Some ([ {| cFileName := lit "."; is_directory := true |};
                {| cFileName := lit ".."; is_directory := true |} ]
              ++ map (found m) (children m (resolve dir)))
      else None
  | None => other search_path m
  end.

(** Recursively deletes a directory and all its contents: the function as
    it is written, on path strings.  [fuel] bounds the depth of the
    recursion. *)
Fixpoint recursive_delete_directory
    (other : list ascii -> gmap key node -> option (list find_data))
    (fuel : nat) (path : list ascii) (m : gmap key node)
  : bool * gmap key node :=
  match fuel with
  | O => (false, m)
  | S fuel' =>
      let search_path := snprintf Layout.MAX_PATH (path ++ lit "\*.*") in
      match FindFiles other search_path m with
      | None => (false, m)
      | Some entries =>
          let m :=
            fold_left
              (fun acc fd =>
                 if (strcmp (cFileName fd) (lit ".") =? 0)
                    || (strcmp (cFileName fd) (lit "..") =? 0)
                 then acc
                 else
                   let full_path :=
                     snprintf Layout.MAX_PATH
                       (path ++ lit "\" ++ cFileName fd) in
                   if is_directory fd
                   then (recursive_delete_directory other fuel' full_path acc).2
                   else DeleteFileA full_path acc)
              entries m in
          RemoveDirectoryA (resolve path) m
      end
  end.

(** The file system without the node at [root] and the nodes below it. *)
Definition remove_below (root : key) (m : gmap key node) : gmap key node :=
  filter (fun kv => ~ root `prefix_of` kv.1) m.

(** At [root] and below, the file system is a tree: what exists there lies
    in a directory that exists. *)
Definition tree_below (root : key) (m : gmap key node) : bool :=
  forallb (fun kv => implb (inside root (parent kv.1)) (is_dir m (parent kv.1)))
    (map_to_list m).

(** The nodes at [root] and below. *)
Definition nodes_below (root : key) (m : gmap key node) : nat :=
  size (filter (fun kv => root `prefix_of` kv.1) m).

(** The path string of the node [rel] below the directory [path]. *)
Definition path_below (path : list ascii) (rel : key) : list ascii :=
  path ++ concat (map (fun c => "\"%char :: c) rel).

(** Every node at [path] or below has a path made of valid names that,
    with [\*.*] after it, fits the path buffer. *)
Definition short_below (path : list ascii) (m : gmap key node) : bool :=
  forallb
    (fun kv =>
       let rel := skipn (length (resolve path)) kv.1 in
       implb (inside (resolve path) kv.1)
         (forallb Walk.valid_name rel
          && (length (path_below path rel) + 4 <? Layout.MAX_PATH)%nat))
    (map_to_list m).

End Cleanup.


(** * Proofs *)

(** ** Integers and buffers *)

Section CFacts.
Import C.

Lemma length_le_bytes n z : length (le_bytes n z) = n.
Proof. revert z. induction n as [|n IH]; intros z; simpl; [done | by rewrite IH]. Qed.

Lemma le_value_le_bytes n z :
  le_value (le_bytes n z) = z mod 256 ^ Z.of_nat n.
Proof.
  revert z. induction n as [|n IH]; intros z.
  - simpl. by rewrite Z.mod_1_r.
  - cbn [le_bytes le_value]. rewrite IH.
    rewrite N_ascii_embedding.
    2:{ apply N2Z.inj_lt. rewrite Z2N.id; [| apply Z.mod_pos_bound; lia].
        change (Z.of_N 256) with 256. apply Z.mod_pos_bound. lia. }
    rewrite Z2N.id by (apply Z.mod_pos_bound; lia).
    rewrite Nat2Z.inj_succ, Z.pow_succ_r by lia.
    rewrite (Z.rem_mul_r z 256 (256 ^ Z.of_nat n)) by lia. reflexivity.
Qed.

Lemma le_value_u64 z : 0 <= z < 2 ^ 64 -> le_value (le_bytes 8 z) = z.
Proof.
  intros Hz. rewrite le_value_le_bytes.
  change (256 ^ Z.of_nat 8) with (2 ^ 64). by apply Z.mod_small.
Qed.

Lemma to_u64_range z : 0 <= to_u64 z < 2 ^ 64.
Proof. unfold to_u64. apply Z.mod_pos_bound. lia. Qed.

Lemma ftell_small n : Z.of_nat n <= LONG_MAX -> ftell n = Z.of_nat n.
Proof. intros H. unfold ftell. destruct (Z.leb_spec (Z.of_nat n) LONG_MAX); [done | lia]. Qed.

Lemma to_u64_ftell_small n :
  Z.of_nat n <= LONG_MAX -> to_u64 (ftell n) = Z.of_nat n.
Proof.
  intros H. rewrite ftell_small by done. unfold to_u64, LONG_MAX in *.
  apply Z.mod_small. lia.
Qed.

Lemma to_long_small z : 0 <= z <= LONG_MAX -> to_long z = z.
Proof.
  unfold to_long, LONG_MAX. intros H.
  rewrite Z.mod_small by lia. lia.
Qed.


Lemma cstr_app_nul s rest : no_nul s -> cstr (s ++ NUL :: rest) = s.
Proof.
  induction 1 as [|ch s Hch _ IH]; simpl; [done |].
  destruct (Ascii.eqb_spec ch NUL); [done | by rewrite IH].
Qed.

Lemma cstr_no_nul s : no_nul s -> cstr s = s.
Proof.
  induction 1 as [|ch s Hch _ IH]; simpl; [done |].
  destruct (Ascii.eqb_spec ch NUL); [done | by rewrite IH].
Qed.

Lemma cstr_is_no_nul buf : no_nul (cstr buf).
Proof.
  induction buf as [|ch buf IH]; simpl; [constructor |].
  destruct (Ascii.eqb_spec ch NUL); by constructor.
Qed.

Lemma cstr_strcpy dst src : no_nul src -> cstr (strcpy dst src) = src.
Proof. intros H. unfold strcpy. by apply cstr_app_nul. Qed.

Lemma length_strcpy dst src :
  (length src < length dst)%nat -> length (strcpy dst src) = length dst.
Proof.
  intros H. unfold strcpy. rewrite length_app. simpl.
  rewrite length_skipn. lia.
Qed.

Lemma strcmp_go_0 a b : strcmp_go a b = 0 <-> a = b.
Proof.
  revert b. induction a as [|x a IH]; intros [|y b]; simpl; try (split; [lia | done]); try done.
  destruct (Ascii.eqb_spec x y) as [->|Hne].
  - rewrite IH. split; congruence.
  - split; [| congruence]. destruct (_ <? _)%N; lia.
Qed.

Lemma strcmp_0 a b : strcmp a b = 0 <-> cstr a = cstr b.
Proof. apply strcmp_go_0. Qed.

Lemma length_uninitialised n junk : length (Packer.uninitialised n junk) = n.
Proof.
  unfold Packer.uninitialised. rewrite length_firstn, length_app, repeat_length. lia.
Qed.

Lemma nth_map_seq {A} (f : nat -> A) start len i d :
  (i < len)%nat -> nth i (map f (seq start len)) d = f (start + i)%nat.
Proof.
  intros Hi.
  rewrite (nth_indep _ d (f 0%nat)) by (rewrite length_map, length_seq; lia).
  rewrite (map_nth f). by rewrite seq_nth.
Qed.

Lemma load_overlay_slice data old start len :
  (start + len <= length data)%nat ->
  load (overlay data old) start len = firstn len (skipn start data).
Proof.
  intros H. unfold load, overlay. apply nth_ext with (d := NUL) (d' := NUL).
  - rewrite length_map, length_seq, length_firstn, length_skipn. lia.
  - intros i Hi. rewrite length_map, length_seq in Hi.
    rewrite nth_map_seq by done.
    rewrite nth_firstn. destruct (Nat.ltb_spec i len); [| lia].
    rewrite nth_skipn. apply nth_indep. lia.
Qed.

Lemma load_overlay_all data old :
  load (overlay data old) 0 (length data) = data.
Proof.
  rewrite load_overlay_slice by lia. simpl. apply firstn_all.
Qed.

End CFacts.

(** ** The object representation round-trips *)

Section LayoutFacts.
Import C Layout.

Lemma firstn_app_exact {A} (a b : list A) n :
  length a = n -> firstn n (a ++ b) = a.
Proof. intros <-. rewrite firstn_app, Nat.sub_diag, firstn_all. simpl. apply app_nil_r. Qed.

Lemma skipn_app_exact {A} (a b : list A) n :
  length a = n -> skipn n (a ++ b) = b.
Proof. intros <-. rewrite skipn_app, Nat.sub_diag, skipn_all. reflexivity. Qed.

Lemma length_entry_bytes e :
  length (relative_path e) = MAX_PATH ->
  length (entry_bytes e) = sizeof_ManifestEntry.
Proof.
  intros H. unfold entry_bytes, sizeof_ManifestEntry.
  rewrite !length_app, !length_le_bytes. simpl. rewrite H. lia.
Qed.

Lemma entry_of_entry_bytes e rest :
  entry_wf e -> entry_of_bytes (entry_bytes e ++ rest) = e.
Proof.
  intros (Ho & Hs & Hl). destruct e as [o s x p].
  cbn [offset size relative_path] in *.
  unfold entry_of_bytes, entry_bytes.
  cbn [offset size is_executable relative_path].
  generalize (length_le_bytes 8 o) (length_le_bytes 8 s).
  generalize (le_value_u64 o Ho) (le_value_u64 s Hs).
  generalize (le_bytes 8 o) (le_bytes 8 s). intros bo bs Vo Vs Lo Ls.
  rewrite <- !app_assoc.
  rewrite (firstn_app_exact bo) by done.
  rewrite (skipn_app_exact bo) by done.
  rewrite (firstn_app_exact bs) by done.
  rewrite Vo, Vs.
  f_equal.
  - rewrite app_nth2 by lia. rewrite Lo.
    rewrite app_nth2 by lia. rewrite Ls. reflexivity.
  - change 17%nat with (1 + 8 + 8)%nat.
    rewrite <- skipn_skipn.
    rewrite (skipn_app_exact bo) by done.
    rewrite <- skipn_skipn.
    rewrite (skipn_app_exact bs) by done.
    cbn [skipn app]. by apply firstn_app_exact.
Qed.

Lemma footer_of_footer_bytes f rest :
  0 <= manifest_offset f < 2 ^ 64 -> length (magic f) = 8%nat ->
  footer_of_bytes (footer_bytes f ++ rest) = f.
Proof.
  intros Ho Hm. destruct f as [o m]. cbn [manifest_offset magic] in *.
  unfold footer_of_bytes, footer_bytes. cbn [manifest_offset magic].
  generalize (length_le_bytes 8 o) (le_value_u64 o Ho).
  generalize (le_bytes 8 o). intros bo Lo Vo.
  rewrite <- !app_assoc.
  rewrite (firstn_app_exact bo) by done.
  rewrite (skipn_app_exact bo) by done.
  rewrite Vo.
  by rewrite firstn_app_exact.
Qed.

Lemma length_relative_path_of_bytes raw :
  length raw = sizeof_ManifestEntry ->
  length (relative_path (entry_of_bytes raw)) = MAX_PATH.
Proof.
  intros H. simpl. rewrite length_firstn, length_skipn, H.
  unfold sizeof_ManifestEntry. lia.
Qed.

Lemma entry_for_wf E n pos flag rel d :
  (length rel < MAX_PATH)%nat ->
  entry_wf (Walk.entry_for E n pos flag rel d).
Proof.
  intros Hrel. unfold Walk.entry_for.
  set (raw := Packer.uninitialised _ _).
  assert (Hraw : length raw = sizeof_ManifestEntry) by apply length_uninitialised.
  assert (Hp : length (strcpy (relative_path (entry_of_bytes raw)) rel) = MAX_PATH).
  { rewrite length_strcpy; rewrite length_relative_path_of_bytes; done. }
  assert (Hv : forall bs, 0 <= le_value (firstn 8 bs) < 2 ^ 64).
  { intros bs. assert (Hlen : (length (firstn 8 bs) <= 8)%nat) by (rewrite length_firstn; lia).
    revert Hlen. generalize (firstn 8 bs). clear.
    assert (G : forall (l : list ascii) k, (length l <= k)%nat -> 0 <= le_value l < 256 ^ Z.of_nat k).
    { induction l as [|b l IH]; intros k Hk; simpl in *.
      - split; [lia | apply Z.pow_pos_nonneg; lia].
      - destruct k as [|k]; [lia |].
        specialize (IH k ltac:(lia)).
        rewrite Nat2Z.inj_succ, Z.pow_succ_r by lia.
        pose proof (N_ascii_bounded b) as Hb.
        apply N2Z.inj_lt in Hb. change (Z.of_N 256) with 256 in Hb.
        pose proof (N2Z.is_nonneg (N_of_ascii b)). lia. }
    intros l Hl. apply (G l 8%nat Hl). }
  destruct d as [b|]; unfold entry_wf; simpl; repeat split;
    try apply to_u64_range; try apply Hv; try lia; try exact Hp.
Qed.

End LayoutFacts.

(** ** The packer *)

Section PackerFacts.
Import C Layout Packer Walk.

Lemma BUFFER_SIZE_pos : 0 < Packer.BUFFER_SIZE.
Proof. reflexivity. Qed.

Lemma copy_loop_all fuel data pos st :
  (length data - pos < fuel)%nat ->
  copy_loop fuel {| r_data := data; r_pos := pos |} st
  = fwrite (skipn pos data) st.
Proof.
  revert pos st. induction fuel as [|fuel IH]; intros pos st Hf; [lia |].
  cbn [copy_loop]. unfold fread. cbn [r_data r_pos].
  pose proof BUFFER_SIZE_pos as HB.
  set (k := Z.to_nat (Z.min Packer.BUFFER_SIZE (Z.of_nat (length data) - Z.of_nat pos))).
  destruct (firstn k (skipn pos data)) as [|x got] eqn:Hgot.
  - assert (skipn pos data = []) as ->.
    { destruct (skipn pos data) as [|y r] eqn:Hs; [done |].
      assert (k = 0%nat) as Hk by (destruct k; [done | discriminate]).
      assert (Hl : length (skipn pos data) = S (length r)) by (by rewrite Hs).
      rewrite length_skipn in Hl. unfold k in Hk. lia. }
    unfold fwrite. destruct st; simpl. by rewrite app_nil_r.
  - assert (Hl : length (firstn k (skipn pos data)) = S (length got)) by (by rewrite Hgot).
    rewrite length_firstn, length_skipn in Hl.
    assert (Hk : (k <= length data - pos)%nat) by (unfold k; lia).
    rewrite IH by (simpl; lia).
    unfold fwrite; cbn [f_archive console head mallocs]. f_equal.
    rewrite <- app_assoc. f_equal.
    rewrite <- (firstn_skipn k (skipn pos data)), Hgot.
    f_equal. rewrite skipn_skipn. f_equal. simpl. lia.
Qed.

Lemma append_file_to_archive_eq path d e st :
  append_file_to_archive path d e st
  = (match d with
     | None => set_size 0 e
     | Some b =>
         set_size (to_u64 (ftell (length b)))
           (set_offset (to_u64 (ftell (length (f_archive st)))) e)
     end,
     {| f_archive := f_archive st ++ payload d;
        console := console st
                   ++ match d with
                      | None => [lit "Warning: Could not open file " ++ path]
                      | Some _ => []
                      end;
        head := head st; mallocs := mallocs st |}).
Proof.
  destruct d as [b|].
  - cbn [append_file_to_archive]. rewrite copy_loop_all by (cbn [length]; lia). simpl.
    unfold fwrite. by rewrite app_nil_r.
  - unfold printf. by rewrite app_nil_r.
Qed.

Lemma pack_file_eq E st w :
  pack_file E st w
  = {| f_archive := f_archive st ++ payload (w_data w);
       console := console st ++ log w;
       head := entry_for E (mallocs st) (length (f_archive st)) Ascii.zero
                 (w_relative w) (w_data w) :: head st;
       mallocs := S (mallocs st) |}.
Proof.
  unfold pack_file, malloc_node.
  rewrite append_file_to_archive_eq. unfold push_node, printf, entry_for, log. simpl.
  rewrite <- app_assoc. destruct (w_data w); reflexivity.
Qed.

Lemma fold_pack_file_eq E ws st :
  fold_left (pack_file E) ws st
  = {| f_archive := f_archive st ++ payloads ws;
       console := console st ++ flat_map log ws;
       head := rev (entries_for E (mallocs st) (length (f_archive st)) ws)
               ++ head st;
       mallocs := (mallocs st + length ws)%nat |}.
Proof.
  revert st. induction ws as [|w ws IH]; intros st.
  - destruct st; simpl. unfold payloads. simpl.
    by rewrite !app_nil_r, Nat.add_0_r.
  - cbn [fold_left]. rewrite IH, pack_file_eq. cbn [f_archive console head mallocs].
    unfold payloads. cbn [map concat flat_map entries_for rev length].
    rewrite <- !app_assoc, length_app. simpl.
    f_equal. lia.
Qed.

(** The recursive walk is a flat loop over the files in walk order. *)
Lemma walk_entry_flat E base :
  forall ent cur st,
    walk_entry E base cur ent st
    = fold_left (pack_file E) (walked_entry (fopen_cut E) base cur ent) st.
Proof.
  fix IH 1. intros [n b o | n sub] cur st.
  - cbn [walk_entry walked_entry]. destruct (is_dot n); [done |].
    cbn [fold_left]. unfold pack_file. cbn [w_relative w_full w_data].
    reflexivity.
  - cbn [walk_entry walked_entry]. destruct (is_dot n); [done |].
    set (rel := snprintf _ _). clearbody rel.
    revert st. induction sub as [|e sub IHsub]; intros st; [done |].
    rewrite fold_left_app, <- IH. apply IHsub.
Qed.

Lemma walk_directory_flat E base cur entries st :
  walk_directory E base cur entries st
  = fold_left (pack_file E) (walked_files (fopen_cut E) base cur entries) st.
Proof.
  revert st. induction entries as [|e more IH]; intros st; [done |].
  cbn [walk_directory walked_files].
  by rewrite fold_left_app, IH, walk_entry_flat.
Qed.

(** The run of the packer, case by case. *)
Lemma main_success_eq E stub :
  length (argv E) = 4%nat -> out_exe_writable E = true ->
  loader_exe E = Some stub -> to_u64 (ftell (length stub)) <> 0 ->
  (length (base_name (arg E 2)) < MAX_PATH)%nat ->
  main E = Returned {| exit_code := 0; out_exe := Some (output E stub);
                       stdout := transcript E |}.
Proof.
  intros Hargc Hout Hstub Hsize Hbase. unfold main.
  rewrite Hargc, Hout, Hstub. cbn [Nat.eqb negb].
  rewrite append_file_to_archive_eq. cbn [size set_size set_offset payload].
  destruct (Z.eqb_spec (to_u64 (ftell (length stub))) 0) as [|_]; [done |].
  rewrite walk_directory_flat, fold_pack_file_eq.
  unfold malloc_node, printf. cbn [f_archive console head mallocs].
  fold (base_name (arg E 2)).
  destruct (Nat.leb_spec MAX_PATH (length (base_name (arg E 2)))) as [|_]; [lia |].
  rewrite append_file_to_archive_eq.
  unfold push_node, fwrite. cbn [f_archive console head mallocs].
  fold (walk E).
  do 2 f_equal.
  - f_equal. unfold output, archive_of, body, manifest, exe_entry, entry_for.
    cbn [app]. rewrite !app_nil_r, <- !app_assoc. cbn [app Nat.add].
    repeat f_equal; destruct (main_exe_file E); reflexivity.
  - unfold transcript. rewrite !app_nil_r, <- !app_assoc. cbn [app].
    repeat f_equal.
Qed.

Lemma main_success E r :
  main E = Returned r -> exit_code r = 0 ->
  exists stub,
    loader_exe E = Some stub /\ to_u64 (ftell (length stub)) <> 0
    /\ length (argv E) = 4%nat
    /\ (length (base_name (arg E 2)) < MAX_PATH)%nat
    /\ out_exe r = Some (output E stub) /\ stdout r = transcript E.
Proof.
  intros Hmain Hcode.
  destruct (Nat.eqb_spec (length (argv E)) 4) as [Hargc|Hargc].
  2:{ unfold main in Hmain. destruct (Nat.eqb_spec (length (argv E)) 4); [done |].
      simpl in Hmain. injection Hmain as <-. done. }
  destruct (out_exe_writable E) eqn:Hout.
  2:{ unfold main in Hmain. rewrite Hargc, Hout in Hmain. simpl in Hmain.
      injection Hmain as <-. done. }
  destruct (loader_exe E) as [stub|] eqn:Hstub.
  2:{ unfold main in Hmain. rewrite Hargc, Hout, Hstub in Hmain.
      cbn [Nat.eqb negb] in Hmain. rewrite append_file_to_archive_eq in Hmain.
      cbn [size set_size] in Hmain. simpl in Hmain. injection Hmain as <-. done. }
  destruct (Z.eq_dec (to_u64 (ftell (length stub))) 0) as [Hz|Hz].
  { unfold main in Hmain. rewrite Hargc, Hout, Hstub in Hmain.
    cbn [Nat.eqb negb] in Hmain. rewrite append_file_to_archive_eq in Hmain.
    cbn [size set_size set_offset] in Hmain. rewrite Hz in Hmain.
    simpl in Hmain. injection Hmain as <-. done. }
  destruct (Nat.leb_spec MAX_PATH (length (base_name (arg E 2)))) as [Hb|Hb].
  { unfold main in Hmain. rewrite Hargc, Hout, Hstub in Hmain.
    cbn [Nat.eqb negb] in Hmain. rewrite append_file_to_archive_eq in Hmain.
    cbn [size set_size set_offset] in Hmain.
    destruct (Z.eqb_spec (to_u64 (ftell (length stub))) 0) as [|_]; [done |].
    unfold malloc_node in Hmain. fold (base_name (arg E 2)) in Hmain.
    destruct (Nat.leb_spec MAX_PATH (length (base_name (arg E 2)))); [done | lia]. }
  rewrite (main_success_eq E stub) in Hmain by done.
  injection Hmain as <-. exists stub. simpl. done.
Qed.

End PackerFacts.

(** ** Archives as files *)

Section ArchiveFacts.
Import C Layout Packer Walk.

Lemma length_concat_entry_bytes es :
  Forall entry_wf es ->
  length (concat (map entry_bytes es)) = (length es * sizeof_ManifestEntry)%nat.
Proof.
  induction 1 as [|e es (_ & _ & Hl) _ IH]; [done |].
  cbn [map concat length]. rewrite length_app, IH, length_entry_bytes by done. lia.
Qed.

Lemma length_footer_bytes f :
  length (magic f) = 8%nat -> length (footer_bytes f) = sizeof_ArchiveFooter.
Proof. intros H. unfold footer_bytes. rewrite length_app, length_le_bytes, H. done. Qed.

Lemma length_archive_of body es :
  Forall entry_wf es ->
  length (archive_of body es)
  = (length body + (8 + length es * sizeof_ManifestEntry) + sizeof_ArchiveFooter)%nat.
Proof.
  intros H. unfold archive_of.
  rewrite !length_app, length_le_bytes, length_concat_entry_bytes by done.
  rewrite length_footer_bytes by done. lia.
Qed.

Lemma footer_in_archive_of body es :
  Forall entry_wf es ->
  footer_in (archive_of body es)
  = {| manifest_offset := to_u64 (ftell (length body));
       magic := MAGIC_BYTES ++ [NUL] |}.
Proof.
  intros H. unfold footer_in. rewrite length_archive_of by done.
  unfold archive_of. rewrite !app_assoc.
  rewrite skipn_app_exact.
  - rewrite <- (app_nil_r (footer_bytes _)).
    apply footer_of_footer_bytes; [apply to_u64_range | done].
  - rewrite !length_app, length_le_bytes, length_concat_entry_bytes by done. lia.
Qed.

(** Reading the entries back one by one. *)
Lemma entries_read_back es pre post :
  Forall entry_wf es ->
  map (fun i =>
         entry_of_bytes
           (firstn sizeof_ManifestEntry
              (skipn (length pre + i * sizeof_ManifestEntry)
                 (pre ++ concat (map entry_bytes es) ++ post))))
    (seq 0 (length es))
  = es.
Proof.
  intros H. revert pre. induction H as [|e es He Hes IH]; intros pre; [done |].
  cbn [length seq map concat]. f_equal.
  - rewrite Nat.add_0_r, skipn_app_exact by done.
    rewrite <- !app_assoc.
    rewrite firstn_app_exact by (apply length_entry_bytes, He).
    rewrite <- (app_nil_r (entry_bytes e)). by apply entry_of_entry_bytes.
  - rewrite <- seq_shift, map_map.
    rewrite <- (IH (pre ++ entry_bytes e)) at 2.
    apply map_ext. intros i. do 2 f_equal.
    rewrite length_app, length_entry_bytes by apply He.
    rewrite <- !app_assoc. f_equal. lia.
Qed.

Lemma manifest_in_archive_of body es :
  Forall entry_wf es -> Z.of_nat (length body) <= LONG_MAX ->
  Z.of_nat (length es) < 2 ^ 64 ->
  manifest_in (archive_of body es) = es.
Proof.
  intros H Hbody Hcount. unfold manifest_in.
  rewrite footer_in_archive_of by done. cbn [manifest_offset].
  rewrite to_u64_ftell_small, Nat2Z.id by done.
  unfold archive_of.
  rewrite (skipn_app_exact body) by done.
  rewrite firstn_app_exact by apply length_le_bytes.
  rewrite le_value_u64 by apply to_u64_range.
  unfold to_u64. rewrite (Z.mod_small (Z.of_nat (length es))), Nat2Z.id by lia.
  rewrite (app_assoc body).
  rewrite <- (entries_read_back es (body ++ le_bytes 8 (Z.of_nat (length es)))
                (footer_bytes {| manifest_offset := Z.of_nat (length body) mod 2 ^ 64;
                                 magic := MAGIC_BYTES ++ [NUL] |})) at 2 by done.
  apply map_ext. intros i. do 3 f_equal.
  - rewrite length_app, length_le_bytes. done.
  - by rewrite ftell_small.
Qed.

Lemma manifest_in_small body es :
  Forall entry_wf es ->
  Z.of_nat (length (archive_of body es)) <= LONG_MAX ->
  manifest_in (archive_of body es) = es.
Proof.
  intros H Hlen. rewrite length_archive_of in Hlen by done.
  unfold LONG_MAX, sizeof_ManifestEntry, MAX_PATH in *.
  apply manifest_in_archive_of; [done | unfold LONG_MAX; lia | lia].
Qed.

End ArchiveFacts.

(** ** What the packer writes *)

Section PackerTheorems.
Import C Layout Packer Walk.

Lemma cstr_app_nul_any s rest : cstr (s ++ NUL :: rest) = cstr s.
Proof.
  induction s as [|ch s IH]; simpl; [done |].
  destruct (Ascii.eqb ch NUL); [done | by rewrite IH].
Qed.

Lemma cstr_strcpy_any dst src : cstr (strcpy dst src) = cstr src.
Proof. apply cstr_app_nul_any. Qed.

Lemma relative_path_entry_for E n pos flag rel d :
  cstr (relative_path (entry_for E n pos flag rel d)) = cstr rel.
Proof. unfold entry_for. destruct d; apply cstr_strcpy_any. Qed.

Lemma is_executable_entry_for E n pos flag rel d :
  is_executable (entry_for E n pos flag rel d) = flag.
Proof. unfold entry_for. by destruct d. Qed.

Lemma size_entry_for_unopened E n pos flag rel :
  size (entry_for E n pos flag rel None) = 0.
Proof. reflexivity. Qed.

Lemma length_snprintf n text : (0 < n)%nat -> (length (snprintf n text) < n)%nat.
Proof. intros H. unfold snprintf. rewrite length_firstn. lia. Qed.

Lemma walked_entry_short cut base :
  forall ent cur,
    Forall (fun w => (length (w_relative w) < MAX_PATH)%nat)
      (walked_entry cut base cur ent).
Proof.
  fix IH 1. intros [n b o | n sub] cur; cbn [walked_entry].
  - destruct (is_dot n); [constructor |].
    constructor; [| constructor]. apply length_snprintf. unfold MAX_PATH. lia.
  - destruct (is_dot n); [constructor |].
    generalize (snprintf MAX_PATH
                  (cur ++ (if (0 <? length cur)%nat then lit "\" else []) ++ n)).
    intros rel. induction sub as [|e sub IHsub]; [constructor |].
    apply Forall_app. split; [apply IH | apply IHsub].
Qed.

Lemma walked_files_short cut base cur entries :
  Forall (fun w => (length (w_relative w) < MAX_PATH)%nat)
    (walked_files cut base cur entries).
Proof.
  induction entries as [|e more IH]; [constructor |].
  apply Forall_app. split; [apply walked_entry_short | apply IH].
Qed.

Lemma entries_for_wf E ws n pos :
  Forall (fun w => (length (w_relative w) < MAX_PATH)%nat) ws ->
  Forall entry_wf (entries_for E n pos ws).
Proof.
  intros H. revert n pos. induction H as [|w ws Hw _ IH]; intros n pos; [constructor |].
  constructor; [by apply entry_for_wf | apply IH].
Qed.

Lemma manifest_wf E stub :
  (length (base_name (arg E 2)) < MAX_PATH)%nat ->
  Forall entry_wf (manifest E stub).
Proof.
  intros Hb. constructor; [by apply entry_for_wf |].
  apply Forall_rev, entries_for_wf, walked_files_short.
Qed.

Lemma length_entries_for E ws n pos :
  length (entries_for E n pos ws) = length ws.
Proof.
  revert n pos. induction ws as [|w ws IH]; intros n pos; simpl; [done | by rewrite IH].
Qed.

Lemma entries_for_paths E ws n pos :
  map (fun e => cstr (relative_path e)) (entries_for E n pos ws)
  = map (fun w => cstr (w_relative w)) ws.
Proof.
  revert n pos. induction ws as [|w ws IH]; intros n pos; [done |].
  cbn [entries_for map]. by rewrite relative_path_entry_for, IH.
Qed.

Lemma entries_for_unflagged E ws n pos :
  Forall (fun e => is_executable e = Ascii.zero) (entries_for E n pos ws).
Proof.
  revert n pos. induction ws as [|w ws IH]; intros n pos; constructor;
    [apply is_executable_entry_for | apply IH].
Qed.

Lemma entries_for_In E w ws n pos :
  In w ws ->
  exists n' pos',
    In (entry_for E n' pos' Ascii.zero (w_relative w) (w_data w))
      (entries_for E n pos ws).
Proof.
  revert n pos. induction ws as [|w' ws IH]; intros n pos; [done |].
  intros [->|Hin].
  - exists n, pos. by left.
  - destruct (IH (S n) (pos + length (payload (w_data w')))%nat Hin) as (n' & pos' & H).
    exists n', pos'. by right.
Qed.

Lemma strrchr_None s ch : strrchr s ch = None -> ~ In ch s.
Proof.
  induction s as [|x s IH]; simpl; [tauto |].
  destruct (strrchr s ch); [done |].
  destruct (Ascii.eqb_spec x ch); [done |].
  intros _ [H|H]; [done | by apply IH].
Qed.

Lemma strrchr_Some s ch r :
  strrchr s ch = Some r ->
  exists pre post, s = pre ++ ch :: post /\ r = ch :: post /\ ~ In ch post.
Proof.
  revert r. induction s as [|x s IH]; intros r; simpl; [done |].
  destruct (strrchr s ch) as [r'|] eqn:Hs.
  - intros [= <-]. destruct (IH r' eq_refl) as (pre & post & -> & -> & Hn).
    by exists (x :: pre), post.
  - destruct (Ascii.eqb_spec x ch) as [->|]; [| done].
    intros [= <-]. exists [], s. repeat split. by apply strrchr_None.
Qed.

(** [base_name] is the part after the last backslash. *)
Lemma base_name_spec main_exe :
  exists dir,
    main_exe = dir ++ base_name main_exe
    /\ ~ In "\"%char (base_name main_exe)
    /\ (dir = [] \/ exists d, dir = d ++ ["\"%char]).
Proof.
  unfold base_name. destruct (strrchr main_exe "\") as [r|] eqn:H.
  - destruct (strrchr_Some _ _ _ H) as (pre & post & -> & -> & Hn).
    exists (pre ++ ["\"%char]). cbn [skipn]. rewrite <- app_assoc.
    repeat split; [done |]. right. by exists pre.
  - exists []. repeat split; [by apply strrchr_None | by left].
Qed.

End PackerTheorems.

Section PackerClaims.
Import C Layout Packer Walk.

Lemma stub_size_nonzero (stub : list ascii) :
  stub <> [] <-> to_u64 (ftell (length stub)) <> 0.
Proof.
  destruct stub as [|x stub]; [split; [done | intros H; by destruct H] |].
  split; [intros _ | done].
  assert (Hl : 0 < Z.of_nat (length (x :: stub))) by (simpl; lia).
  revert Hl. generalize (length (x :: stub)). intros n Hn.
  unfold to_u64, ftell, LONG_MAX.
  destruct (Z.leb_spec (Z.of_nat n) (2 ^ 31 - 1)) as [Hle|Hgt].
  - rewrite Z.mod_small; lia.
  - done.
Qed.

Lemma payloads_In w ws :
  In w ws -> exists pre post, payloads ws = pre ++ payload (w_data w) ++ post.
Proof.
  unfold payloads. induction ws as [|w' ws IH]; [done |].
  intros [->|Hin]; cbn [map concat].
  - by exists [], (concat (map (fun w => payload (w_data w)) ws)).
  - destruct (IH Hin) as (pre & post & ->).
    exists (payload (w_data w') ++ pre), post. by rewrite <- app_assoc.
Qed.

(** C9.  A source file that cannot be opened does not stop the packer: under
    the conditions in which the packer does not give up before packing (four
    arguments, a writable output, a non-empty loader stub, a main-executable
    name that fits its field) it returns 0; for every walked file that could
    not be opened it has printed the warning and the manifest holds an entry
    with that file's path and size 0, and the same holds for the main
    executable; the manifest has one entry per walked file plus one, and the
    bytes of every file that could be opened are in the archive. *)
Theorem unopenable_file_warning_and_empty_entry (E : env) (stub : list ascii) :
  length (argv E) = 4%nat -> out_exe_writable E = true ->
  loader_exe E = Some stub -> stub <> [] ->
  (length (base_name (arg E 2)) < MAX_PATH)%nat ->
  exists r es,
    main E = Returned r /\ exit_code r = 0
    /\ out_exe r = Some (archive_of (body E stub) es)
    /\ length es = S (length (walk E))
    /\ (forall w, In w (walk E) -> w_data w = None ->
          In (lit "Warning: Could not open file " ++ w_full w) (stdout r)
          /\ exists e, In e es
               /\ cstr (relative_path e) = cstr (w_relative w)
               /\ size e = 0)
    /\ (main_exe_file E = None ->
          In (lit "Warning: Could not open file " ++ arg E 2) (stdout r)
          /\ exists e, In e es
               /\ cstr (relative_path e) = cstr (base_name (arg E 2))
               /\ size e = 0)
    /\ (forall w b, In w (walk E) -> w_data w = Some b ->
          exists pre post, body E stub = pre ++ b ++ post).
Proof.
  intros Hargc Hout Hstub Hne Hbase. apply stub_size_nonzero in Hne.
  eexists _, (manifest E stub). split; [by apply main_success_eq |].
  cbn [exit_code out_exe stdout]. repeat split.
  - unfold manifest. cbn [length]. by rewrite length_rev, length_entries_for.
  - unfold transcript. rewrite !in_app_iff. left. left. right.
    apply in_flat_map. exists w. split; [done |]. unfold log. rewrite H0. right. by left.
  - destruct (entries_for_In E w (walk E) 0 (length stub) H) as (n & pos & Hin).
    eexists. split; [right; apply in_rev in Hin; exact Hin |].
    rewrite relative_path_entry_for, H0. done.
  - unfold transcript. rewrite !in_app_iff. right. rewrite H. left. by left.
  - exists (exe_entry E stub). split; [by left |]. unfold exe_entry.
    rewrite relative_path_entry_for, H. done.
  - intros w b Hin Hb. destruct (payloads_In w (walk E) Hin) as (pre & post & Hp).
    exists (stub ++ pre), (post ++ payload (main_exe_file E)).
    unfold body. rewrite Hp, Hb. cbn [payload]. by rewrite <- !app_assoc.
Qed.

(** The run of [Scenario.packer_locked], in which [save.dat] is locked. *)
Lemma unopenable_file_witness :
  exists r es,
    main Scenario.packer_locked = Returned r /\ exit_code r = 0
    /\ out_exe r = Some (archive_of (body Scenario.packer_locked (lit "STUB")) es)
    /\ length es = S (length (walk Scenario.packer_locked))
    /\ (forall w, In w (walk Scenario.packer_locked) -> w_data w = None ->
          In (lit "Warning: Could not open file " ++ w_full w) (stdout r)
          /\ exists e, In e es
               /\ cstr (relative_path e) = cstr (w_relative w)
               /\ size e = 0)
    /\ (main_exe_file Scenario.packer_locked = None ->
          In (lit "Warning: Could not open file " ++ arg Scenario.packer_locked 2) (stdout r)
          /\ exists e, In e es
               /\ cstr (relative_path e) = cstr (base_name (arg Scenario.packer_locked 2))
               /\ size e = 0)
    /\ (forall w b, In w (walk Scenario.packer_locked) -> w_data w = Some b ->
          exists pre post, body Scenario.packer_locked (lit "STUB") = pre ++ b ++ post).
Proof.
  apply (unopenable_file_warning_and_empty_entry Scenario.packer_locked (lit "STUB"));
    [reflexivity | reflexivity | reflexivity | discriminate | vm_compute; lia].
Defined.

(** C8 (as amended).  The packer writes [entry_count] and then the entries
    newest first: the main executable's entry, then the walked files' entries
    from the last one reached to the first. *)
Theorem manifest_written_newest_first (E : env) (r : result) :
  main E = Returned r -> exit_code r = 0 ->
  exists stub produced exe,
    loader_exe E = Some stub
    /\ out_exe r = Some (archive_of (body E stub) (exe :: rev produced))
    /\ map (fun e => cstr (relative_path e)) produced
       = map (fun w => cstr (w_relative w)) (walk E)
    /\ cstr (relative_path exe) = cstr (base_name (arg E 2))
    /\ (Z.of_nat (length (archive_of (body E stub) (exe :: rev produced)))
        <= LONG_MAX ->
        manifest_in (archive_of (body E stub) (exe :: rev produced))
        = exe :: rev produced).
Proof.
  intros Hmain Hcode.
  destruct (main_success E r Hmain Hcode) as (stub & Hstub & Hne & Hargc & Hbase & Hout & _).
  exists stub, (entries_for E 0 (length stub) (walk E)), (exe_entry E stub).
  repeat split; try done.
  - apply entries_for_paths.
  - apply relative_path_entry_for.
  - intros Hlen. apply manifest_in_small; [by apply manifest_wf | done].
Qed.

Lemma manifest_newest_first_witness :
  exists stub produced exe,
    loader_exe Scenario.packer_two = Some stub
    /\ out_exe {| exit_code := 0;
                  out_exe := Some (output Scenario.packer_two (lit "STUB"));
                  stdout := transcript Scenario.packer_two |}
       = Some (archive_of (body Scenario.packer_two stub) (exe :: rev produced))
    /\ map (fun e => cstr (relative_path e)) produced
       = map (fun w => cstr (w_relative w)) (walk Scenario.packer_two)
    /\ cstr (relative_path exe) = cstr (base_name (arg Scenario.packer_two 2))
    /\ (Z.of_nat (length (archive_of (body Scenario.packer_two stub) (exe :: rev produced)))
        <= LONG_MAX ->
        manifest_in (archive_of (body Scenario.packer_two stub) (exe :: rev produced))
        = exe :: rev produced).
Proof.
  apply (manifest_written_newest_first Scenario.packer_two); reflexivity.
Defined.

(** C8, as stated, fails: with [a.txt] and [b.txt] packed in that order and
    [Game.exe] last, the manifest in the archive lists [Game.exe], [b.txt],
    [a.txt]. *)
Lemma manifest_not_in_production_order :
  let E := Scenario.packer_two in
  let a := Scenario.out_of (main E) in
  map (fun e => cstr (relative_path e)) (manifest_in a)
  = [lit "Game.exe"; lit "b.txt"; lit "a.txt"]
  /\ map w_relative (walk E) ++ [base_name (arg E 2)]
     = [lit "a.txt"; lit "b.txt"; lit "Game.exe"]
  /\ map (fun e => cstr (relative_path e)) (manifest_in a)
     <> map w_relative (walk E) ++ [base_name (arg E 2)].
Proof.
  cbv zeta. split; [vm_compute; reflexivity |].
  split; [vm_compute; reflexivity |]. vm_compute. discriminate.
Qed.

(** C5 (as amended).  In every archive the packer produces exactly one
    manifest entry has [is_executable] set, the first one; its
    [relative_path] is the part of the main executable's path after the last
    backslash.  No other character is taken for a separator.  The entries
    are those of the manifest written to the file: sound entries of
    [sizeof_ManifestEntry] bytes each, and, in an archive of a length that
    fits a [long], what the footer's [manifest_offset] leads to. *)
Theorem one_executable_entry_after_last_backslash (E : env) (r : result) :
  main E = Returned r -> exit_code r = 0 ->
  exists stub exe rest dir,
    loader_exe E = Some stub
    /\ out_exe r = Some (archive_of (body E stub) (exe :: rest))
    /\ Forall entry_wf (exe :: rest)
    /\ (Z.of_nat (length (archive_of (body E stub) (exe :: rest))) <= LONG_MAX ->
        manifest_in (archive_of (body E stub) (exe :: rest)) = exe :: rest)
    /\ is_executable exe = "001"%char
    /\ Forall (fun e => is_executable e = Ascii.zero) rest
    /\ cstr (relative_path exe) = cstr (base_name (arg E 2))
    /\ arg E 2 = dir ++ base_name (arg E 2)
    /\ ~ In "\"%char (base_name (arg E 2))
    /\ (dir = [] \/ exists d, dir = d ++ ["\"%char]).
Proof.
  intros Hmain Hcode.
  destruct (main_success E r Hmain Hcode) as (stub & Hstub & Hne & Hargc & Hbase & Hout & _).
  destruct (base_name_spec (arg E 2)) as (dir & Hdir & Hno & Hend).
  pose proof (manifest_wf E stub Hbase) as Hwf.
  exists stub, (exe_entry E stub), (rev (entries_for E 0 (length stub) (walk E))), dir.
  split; [done |]. split; [done |]. split; [exact Hwf |].
  split; [intros Hlen; by apply manifest_in_small |].
  repeat split; try done.
  - apply is_executable_entry_for.
  - apply Forall_rev, entries_for_unflagged.
  - apply relative_path_entry_for.
Qed.

Lemma one_executable_entry_witness :
  exists stub exe rest dir,
    loader_exe Scenario.packer_A = Some stub
    /\ out_exe {| exit_code := 0;
                  out_exe := Some (output Scenario.packer_A (lit "STUB"));
                  stdout := transcript Scenario.packer_A |}
       = Some (archive_of (body Scenario.packer_A stub) (exe :: rest))
    /\ Forall entry_wf (exe :: rest)
    /\ (Z.of_nat (length (archive_of (body Scenario.packer_A stub) (exe :: rest)))
        <= LONG_MAX ->
        manifest_in (archive_of (body Scenario.packer_A stub) (exe :: rest))
        = exe :: rest)
    /\ is_executable exe = "001"%char
    /\ Forall (fun e => is_executable e = Ascii.zero) rest
    /\ cstr (relative_path exe) = cstr (base_name (arg Scenario.packer_A 2))
    /\ arg Scenario.packer_A 2 = dir ++ base_name (arg Scenario.packer_A 2)
    /\ ~ In "\"%char (base_name (arg Scenario.packer_A 2))
    /\ (dir = [] \/ exists d, dir = d ++ ["\"%char]).
Proof.
  apply (one_executable_entry_after_last_backslash Scenario.packer_A); reflexivity.
Defined.

(** C5, as stated, fails: for the main executable [build/Game.exe] the
    flagged entry records [build/Game.exe], not the base filename
    [Game.exe]. *)
Lemma executable_entry_keeps_slash_directory :
  let E := Scenario.packer_slash in
  let a := Scenario.out_of (main E) in
  exists e,
    manifest_in a = [e] /\ is_executable e = "001"%char
    /\ cstr (relative_path e) = lit "build/Game.exe"
    /\ base_filename (arg E 2) = lit "Game.exe"
    /\ cstr (relative_path e) <> base_filename (arg E 2).
Proof.
  cbv zeta. eexists. split; [vm_compute; reflexivity |].
  split; [reflexivity |]. split; [vm_compute; reflexivity |].
  split; [vm_compute; reflexivity |]. vm_compute. discriminate.
Qed.

Lemma entries_for_layout E ws n pos :
  Z.of_nat (pos + length (payloads ws)) <= LONG_MAX ->
  Forall2
    (fun w e =>
       size e = Z.of_nat (length (payload (w_data w)))
       /\ (w_data w <> None ->
           Z.of_nat pos <= offset e
           /\ offset e + size e <= Z.of_nat (pos + length (payloads ws))))
    ws (entries_for E n pos ws).
Proof.
  revert n pos. induction ws as [|w ws IH]; intros n pos Hlim; [constructor |].
  unfold payloads in *. cbn [map concat entries_for] in *.
  rewrite length_app in Hlim.
  constructor.
  - unfold entry_for. destruct (w_data w) as [b|]; cbn [size offset set_size set_offset payload length].
    + rewrite !to_u64_ftell_small by (cbn [payload] in Hlim; lia).
      split; [done |]. intros _. rewrite length_app. lia.
    + split; [done | done].
  - eapply Forall2_impl; [apply IH; lia |].
    intros w' e' (Hs & Hr). split; [done |]. intros Hd. specialize (Hr Hd).
    rewrite length_app. lia.
Qed.

Lemma total_size_app es1 es2 :
  total_size (es1 ++ es2) = total_size es1 + total_size es2.
Proof. induction es1 as [|e es1 IH]; simpl; [done | rewrite IH; lia]. Qed.

Lemma total_size_rev es : total_size (rev es) = total_size es.
Proof.
  induction es as [|e es IH]; [done |].
  cbn [rev]. rewrite total_size_app, IH. simpl. lia.
Qed.

Lemma total_size_payloads ws es :
  Forall2 (fun w e => size e = Z.of_nat (length (payload (w_data w)))) ws es ->
  total_size es = Z.of_nat (length (payloads ws)).
Proof.
  unfold payloads. induction 1 as [|w e ws es H _ IH]; [done |].
  cbn [total_size fold_right map concat]. fold (total_size es).
  rewrite length_app, IH, H. lia.
Qed.

End PackerClaims.

Section LayoutClaim.
Import C Layout Packer Walk.

(** C6 (as amended).  Every archive the packer produces whose length fits a
    [long] has this layout: the footer is the last 16 bytes and its magic
    decodes to the signature; [manifest_offset] is where [entry_count]
    starts, and [entry_count], the entries and the footer fill the rest of the
    file; the entry of every file that could be opened has its payload range
    after the loader stub and before [manifest_offset]; the lengths of the
    stub, the payloads, the manifest and the footer add up to the file
    length. *)
Theorem archive_layout (E : env) (r : result) (a : list ascii) :
  main E = Returned r -> exit_code r = 0 -> out_exe r = Some a ->
  Z.of_nat (length a) <= LONG_MAX ->
  exists stub produced exe,
    loader_exe E = Some stub
    /\ manifest_in a = exe :: rev produced
    /\ a = firstn (length a - sizeof_ArchiveFooter) a ++ footer_bytes (footer_in a)
    /\ cstr (magic (footer_in a)) = MAGIC_BYTES
    /\ 0 <= manifest_offset (footer_in a)
    /\ skipn (Z.to_nat (manifest_offset (footer_in a))) a
       = le_bytes 8 (Z.of_nat (length (manifest_in a)))
         ++ concat (map entry_bytes (manifest_in a))
         ++ footer_bytes (footer_in a)
    /\ Forall2
         (fun w e =>
            w_data w <> None ->
            in_payload_area (Z.of_nat (length stub))
              (manifest_offset (footer_in a)) e)
         (walk E) produced
    /\ (main_exe_file E <> None ->
        in_payload_area (Z.of_nat (length stub))
          (manifest_offset (footer_in a)) exe)
    /\ Z.of_nat (length stub) + total_size (manifest_in a)
       + Z.of_nat (8 + length (manifest_in a) * sizeof_ManifestEntry)
       + Z.of_nat sizeof_ArchiveFooter
       = Z.of_nat (length a).
Proof.
  intros Hmain Hcode Ha Hlen.
  destruct (main_success E r Hmain Hcode) as (stub & Hstub & Hne & Hargc & Hbase & Hout & _).
  rewrite Hout in Ha. injection Ha as <-.
  pose proof (manifest_wf E stub Hbase) as Hwf.
  unfold output in *.
  pose proof (length_archive_of (body E stub) (manifest E stub) Hwf) as Hl.
  assert (Hbody : Z.of_nat (length (body E stub)) <= LONG_MAX) by lia.
  assert (Hbl : length (body E stub)
                = (length stub + length (payloads (walk E))
                   + length (payload (main_exe_file E)))%nat).
  { unfold body. by rewrite !length_app. }
  pose proof (entries_for_layout E (walk E) 0 (length stub) ltac:(lia)) as Hlay.
  exists stub, (entries_for E 0 (length stub) (walk E)), (exe_entry E stub).
  rewrite manifest_in_small, footer_in_archive_of by done.
  cbn [manifest_offset magic].
  rewrite to_u64_ftell_small by done.
  split_and!.
  - done.
  - done.
  - rewrite Hl. unfold archive_of. rewrite !app_assoc.
    rewrite to_u64_ftell_small by done.
    rewrite firstn_app_exact; [done |].
    rewrite !length_app, length_le_bytes, length_concat_entry_bytes by done. lia.
  - done.
  - lia.
  - rewrite Nat2Z.id. unfold archive_of. rewrite skipn_app_exact by done.
    rewrite to_u64_ftell_small by done.
    do 2 f_equal. unfold to_u64. apply Z.mod_small.
    unfold LONG_MAX, sizeof_ManifestEntry, MAX_PATH in *. lia.
  - eapply Forall2_impl; [exact Hlay |].
    intros w e (Hs & Hr) Hd. destruct (Hr Hd) as (H1 & H2).
    unfold in_payload_area. split; lia.
  - intros Hd. unfold in_payload_area, exe_entry, entry_for.
    destruct (main_exe_file E) as [b|]; [| done].
    cbn [offset size set_size set_offset payload] in *.
    rewrite !to_u64_ftell_small by (rewrite ?length_app in *; lia).
    rewrite length_app. lia.
  - assert (Hts : total_size (manifest E stub)
                  = Z.of_nat (length (payloads (walk E)))
                    + Z.of_nat (length (payload (main_exe_file E)))).
    { unfold manifest. cbn [total_size fold_right].
      fold (total_size (rev (entries_for E 0 (length stub) (walk E)))).
      rewrite total_size_rev.
      rewrite (total_size_payloads (walk E)).
      2:{ eapply Forall2_impl; [exact Hlay |]. by intros w e (Hs & _). }
      assert (Hexe : size (exe_entry E stub)
                     = Z.of_nat (length (payload (main_exe_file E)))).
      { unfold exe_entry, entry_for. destruct (main_exe_file E) as [b|]; [| done].
        cbn [size set_size payload] in *. apply to_u64_ftell_small. lia. }
      rewrite Hexe. lia. }
    rewrite Hts, Hl. lia.
Qed.

Lemma archive_layout_witness :
  exists stub produced exe,
    loader_exe Scenario.packer_A = Some stub
    /\ manifest_in Scenario.archive_A = exe :: rev produced
    /\ Scenario.archive_A
       = firstn (length Scenario.archive_A - sizeof_ArchiveFooter) Scenario.archive_A
         ++ footer_bytes (footer_in Scenario.archive_A)
    /\ cstr (magic (footer_in Scenario.archive_A)) = MAGIC_BYTES
    /\ 0 <= manifest_offset (footer_in Scenario.archive_A)
    /\ skipn (Z.to_nat (manifest_offset (footer_in Scenario.archive_A))) Scenario.archive_A
       = le_bytes 8 (Z.of_nat (length (manifest_in Scenario.archive_A)))
         ++ concat (map entry_bytes (manifest_in Scenario.archive_A))
         ++ footer_bytes (footer_in Scenario.archive_A)
    /\ Forall2
         (fun w e =>
            w_data w <> None ->
            in_payload_area (Z.of_nat (length stub))
              (manifest_offset (footer_in Scenario.archive_A)) e)
         (walk Scenario.packer_A) produced
    /\ (main_exe_file Scenario.packer_A <> None ->
        in_payload_area (Z.of_nat (length stub))
          (manifest_offset (footer_in Scenario.archive_A)) exe)
    /\ Z.of_nat (length stub) + total_size (manifest_in Scenario.archive_A)
       + Z.of_nat (8 + length (manifest_in Scenario.archive_A) * sizeof_ManifestEntry)
       + Z.of_nat sizeof_ArchiveFooter
       = Z.of_nat (length Scenario.archive_A).
Proof.
  apply (archive_layout Scenario.packer_A
           {| exit_code := 0; out_exe := Some Scenario.archive_A;
              stdout := transcript Scenario.packer_A |});
    [reflexivity | reflexivity | reflexivity | vm_compute; discriminate].
Defined.

(** C6, as stated, fails: [save.dat] cannot be opened, its entry keeps the
    offset that was in the fresh node (0xCDCDCDCDCDCDCDCD here), and that is
    not before [manifest_offset] (11). *)
Lemma unopened_entry_outside_payload_area :
  let a := Scenario.out_of (main Scenario.packer_locked) in
  exists e,
    In e (manifest_in a)
    /\ cstr (relative_path e) = lit "save.dat"
    /\ manifest_offset (footer_in a) = 11
    /\ offset e = 14829735431805717965
    /\ ~ in_payload_area 4 (manifest_offset (footer_in a)) e.
Proof.
  cbv zeta.
  exists (nth 2 (manifest_in (Scenario.out_of (main Scenario.packer_locked)))
            (entry_of_bytes [])).
  split; [vm_compute; tauto |].
  split; [vm_compute; reflexivity |].
  split; [vm_compute; reflexivity |].
  split; [vm_compute; reflexivity |].
  unfold in_payload_area. intros [_ H]. vm_compute in H. by apply H.
Qed.

End LayoutClaim.

(** ** The separators the loop has rewritten *)

Section SeparatorFacts.
Import C Layout FS Loader Separators.

Lemma alike_refl s : alike s s.
Proof. unfold alike. induction s; constructor; [by left | done]. Qed.

Lemma alike_backslashed s : alike (backslashed s) s.
Proof.
  unfold alike. induction s as [|ch s IH]; [constructor |].
  cbn [backslashed map]. constructor; [| exact IH].
  destruct (Ascii.eqb_spec ch "/"%char) as [->|_]; [by right | by left].
Qed.

Lemma split_alike a b : alike a b -> split a = split b.
Proof.
  unfold alike. induction 1 as [|x y a b [->|[Hx Hy]] _ IH]; [done | |].
  - cbn [split]. by rewrite IH.
  - cbn [split]. by rewrite Hx, Hy, IH.
Qed.

Lemma resolve_alike a b : alike a b -> resolve a = resolve b.
Proof. intros H. unfold resolve. by rewrite (split_alike a b). Qed.

Lemma rewritten_path_alike E e : alike (rewritten_path E e) (out_path_of E e).
Proof.
  unfold rewritten_path, alike.
  rewrite <- (firstn_skipn (S (length (temp_dir E))) (out_path_of E e)) at 3.
  apply Forall2_app; [apply alike_refl | apply alike_backslashed].
Qed.

(** [fopen] finds the same file under the rewritten path. *)
Lemma fopen_wb_rewritten E e m :
  fopen_wb (rewritten_path E e) m = fopen_wb (out_path_of E e) m.
Proof. unfold fopen_wb. by rewrite (resolve_alike _ _ (rewritten_path_alike E e)). Qed.

(** A path without a forward slash is left as it is. *)
Lemma backslashed_id s : ~ In "/"%char s -> backslashed s = s.
Proof.
  induction s as [|ch s IH]; [done |]. intros Hn. cbn [backslashed map].
  destruct (Ascii.eqb_spec ch "/"%char) as [->|_]; [destruct Hn; by left |].
  f_equal. apply IH. intros H. apply Hn. by right.
Qed.

Lemma extract_entry_eq E st e :
  extract_entry E st e
  = match fopen_wb (out_path_of E e) (subdirectories E e (fs st)) with
    | None =>
        {| fs := subdirectories E e (fs st); f_self := f_self st;
           buffer := buffer st; main_exe_path := main_exe_path st |}
    | Some k =>
        let '(written, f, buf) :=
          copy_loop (S (Z.to_nat (size e / BUFFER_SIZE))) (size e)
            (fseek_set (to_long (offset e)) (f_self st)) (buffer st) [] in
        {| fs := <[k := FileN written]> (subdirectories E e (fs st));
           f_self := f; buffer := buf;
           main_exe_path :=
             if Ascii.eqb (is_executable e) Ascii.zero then main_exe_path st
             else rewritten_path E e |}
    end.
Proof. unfold extract_entry. by rewrite fopen_wb_rewritten. Qed.

End SeparatorFacts.

(** ** The loader *)

Section LoaderFacts.
Import C Layout FS Loader.

Lemma read_footer_eq E data :
  (sizeof_ArchiveFooter <= length data)%nat ->
  read_footer E data
  = (footer_in data, {| r_data := data; r_pos := length data |}).
Proof.
  intros Hlen. unfold read_footer, fseek_end, fread, footer_in.
  change (to_long (to_u64 (- Z.of_nat sizeof_ArchiveFooter))) with (-16).
  unfold sizeof_ArchiveFooter in *. cbn [r_data r_pos].
  destruct (Z.leb_spec 0 (Z.of_nat (length data) + -16)) as [_|]; [| lia].
  cbn [r_data r_pos].
  replace (Z.to_nat (Z.of_nat (length data) + -16)) with (length data - 16)%nat by lia.
  set (got := firstn _ _).
  assert (Hgot : got = skipn (length data - 16) data).
  { unfold got. apply firstn_all2. rewrite length_skipn. lia. }
  assert (Hl : length got = 16%nat) by (rewrite Hgot, length_skipn; lia).
  rewrite <- Hl at 1. rewrite load_overlay_all, Hgot. f_equal.
  f_equal. rewrite length_skipn. lia.
Qed.

Lemma accepts_iff E data :
  (sizeof_ArchiveFooter <= length data)%nat ->
  accepts E data = true <-> cstr (magic (footer_in data)) = MAGIC_BYTES.
Proof.
  intros Hlen. unfold accepts. rewrite read_footer_eq by done. cbn [fst].
  rewrite Z.eqb_eq, strcmp_0. reflexivity.
Qed.

(** The loader's run, case by case. *)
Lemma main_rejects E data :
  self E = Some data -> accepts E data = false ->
  main E = {| exit_code := 2; extracted := disk E; launched := None;
              final := disk E |}.
Proof. intros Hs Ha. unfold main. by rewrite Hs, Ha. Qed.

Lemma main_not_launched E data :
  self E = Some data -> accepts E data = true ->
  main_exe_path (extraction E data) = []
  \/ CreateProcessA E (main_exe_path (extraction E data)) (cmd_line E)
       (temp_dir E) (fs (extraction E data)) = None ->
  main E = {| exit_code := 1; extracted := fs (extraction E data);
              launched := None;
              final := cleanup E (fs (extraction E data)) |}.
Proof.
  intros Hs Ha Hno. unfold main. rewrite Hs, Ha. cbn [negb].
  destruct (main_exe_path (extraction E data)) as [|ch p] eqn:Hp; [done |].
  destruct Hno as [|Hno]; [done |]. cbn [length Nat.ltb Nat.leb].
  by rewrite Hno.
Qed.

Lemma main_launched E data code m' :
  self E = Some data -> accepts E data = true ->
  main_exe_path (extraction E data) <> [] ->
  CreateProcessA E (main_exe_path (extraction E data)) (cmd_line E)
    (temp_dir E) (fs (extraction E data)) = Some (code, m') ->
  main E = {| exit_code := to_int code; extracted := fs (extraction E data);
              launched := Some (main_exe_path (extraction E data),
                                cmd_line E, temp_dir E);
              final := cleanup E m' |}.
Proof.
  intros Hs Ha Hp Hc. unfold main. rewrite Hs, Ha. cbn [negb].
  destruct (main_exe_path (extraction E data)) as [|ch p] eqn:Hq; [done |].
  cbn [length Nat.ltb Nat.leb]. by rewrite Hc.
Qed.

(** An entry that is not flagged, or not opened, leaves [main_exe_path]. *)
Lemma extract_entry_unflagged E st e :
  is_executable e = Ascii.zero ->
  main_exe_path (extract_entry E st e) = main_exe_path st.
Proof.
  intros He. rewrite extract_entry_eq.
  destruct (fopen_wb _ _); [| done].
  destruct (copy_loop _ _ _ _ _) as [[w f] b]. cbn [main_exe_path].
  by rewrite He.
Qed.

Lemma extraction_unflagged E es st :
  Forall (fun e => is_executable e = Ascii.zero) es ->
  main_exe_path (fold_left (extract_entry E) es st) = main_exe_path st.
Proof.
  intros H. revert st. induction H as [|e es He _ IH]; intros st; [done |].
  cbn [fold_left]. by rewrite IH, extract_entry_unflagged.
Qed.

End LoaderFacts.

Section LoaderClaims.
Import C Layout FS Loader.

(** C3.  When the last 16 bytes of the running file do not hold the magic
    signature, the loader returns 2 and the file system is as it was: no
    temporary directory, no extracted file, no child. *)
Theorem bad_magic_exits_2_without_writes (E : env) (data : list ascii) :
  self E = Some data -> (sizeof_ArchiveFooter <= length data)%nat ->
  cstr (magic (footer_in data)) <> MAGIC_BYTES ->
  exit_code (main E) = 2
  /\ extracted (main E) = disk E
  /\ final (main E) = disk E
  /\ launched (main E) = None.
Proof.
  intros Hs Hlen Hm.
  rewrite (main_rejects E data); [cbn [launched exit_code final extracted]; done | done |].
  destruct (accepts E data) eqn:Ha; [| done].
  by apply accepts_iff in Ha.
Qed.


End LoaderClaims.

(** ** Paths and the file system *)

Section FSFacts.
Import C Layout FS Loader.

Lemma list_eqb_eq a b : list_eqb a b = true <-> a = b.
Proof. unfold list_eqb. apply bool_decide_eq_true. Qed.

Lemma split_nonempty s : split s <> [].
Proof.
  destruct s as [|ch s]; simpl; [done |].
  destruct (is_sep ch); [done |]. by destruct (split s).
Qed.

Lemma split_app_sep a ch b :
  is_sep ch = true -> split (a ++ ch :: b) = split a ++ split b.
Proof.
  intros Hch. induction a as [|x a IH]; simpl.
  - by rewrite Hch.
  - rewrite IH. destruct (is_sep x); [done |].
    pose proof (split_nonempty a). by destruct (split a).
Qed.

Lemma resolve_app_sep a ch b :
  is_sep ch = true ->
  resolve (a ++ ch :: b) = fold_left step (split b) (resolve a).
Proof. intros H. unfold resolve. by rewrite split_app_sep, fold_left_app. Qed.

Lemma step_prefix stack comp :
  comp <> lit ".." -> stack `prefix_of` step stack comp.
Proof.
  intros H. unfold step.
  destruct (list_eqb comp [] || list_eqb comp (lit ".")); [done |].
  destruct (list_eqb comp (lit "..")) eqn:Hd; [by apply list_eqb_eq in Hd |].
  by apply prefix_app_r.
Qed.

Lemma fold_step_prefix cs stack :
  Forall (fun c => c <> lit "..") cs ->
  stack `prefix_of` fold_left step cs stack.
Proof.
  intros H. revert stack. induction H as [|c cs Hc _ IH]; intros stack; [done |].
  cbn [fold_left]. etrans; [by apply step_prefix | apply IH].
Qed.

Lemma exists_at_false m k :
  exists_at m k = false -> k <> [] /\ m !! k = None.
Proof.
  unfold exists_at. destruct k as [|c k]; [done |].
  by destruct (m !! (c :: k)).
Qed.

Lemma CreateDirectoryA_keeps path m k v :
  m !! k = Some v -> CreateDirectoryA path m !! k = Some v.
Proof.
  intros H. unfold CreateDirectoryA, mkdir.
  destruct (is_dir m (parent (resolve path))); [| done].
  destruct (exists_at m (resolve path)) eqn:He; [done |].
  apply exists_at_false in He as [_ He]. cbn [andb negb].
  rewrite lookup_insert_ne; [done | congruence].
Qed.

Lemma CreateDirectoryA_changed path m k :
  CreateDirectoryA path m !! k <> m !! k ->
  k = resolve path /\ CreateDirectoryA path m !! k = Some DirN.
Proof.
  unfold CreateDirectoryA, mkdir.
  destruct (is_dir m (parent (resolve path)) && negb (exists_at m (resolve path)));
    [| done].
  destruct (decide (k = resolve path)) as [->|Hne].
  - by rewrite lookup_insert_eq.
  - by rewrite lookup_insert_ne.
Qed.

Lemma create_subdirectories_keeps rest :
  forall pre m k v,
    m !! k = Some v -> create_subdirectories pre rest m !! k = Some v.
Proof.
  induction rest as [|ch rest IH]; intros pre m k v H; [done |].
  cbn [create_subdirectories]. apply IH.
  destruct (is_sep ch); [by apply CreateDirectoryA_keeps | done].
Qed.

Lemma create_subdirectories_changed rest :
  forall pre m k,
    create_subdirectories pre rest m !! k <> m !! k ->
    create_subdirectories pre rest m !! k = Some DirN
    /\ exists r1 ch r2,
         rest = r1 ++ ch :: r2 /\ is_sep ch = true /\ k = resolve (pre ++ r1).
Proof.
  induction rest as [|ch rest IH]; intros pre m k H; [done |].
  cbn [create_subdirectories] in *.
  set (m' := if is_sep ch then CreateDirectoryA pre m else m) in *.
  destruct (decide (create_subdirectories (pre ++ [ch]) rest m' !! k = m' !! k))
    as [Heq|Hne].
  - assert (Hm : m' !! k <> m !! k) by congruence.
    unfold m' in *. destruct (is_sep ch) eqn:Hch; [| done].
    apply CreateDirectoryA_changed in Hm as [-> Hd]. split.
    + by apply create_subdirectories_keeps.
    + exists [], ch, rest. by rewrite app_nil_r.
  - destruct (IH _ _ _ Hne) as (Hd & r1 & c & r2 & -> & Hc & ->).
    split; [done |]. exists (ch :: r1), c, r2.
    by rewrite <- app_assoc.
Qed.

(** Files are neither created nor changed by the subdirectory loop. *)
Lemma create_subdirectories_files rest pre m k b :
  create_subdirectories pre rest m !! k = Some (FileN b)
  <-> m !! k = Some (FileN b).
Proof.
  split; [| apply create_subdirectories_keeps].
  intros H.
  destruct (decide (create_subdirectories pre rest m !! k = m !! k)) as [<-|Hne];
    [done |].
  apply create_subdirectories_changed in Hne as [Hd _]. congruence.
Qed.

Lemma snprintf_fits n text :
  (length text < n)%nat -> snprintf n text = text.
Proof. intros H. unfold snprintf. apply firstn_all2. lia. Qed.

Lemma subdirectories_eq E e m :
  (length (temp_dir E ++ lit "\" ++ cstr (relative_path e)) < MAX_PATH)%nat ->
  subdirectories E e m
  = create_subdirectories (temp_dir E ++ lit "\") (cstr (relative_path e)) m.
Proof.
  intros Hfit. unfold subdirectories, out_path_of.
  rewrite snprintf_fits by done.
  rewrite (app_assoc (temp_dir E)).
  rewrite firstn_app_exact, skipn_app_exact; [done | |];
    rewrite length_app; simpl; lia.
Qed.

End FSFacts.

Section ExtractionClaims.
Import C Layout FS Loader.

Lemma extract_entry_skipped E st e :
  fopen_wb (out_path_of E e) (subdirectories E e (fs st)) = None ->
  extract_entry E st e
  = {| fs := subdirectories E e (fs st); f_self := f_self st;
       buffer := buffer st; main_exe_path := main_exe_path st |}.
Proof. intros H. rewrite extract_entry_eq. by rewrite H. Qed.

(** C10.  An entry whose target cannot be opened for writing is skipped
    without a message: nothing is read from the archive, no file is created
    or changed, and [main_exe_path] stays as it was; the loop goes on with
    the entries that follow.  When the skipped entry is the only one flagged
    executable, no child is started, the loader returns 1, and the
    temporary directory is still cleaned up. *)
Theorem unopenable_target_is_skipped (E : env) (data : list ascii)
    (before after : list ManifestEntry) (e : ManifestEntry) :
  self E = Some data -> accepts E data = true ->
  (manifest_read E data).1 = before ++ e :: after ->
  let st := fold_left (extract_entry E) before (extraction_start E data) in
  let skipped :=
    {| fs := subdirectories E e (fs st); f_self := f_self st;
       buffer := buffer st; main_exe_path := main_exe_path st |} in
  fopen_wb (out_path_of E e) (subdirectories E e (fs st)) = None ->
  extract_entry E st e = skipped
  /\ (forall k b, fs skipped !! k = Some (FileN b) <-> fs st !! k = Some (FileN b))
  /\ extracted (main E) = fs (fold_left (extract_entry E) after skipped)
  /\ (Forall (fun e' => is_executable e' = Ascii.zero) (before ++ after) ->
      launched (main E) = None /\ exit_code (main E) = 1
      /\ final (main E) = cleanup E (extracted (main E))).
Proof.
  intros Hs Ha Hm st skipped Hopen.
  pose proof (extract_entry_skipped E st e Hopen) as Hskip. fold skipped in Hskip.
  assert (Hex : extraction E data = fold_left (extract_entry E) after skipped).
  { unfold extraction. rewrite Hm, fold_left_app. cbn [fold_left].
    fold st. by rewrite Hskip. }
  split_and!.
  - done.
  - intros k b. apply create_subdirectories_files.
  - rewrite <- Hex. unfold main. rewrite Hs, Ha. cbn [negb].
    destruct (0 <? length (main_exe_path (extraction E data)))%nat; [| done].
    by destruct (CreateProcessA E _ _ _ _) as [[code m']|].
  - intros Hun. apply Forall_app in Hun as [Hb Haf].
    assert (Hp : main_exe_path (extraction E data) = []).
    { rewrite Hex, extraction_unflagged by done. unfold skipped, st.
      cbn [main_exe_path]. by rewrite extraction_unflagged. }
    rewrite (main_not_launched E data); [| done | done | by left].
    cbn [launched exit_code final extracted]. done.
Qed.

Lemma unopenable_target_witness :
  let E := Scenario.loader_env Scenario.archive_blocked in
  let before := [Scenario.entry 4 1 Ascii.zero (lit "Game\x.txt")] in
  let e := Scenario.entry 5 1 "001"%char (lit "Game") in
  let st := fold_left (extract_entry E) before
              (extraction_start E Scenario.archive_blocked) in
  let skipped :=
    {| fs := subdirectories E e (fs st); f_self := f_self st;
       buffer := buffer st; main_exe_path := main_exe_path st |} in
  extract_entry E st e = skipped
  /\ (forall k b, fs skipped !! k = Some (FileN b) <-> fs st !! k = Some (FileN b))
  /\ extracted (main E) = fs (fold_left (extract_entry E) [] skipped)
  /\ (Forall (fun e' => is_executable e' = Ascii.zero) (before ++ []) ->
      launched (main E) = None /\ exit_code (main E) = 1
      /\ final (main E) = cleanup E (extracted (main E))).
Proof.
  apply (unopenable_target_is_skipped
           (Scenario.loader_env Scenario.archive_blocked)
           Scenario.archive_blocked
           [Scenario.entry 4 1 Ascii.zero (lit "Game\x.txt")] []
           (Scenario.entry 5 1 "001"%char (lit "Game")));
    [reflexivity | vm_compute; reflexivity | vm_compute; reflexivity
    | vm_compute; reflexivity].
Defined.

Lemma bad_magic_witness :
  let E := Scenario.loader_env Scenario.archive_D in
  exit_code (main E) = 2
  /\ extracted (main E) = disk E
  /\ final (main E) = disk E
  /\ launched (main E) = None.
Proof.
  apply (bad_magic_exits_2_without_writes
           (Scenario.loader_env Scenario.archive_D) Scenario.archive_D);
    [reflexivity | vm_compute; lia | vm_compute; discriminate].
Defined.




(** C2 (as amended).  The loader does not inspect [relative_path]; it opens
    [temp_dir\relative_path] as it stands.  What holds is this: an entry whose
    path has no [..] component, and is short enough not to be cut, changes
    the file system only at or below the extraction root. *)
Theorem entry_without_parent_segment_stays_inside (E : env) (st : state)
    (e : ManifestEntry) (k : key) :
  Forall (fun c => c <> lit "..") (split (cstr (relative_path e))) ->
  (length (temp_dir E ++ lit "\" ++ cstr (relative_path e)) < MAX_PATH)%nat ->
  fs (extract_entry E st e) !! k <> fs st !! k ->
  resolve (temp_dir E) `prefix_of` k.
Proof.
  intros Hseg Hfit Hk.
  assert (Hdirs : subdirectories E e (fs st) !! k <> fs st !! k ->
                  resolve (temp_dir E) `prefix_of` k).
  { rewrite subdirectories_eq by done. intros Hne.
    apply create_subdirectories_changed in Hne as (_ & r1 & ch & r2 & Hr & Hch & ->).
    rewrite <- app_assoc. cbn [lit list_ascii_of_string app].
    rewrite resolve_app_sep by done. apply fold_step_prefix.
    rewrite Hr, split_app_sep in Hseg by done.
    by apply Forall_app in Hseg as [? _]. }
  rewrite extract_entry_eq in Hk.
  destruct (fopen_wb (out_path_of E e) (subdirectories E e (fs st))) as [key|] eqn:Ho.
  - destruct (copy_loop _ _ _ _ _) as [[w f] b]. cbn [fs] in Hk.
    destruct (decide (k = key)) as [->|Hne].
    + unfold fopen_wb in Ho. destruct (_ && _); [| done]. injection Ho as <-.
      unfold out_path_of. rewrite snprintf_fits by done.
      cbn [lit list_ascii_of_string app].
      rewrite resolve_app_sep by done. by apply fold_step_prefix.
    + rewrite lookup_insert_ne in Hk by done. by apply Hdirs.
  - by apply Hdirs.
Qed.

Lemma entry_stays_inside_witness :
  let E := Scenario.loader_env Scenario.archive_blocked in
  resolve (temp_dir E) `prefix_of` (Scenario.root ++ [lit "Game"; lit "x.txt"]).
Proof.
  apply (entry_without_parent_segment_stays_inside
           (Scenario.loader_env Scenario.archive_blocked)
           (extraction_start (Scenario.loader_env Scenario.archive_blocked)
              Scenario.archive_blocked)
           (Scenario.entry 4 1 Ascii.zero (lit "Game\x.txt")));
    [vm_compute; repeat constructor; discriminate
    | vm_compute; lia
    | vm_compute; discriminate].
Defined.

(** C2, as stated, fails: the entry [..\..\evil.exe] of
    [Scenario.archive_B] is neither rejected nor clamped; with the
    extraction root [C:\Temp\d2e1.tmp] its 7 bytes end up in [C:\evil.exe],
    which is outside the root and still there after the cleanup. *)
Lemma parent_segments_escape_the_root :
  let E := Scenario.loader_env Scenario.archive_B in
  let r := main E in
  resolve (temp_dir E) = Scenario.root
  /\ map (fun e => cstr (relative_path e)) (manifest_in Scenario.archive_B)
     = [lit "..\..\evil.exe"]
  /\ disk E !! [lit "C:"; lit "evil.exe"] = None
  /\ extracted r !! [lit "C:"; lit "evil.exe"] = Some (FileN (lit "payload"))
  /\ inside Scenario.root [lit "C:"; lit "evil.exe"] = false
  /\ final r !! [lit "C:"; lit "evil.exe"] = Some (FileN (lit "payload")).
Proof.
  cbv zeta. split_and!; vm_compute; reflexivity.
Qed.

End ExtractionClaims.

(** ** Reading a packed archive back *)

Section ReadBack.
Import C Layout FS Loader Walk.

Lemma fread_exact n data pos chunk rest :
  skipn pos data = chunk ++ rest -> Z.of_nat (length chunk) = n ->
  (pos <= length data)%nat ->
  fread n {| r_data := data; r_pos := pos |}
  = (chunk, {| r_data := data; r_pos := (pos + length chunk)%nat |}).
Proof.
  intros Hs Hn Hpos. unfold fread. cbn [r_data r_pos].
  assert (Hl : length (skipn pos data) = (length chunk + length rest)%nat)
    by (by rewrite Hs, length_app).
  rewrite length_skipn in Hl.
  replace (Z.to_nat (Z.min n (Z.of_nat (length data) - Z.of_nat pos)))
    with (length chunk) by lia.
  rewrite Hs, firstn_app_exact by done. done.
Qed.

Lemma manifest_read_archive E body es :
  Forall entry_wf es ->
  Z.of_nat (length (archive_of body es)) <= LONG_MAX ->
  (manifest_read E (archive_of body es)).1 = es
  /\ r_data (manifest_read E (archive_of body es)).2 = archive_of body es.
Proof.
  intros Hwf Hlen.
  pose proof (length_archive_of body es Hwf) as Hl.
  assert (Hsmall : Z.of_nat (length body) <= LONG_MAX /\ Z.of_nat (length es) < 2 ^ 64).
  { unfold LONG_MAX, sizeof_ManifestEntry, MAX_PATH in *. lia. }
  destruct Hsmall as [Hbody Hcount].
  unfold manifest_read.
  rewrite read_footer_eq by (rewrite Hl; lia).
  rewrite footer_in_archive_of by done.
  unfold read_manifest. cbn [manifest_offset].
  rewrite to_u64_ftell_small by done.
  rewrite to_long_small by lia.
  unfold fseek_set. destruct (Z.leb_spec 0 (Z.of_nat (length body))) as [_|]; [| lia].
  cbn [r_data]. rewrite Nat2Z.id.
  set (count := le_bytes 8 (to_u64 (Z.of_nat (length es)))).
  set (table := concat (map entry_bytes es)).
  set (footer := footer_bytes {| manifest_offset := Z.of_nat (length body);
                                 magic := MAGIC_BYTES ++ [NUL] |}).
  assert (Ha : archive_of body es = body ++ count ++ table ++ footer).
  { unfold archive_of. by rewrite to_u64_ftell_small. }
  rewrite Ha.
  rewrite (fread_exact 8 _ (length body) count (table ++ footer)).
  2:{ by rewrite skipn_app_exact. }
  2:{ unfold count. by rewrite length_le_bytes. }
  2:{ rewrite length_app. lia. }
  assert (Hc : le_value (load (overlay count (stack_entry_count E)) 0 8)
               = Z.of_nat (length es)).
  { replace 8%nat with (length count) at 1 by apply length_le_bytes.
    rewrite load_overlay_all. unfold count.
    rewrite le_value_u64 by apply to_u64_range.
    unfold to_u64. apply Z.mod_small. lia. }
  rewrite Hc.
  assert (Ht : length table = (length es * sizeof_ManifestEntry)%nat)
    by (by apply length_concat_entry_bytes).
  rewrite (fread_exact _ _ (length body + length count) table footer).
  2:{ rewrite (app_assoc body). rewrite skipn_app_exact; [done | by rewrite length_app]. }
  all: assert (Hc8 : length count = 8%nat) by apply length_le_bytes.
  2:{ rewrite Ht. lia. }
  2:{ rewrite !length_app. lia. }
  cbn [fst snd r_data]. split; [| done].
  rewrite Nat2Z.id.
  rewrite <- (entries_read_back es [] [] Hwf) at 2.
  apply map_ext_in. intros i Hi. apply in_seq in Hi.
  unfold manifest_at. f_equal.
  rewrite load_overlay_slice.
  - cbn [length app Nat.add]. fold table. by rewrite app_nil_r.
  - rewrite Ht. nia.
Qed.

Lemma accepts_archive E body es :
  Forall entry_wf es -> accepts E (archive_of body es) = true.
Proof.
  intros Hwf. apply accepts_iff.
  - rewrite length_archive_of by done. lia.
  - rewrite footer_in_archive_of by done. reflexivity.
Qed.

End ReadBack.

(** ** Extraction of one entry *)

Section CopyFacts.
Import C Layout FS Loader Walk.

Lemma loader_BUFFER_SIZE_pos : 0 < Loader.BUFFER_SIZE.
Proof. reflexivity. Qed.

Lemma firstn_plus {A} a b (l : list A) :
  firstn (a + b) l = firstn a l ++ firstn b (skipn a l).
Proof.
  revert l. induction a as [|a IH]; intros [|x l]; simpl; try done.
  - by destruct b.
  - by rewrite IH.
Qed.

Lemma copy_loop_exact fuel :
  forall remaining data pos buf written,
    0 <= remaining <= Z.of_nat fuel * Loader.BUFFER_SIZE ->
    Z.of_nat pos + remaining <= Z.of_nat (length data) ->
    exists buf',
      copy_loop fuel remaining {| r_data := data; r_pos := pos |} buf written
      = (written ++ firstn (Z.to_nat remaining) (skipn pos data),
         {| r_data := data; r_pos := (pos + Z.to_nat remaining)%nat |}, buf').
Proof.
  pose proof loader_BUFFER_SIZE_pos as HB.
  induction fuel as [|fuel IH]; intros remaining data pos buf written Hrem Hav.
  - assert (remaining = 0) as -> by lia. exists buf. cbn [copy_loop].
    change (Z.to_nat 0) with 0%nat. cbn [firstn]. by rewrite app_nil_r, Nat.add_0_r.
  - cbn [copy_loop]. destruct (Z.ltb_spec 0 remaining) as [Hpos|Hz].
    2:{ assert (remaining = 0) as -> by lia. exists buf.
        change (Z.to_nat 0) with 0%nat. cbn [firstn]. by rewrite app_nil_r, Nat.add_0_r. }
    set (to_read := if Loader.BUFFER_SIZE <? remaining then Loader.BUFFER_SIZE else remaining).
    assert (Htr : 0 < to_read <= remaining /\ remaining - to_read <= Z.of_nat fuel * Loader.BUFFER_SIZE).
    { unfold to_read. destruct (Z.ltb_spec Loader.BUFFER_SIZE remaining); lia. }
    destruct Htr as [Htr Hnext].
    set (chunk := firstn (Z.to_nat to_read) (skipn pos data)).
    assert (Hchunk : length chunk = Z.to_nat to_read).
    { unfold chunk. rewrite length_firstn, length_skipn. lia. }
    rewrite (fread_exact to_read data pos chunk (skipn (Z.to_nat to_read) (skipn pos data)));
      [| unfold chunk; by rewrite firstn_skipn | lia | lia].
    cbv beta iota zeta.
    assert (Hload : load (overlay chunk buf) 0 (Z.to_nat to_read) = chunk)
      by (rewrite <- Hchunk; apply load_overlay_all).
    destruct (IH (remaining - to_read) data (pos + length chunk)%nat
                (overlay chunk buf) (written ++ chunk) ltac:(lia) ltac:(lia))
      as (buf' & Heq).
    exists buf'. rewrite Hload, Heq.
    f_equal. f_equal.
    + rewrite <- app_assoc. f_equal.
      replace (Z.to_nat remaining)
        with (Z.to_nat to_read + Z.to_nat (remaining - to_read))%nat by lia.
      rewrite firstn_plus. fold chunk. f_equal.
      rewrite skipn_skipn, Hchunk. do 2 f_equal. lia.
    + f_equal. lia.
Qed.

Lemma entries_for_slices E ws :
  forall n pos pre suf,
    length pre = pos ->
    Z.of_nat (pos + length (payloads ws)) <= LONG_MAX ->
    Forall2
      (fun w e =>
         forall b, w_data w = Some b ->
           exists p,
             offset e = Z.of_nat p /\ size e = Z.of_nat (length b)
             /\ Z.of_nat p <= LONG_MAX
             /\ (p + length b <= length (pre ++ payloads ws ++ suf))%nat
             /\ firstn (length b) (skipn p (pre ++ payloads ws ++ suf)) = b)
      ws (entries_for E n pos ws).
Proof.
  induction ws as [|w ws IH]; intros n pos pre suf Hpre Hlim; [constructor |].
  unfold payloads in *. cbn [map concat entries_for] in *.
  rewrite length_app in Hlim.
  constructor.
  - intros b Hb. exists pos. unfold entry_for. rewrite Hb in *.
    cbn [payload offset size set_size set_offset] in *.
    rewrite !to_u64_ftell_small by lia.
    split_and!; [done | done | lia | |].
    { rewrite !length_app. lia. }
    rewrite skipn_app_exact by done. rewrite <- app_assoc.
    by rewrite firstn_app_exact.
  - specialize (IH (S n) (pos + length (payload (w_data w)))%nat
                  (pre ++ payload (w_data w)) suf).
    rewrite <- !app_assoc in IH. rewrite <- !app_assoc.
    apply IH; [rewrite length_app; lia | lia].
Qed.

End CopyFacts.

(** ** From path strings to canonical paths *)

Section PathFacts.
Import C Layout FS Loader Walk.

Lemma valid_name_spec n :
  valid_name n = true ->
  n <> [] /\ n <> lit "." /\ n <> lit ".."
  /\ Forall (fun ch => is_sep ch = false /\ ch <> NUL) n.
Proof.
  unfold valid_name. rewrite !andb_true_iff, !negb_true_iff.
  intros [[[H1 H2] H3] H4]. split_and!.
  - intros ->. by rewrite (proj2 (list_eqb_eq [] [])) in H1.
  - intros ->. by rewrite (proj2 (list_eqb_eq _ _) eq_refl) in H2.
  - intros ->. by rewrite (proj2 (list_eqb_eq _ _) eq_refl) in H3.
  - apply List.Forall_forall. intros ch Hin.
    rewrite forallb_forall in H4. specialize (H4 ch Hin).
    rewrite andb_true_iff, !negb_true_iff in H4. destruct H4 as [Hs Hn].
    split; [done |]. intros ->. by rewrite Ascii.eqb_refl in Hn.
Qed.

Lemma list_eqb_false a b : a <> b -> list_eqb a b = false.
Proof. intros H. unfold list_eqb. by apply bool_decide_eq_false. Qed.

Lemma split_name n :
  Forall (fun ch => is_sep ch = false /\ ch <> NUL) n -> split n = [n].
Proof.
  induction 1 as [|ch n [Hch _] _ IH]; [done |].
  cbn [split]. by rewrite Hch, IH.
Qed.

Lemma step_valid stack n :
  valid_name n = true -> step stack n = stack ++ [n].
Proof.
  intros (H1 & H2 & H3 & _)%valid_name_spec. unfold step.
  by rewrite !list_eqb_false.
Qed.

Lemma valid_name_no_nul n : valid_name n = true -> no_nul n.
Proof.
  intros (_ & _ & _ & H)%valid_name_spec.
  eapply Forall_impl; [exact H |]. by intros ch [_ ?].
Qed.

Lemma join_cons k ks :
  ks <> [] -> join (k :: ks) = k ++ "\"%char :: join ks.
Proof. by destruct ks. Qed.

Lemma join_no_nul ks : Forall (fun k => valid_name k = true) ks -> no_nul (join ks).
Proof.
  induction 1 as [|k ks Hk _ IH]; [constructor |].
  destruct ks as [|k' ks]; [by apply valid_name_no_nul |].
  rewrite join_cons by done. apply Forall_app. split; [by apply valid_name_no_nul |].
  constructor; [done | exact IH].
Qed.

Lemma opens_temp_dir T : opens (T ++ lit "\") (resolve T).
Proof.
  intros n tail Hn. rewrite <- app_assoc. cbn [lit list_ascii_of_string app].
  by rewrite resolve_app_sep.
Qed.

Lemma split_name_sep n tail :
  valid_name n = true ->
  split (n ++ "\"%char :: tail) = n :: split tail.
Proof.
  intros (_ & _ & _ & H)%valid_name_spec.
  rewrite split_app_sep by done. by rewrite split_name.
Qed.

Lemma opens_next pre stack k :
  opens pre stack -> valid_name k = true ->
  opens (pre ++ k ++ ["\"%char]) (stack ++ [k]).
Proof.
  intros Ho Hk n tail Hn.
  replace ((pre ++ k ++ ["\"%char]) ++ n ++ tail)
    with (pre ++ k ++ "\"%char :: n ++ tail)
    by (by rewrite <- !app_assoc).
  rewrite Ho by done. rewrite split_name_sep by done.
  cbn [fold_left]. by rewrite step_valid.
Qed.

Lemma opens_name pre stack k :
  opens pre stack -> valid_name k = true ->
  resolve (pre ++ k) = stack ++ [k].
Proof.
  intros Ho Hk. specialize (Ho k [] Hk). rewrite !app_nil_r in Ho.
  rewrite Ho, split_name; [by apply step_valid |].
  by apply valid_name_spec in Hk as (_ & _ & _ & ?).
Qed.

Lemma resolve_join ks :
  forall pre stack,
    opens pre stack -> Forall (fun k => valid_name k = true) ks -> ks <> [] ->
    resolve (pre ++ join ks) = stack ++ ks.
Proof.
  induction ks as [|k ks IH]; intros pre stack Ho Hv Hne; [done |].
  apply Forall_cons in Hv as [Hk Hv].
  destruct ks as [|k' ks]; [by apply opens_name |].
  rewrite join_cons by done.
  replace (pre ++ k ++ "\"%char :: join (k' :: ks))
    with ((pre ++ k ++ ["\"%char]) ++ join (k' :: ks))
    by (by rewrite <- !app_assoc).
  rewrite (IH _ (stack ++ [k])); [by rewrite <- app_assoc | | done | done].
  by apply opens_next.
Qed.

Lemma create_subdirectories_app a :
  forall pre b m,
    create_subdirectories pre (a ++ b) m
    = create_subdirectories (pre ++ a) b (create_subdirectories pre a m).
Proof.
  induction a as [|ch a IH]; intros pre b m.
  - by rewrite app_nil_r.
  - cbn [app create_subdirectories]. rewrite IH. by rewrite <- app_assoc.
Qed.

Lemma create_subdirectories_name n :
  forall pre m,
    Forall (fun ch => is_sep ch = false /\ ch <> NUL) n ->
    create_subdirectories pre n m = m.
Proof.
  induction n as [|ch n IH]; intros pre m Hn; [done |].
  apply Forall_cons in Hn as [[Hch _] Hn].
  cbn [create_subdirectories]. rewrite Hch. by apply IH.
Qed.

(** On a path made of valid names the subdirectory loop creates the
    directories on the way, from the top down. *)
Lemma create_subdirectories_join ks :
  forall pre stack m,
    opens pre stack -> Forall (fun k => valid_name k = true) ks ->
    create_subdirectories pre (join ks) m = mkdirs stack ks m.
Proof.
  induction ks as [|k ks IH]; intros pre stack m Ho Hv; [done |].
  apply Forall_cons in Hv as [Hk Hv].
  pose proof (valid_name_spec k Hk) as (_ & _ & _ & Hchars).
  destruct ks as [|k' ks]; [by apply create_subdirectories_name |].
  rewrite join_cons by done. cbn [mkdirs].
  rewrite create_subdirectories_app, (create_subdirectories_name k) by done.
  cbn [create_subdirectories]. change (is_sep "\"%char) with true. cbv iota.
  unfold CreateDirectoryA. rewrite (opens_name pre stack k) by done.
  rewrite <- app_assoc. apply IH; [by apply opens_next | done].
Qed.

End PathFacts.

(** ** Files and directories below the extraction root *)

Section TreeFacts.
Import C Layout FS Loader Walk.

Lemma parent_snoc (k : key) c : parent (k ++ [c]) = k.
Proof. apply removelast_last. Qed.

Lemma parent_app (r ks : key) : ks <> [] -> parent (r ++ ks) = r ++ parent ks.
Proof. intros H. by apply removelast_app. Qed.

Lemma mkdir_keeps q m k v : m !! k = Some v -> mkdir q m !! k = Some v.
Proof.
  intros H. unfold mkdir.
  destruct (is_dir m (parent q)); [| done].
  destruct (exists_at m q) eqn:He; [done |].
  apply exists_at_false in He as [_ He]. cbn [andb negb].
  rewrite lookup_insert_ne; [done | congruence].
Qed.

Lemma mkdir_changed q m k :
  mkdir q m !! k <> m !! k -> k = q /\ mkdir q m !! k = Some DirN.
Proof.
  unfold mkdir. destruct (is_dir m (parent q) && negb (exists_at m q)); [| done].
  destruct (decide (k = q)) as [->|Hne].
  - by rewrite lookup_insert_eq.
  - by rewrite lookup_insert_ne.
Qed.

Lemma mkdir_dir q m :
  is_dir m (parent q) = true -> (forall b, m !! q <> Some (FileN b)) ->
  is_dir (mkdir q m) q = true.
Proof.
  intros Hp Hf. unfold mkdir. rewrite Hp. cbn [andb].
  destruct q as [|c q]; [done |].
  unfold exists_at, is_dir.
  destruct (m !! (c :: q)) as [[b|]|] eqn:Hq; cbn [negb].
  - by destruct (Hf b).
  - by rewrite Hq.
  - by rewrite lookup_insert_eq.
Qed.

Lemma mkdirs_spec ks :
  forall stack m,
    is_dir m stack = true ->
    (forall j b, (0 < j < length ks)%nat ->
       m !! (stack ++ firstn j ks) <> Some (FileN b)) ->
    is_dir (mkdirs stack ks m) (stack ++ parent ks) = true
    /\ (forall k v, m !! k = Some v -> mkdirs stack ks m !! k = Some v)
    /\ (forall k, mkdirs stack ks m !! k <> m !! k ->
          mkdirs stack ks m !! k = Some DirN
          /\ exists j, (0 < j < length ks)%nat /\ k = stack ++ firstn j ks).
Proof.
  induction ks as [|c ks IH]; intros stack m Hd Hf.
  - cbn [mkdirs parent removelast]. by rewrite app_nil_r.
  - destruct ks as [|c' ks].
    { cbn [mkdirs parent removelast]. by rewrite app_nil_r. }
    change (mkdirs stack (c :: c' :: ks) m)
      with (mkdirs (stack ++ [c]) (c' :: ks) (mkdir (stack ++ [c]) m)).
    set (m1 := mkdir (stack ++ [c]) m).
    assert (Hd1 : is_dir m1 (stack ++ [c]) = true).
    { apply mkdir_dir; [by rewrite parent_snoc |].
      intros b. apply (Hf 1%nat b). cbn [length]. lia. }
    assert (Hf1 : forall j b, (0 < j < length (c' :: ks))%nat ->
              m1 !! ((stack ++ [c]) ++ firstn j (c' :: ks)) <> Some (FileN b)).
    { intros j b Hj Hm1. rewrite <- app_assoc in Hm1.
      change ([c] ++ firstn j (c' :: ks)) with (firstn (S j) (c :: c' :: ks)) in Hm1.
      destruct (decide (m1 !! (stack ++ firstn (S j) (c :: c' :: ks))
                        = m !! (stack ++ firstn (S j) (c :: c' :: ks)))) as [Heq|Hne].
      - rewrite Heq in Hm1. apply (Hf (S j) b); [cbn [length] in *; lia | done].
      - apply mkdir_changed in Hne as [_ Hne]. fold m1 in Hne.
        rewrite Hm1 in Hne. discriminate. }
    destruct (IH (stack ++ [c]) m1 Hd1 Hf1) as (Hdir & Hkeep & Hchg).
    split_and!.
    + change (parent (c :: c' :: ks)) with (c :: parent (c' :: ks)).
      by rewrite <- app_assoc in Hdir.
    + intros k v Hk. apply Hkeep. by apply mkdir_keeps.
    + intros k Hk.
      destruct (decide (mkdirs (stack ++ [c]) (c' :: ks) m1 !! k = m1 !! k)) as [Heq|Hne].
      * assert (Hm : m1 !! k <> m !! k) by (by rewrite <- Heq).
        apply mkdir_changed in Hm as [-> Hm]. fold m1 in Hm.
        split; [by rewrite Heq |]. exists 1%nat. cbn [length firstn]. split; [lia | done].
      * destruct (Hchg k Hne) as (Hv & j & Hj & ->). split; [done |].
        exists (S j). split; [cbn [length] in *; lia |].
        by rewrite <- app_assoc.
Qed.

Lemma above_firstn (ks : key) j :
  (0 < j < length ks)%nat -> above (firstn j ks) ks.
Proof.
  intros Hj. rewrite <- (firstn_skipn j ks) at 2.
  destruct (skipn j ks) as [|c cs] eqn:Hs.
  - assert (Hl : length (skipn j ks) = 0%nat) by (by rewrite Hs).
    rewrite length_skipn in Hl. lia.
  - by exists c, cs.
Qed.

Lemma above_irrefl (a : key) : ~ above a a.
Proof.
  intros (c & cs & H). apply (f_equal length) in H.
  rewrite length_app in H. cbn [length] in H. lia.
Qed.

(** One file put in place: the directories on its way are created and it
    can be opened, as long as no file stands where a directory is needed and
    no directory stands where the file goes. *)
Lemma tidy_put root used m ks content :
  tidy root used m -> ks <> [] ->
  (forall s, In s used -> ~ above s ks) ->
  (forall s, In s used -> ~ above ks s) ->
  is_dir (mkdirs root ks m) (parent (root ++ ks)) = true
  /\ is_dir (mkdirs root ks m) (root ++ ks) = false
  /\ tidy root (ks :: used) (<[root ++ ks := FileN content]> (mkdirs root ks m)).
Proof.
  intros (Hroot & Hbelow) Hne Hup Hdown.
  assert (Hf : forall j b, (0 < j < length ks)%nat ->
            m !! (root ++ firstn j ks) <> Some (FileN b)).
  { intros j b Hj Hm.
    destruct (firstn j ks) as [|c cs] eqn:Hfj.
    { assert (Hl : length (firstn j ks) = 0%nat) by (by rewrite Hfj).
      rewrite length_firstn in Hl. lia. }
    specialize (Hbelow c cs). rewrite Hm in Hbelow.
    apply (Hup _ Hbelow). rewrite <- Hfj. by apply above_firstn. }
  destruct (mkdirs_spec ks root m Hroot Hf) as (Hdir & Hkeep & Hchg).
  assert (Hnew : forall k, mkdirs root ks m !! (root ++ k) <> m !! (root ++ k) ->
            mkdirs root ks m !! (root ++ k) = Some DirN /\ above k ks).
  { intros k Hk. destruct (Hchg _ Hk) as (Hv & j & Hj & Heq).
    apply app_inv_head in Heq as ->. split; [done | by apply above_firstn]. }
  assert (Hks : root ++ ks <> []) by (by destruct root, ks).
  split_and!.
  - by rewrite parent_app.
  - destruct (root ++ ks) as [|c0 k0] eqn:Hrk; [done |]. cbn [is_dir].
    rewrite <- Hrk.
    destruct (mkdirs root ks m !! (root ++ ks)) as [[b|]|] eqn:Hm; [done | | done].
    exfalso.
    destruct (decide (mkdirs root ks m !! (root ++ ks) = m !! (root ++ ks))) as [Heq|Hd].
    + rewrite Hm in Heq. destruct ks as [|c cs]; [done |].
      specialize (Hbelow c cs). rewrite <- Heq in Hbelow.
      destruct Hbelow as (s & Hs & Hab). by apply (Hdown s Hs).
    + apply Hnew in Hd as [_ Hab]. by apply above_irrefl in Hab.
  - split.
    + destruct root as [|r0 root']; [done |]. cbn [is_dir] in *.
      rewrite lookup_insert_ne.
      2:{ intros H. apply (f_equal length) in H. rewrite length_app in H.
          destruct ks; [done |]. cbn [length] in H. lia. }
      destruct (m !! (r0 :: root')) as [[b|]|] eqn:Hm; [done | | done].
      by rewrite (Hkeep _ _ Hm).
    + intros c cs.
      destruct (decide (c :: cs = ks)) as [<-|Hother].
      * rewrite lookup_insert_eq. by left.
      * rewrite lookup_insert_ne by (intros H; by apply app_inv_head in H).
        destruct (decide (mkdirs root ks m !! (root ++ c :: cs)
                          = m !! (root ++ c :: cs))) as [Heq|Hd].
        -- rewrite Heq. specialize (Hbelow c cs).
           destruct (m !! (root ++ c :: cs)) as [[b|]|]; [by right | | done].
           destruct Hbelow as (s & Hs & Hab). exists s. split; [by right | done].
        -- apply Hnew in Hd as [-> Hab]. exists ks. split; [by left | done].
Qed.

End TreeFacts.

(** ** The extraction loop on a well-formed manifest *)

Section ExtractionFacts.
Import C Layout FS Loader Walk.

Lemma copy_loop_data fuel :
  forall remaining f buf written,
    r_data (copy_loop fuel remaining f buf written).1.2 = r_data f.
Proof.
  induction fuel as [|fuel IH]; intros remaining f buf written; [done |].
  cbn [copy_loop]. destruct (0 <? remaining); [| done].
  unfold fread. cbv beta iota zeta. by rewrite IH.
Qed.

Lemma extract_entry_data E st e :
  r_data (f_self (extract_entry E st e)) = r_data (f_self st).
Proof.
  rewrite extract_entry_eq. destruct (fopen_wb _ _); [| done].
  pose proof (copy_loop_data (S (Z.to_nat (size e / Loader.BUFFER_SIZE))) (size e)
                (fseek_set (to_long (offset e)) (f_self st)) (buffer st) []) as H.
  destruct (copy_loop _ _ _ _ _) as [[w f] b]. cbn [f_self fst snd] in *.
  rewrite H. unfold fseek_set. by destruct (0 <=? _).
Qed.

Lemma extraction_data E es st :
  r_data (f_self (fold_left (extract_entry E) es st)) = r_data (f_self st).
Proof.
  revert st. induction es as [|e es IH]; intros st; [done |].
  cbn [fold_left]. by rewrite IH, extract_entry_data.
Qed.

(** An entry leaves alone everything but its own target. *)
Lemma extract_entry_frame E st e q v :
  fs st !! q = Some v -> q <> resolve (out_path_of E e) ->
  fs (extract_entry E st e) !! q = Some v.
Proof.
  intros Hq Hne. rewrite extract_entry_eq.
  assert (Hsub : subdirectories E e (fs st) !! q = Some v)
    by (by apply create_subdirectories_keeps).
  destruct (fopen_wb (out_path_of E e) (subdirectories E e (fs st))) as [k|] eqn:Ho;
    [| done].
  destruct (copy_loop _ _ _ _ _) as [[w f] b]. cbn [fs].
  unfold fopen_wb in Ho. destruct (_ && _); [| done]. injection Ho as <-.
  by rewrite lookup_insert_ne.
Qed.

Lemma extraction_frame E es st q v :
  fs st !! q = Some v ->
  Forall (fun e => q <> resolve (out_path_of E e)) es ->
  fs (fold_left (extract_entry E) es st) !! q = Some v.
Proof.
  intros Hq H. revert st Hq. induction H as [|e es He _ IH]; intros st Hq; [done |].
  cbn [fold_left]. apply IH. by apply extract_entry_frame.
Qed.

Lemma names_target E e ks :
  names E e ks ->
  resolve (out_path_of E e) = resolve (temp_dir E) ++ ks
  /\ forall m, subdirectories E e m = mkdirs (resolve (temp_dir E)) ks m.
Proof.
  intros (Hp & Hv & Hne & Hfit). split.
  - unfold out_path_of. rewrite Hp, snprintf_fits by done.
    rewrite app_assoc. apply resolve_join; [apply opens_temp_dir | done | done].
  - intros m. rewrite subdirectories_eq by (by rewrite Hp). rewrite Hp.
    apply create_subdirectories_join; [apply opens_temp_dir | done].
Qed.

Lemma extract_entry_put E st e ks used :
  names E e ks ->
  tidy (resolve (temp_dir E)) used (fs st) ->
  (forall s, In s used -> ~ above s ks) ->
  (forall s, In s used -> ~ above ks s) ->
  exists written f buf,
    copy_loop (S (Z.to_nat (size e / Loader.BUFFER_SIZE))) (size e)
      (fseek_set (to_long (offset e)) (f_self st)) (buffer st) []
    = (written, f, buf)
    /\ fs (extract_entry E st e) !! (resolve (temp_dir E) ++ ks)
       = Some (FileN written)
    /\ tidy (resolve (temp_dir E)) (ks :: used) (fs (extract_entry E st e)).
Proof.
  intros Hn Ht Hup Hdown.
  destruct (names_target E e ks Hn) as (Hres & Hsub).
  destruct Hn as (_ & _ & Hne & _).
  destruct (copy_loop (S (Z.to_nat (size e / Loader.BUFFER_SIZE))) (size e)
              (fseek_set (to_long (offset e)) (f_self st)) (buffer st) [])
    as [[written f] buf] eqn:Hcopy.
  exists written, f, buf. split; [done |].
  destruct (tidy_put _ used (fs st) ks written Ht Hne Hup Hdown) as (Hp & Hd & Ht').
  rewrite extract_entry_eq. rewrite Hsub. unfold fopen_wb. rewrite Hres, Hp, Hd.
  cbn [andb negb]. rewrite Hcopy. cbn [fs].
  split; [by rewrite lookup_insert_eq | done].
Qed.

Lemma extraction_tidy E all :
  (forall a b, In a all -> In b all -> ~ above a b) ->
  forall items st used,
    Forall (fun ke => names E ke.2 ke.1 /\ In ke.1 all) items ->
    (forall s, In s used -> In s all) ->
    tidy (resolve (temp_dir E)) used (fs st) ->
    exists used',
      (forall s, In s used' -> In s all)
      /\ tidy (resolve (temp_dir E)) used'
           (fs (fold_left (extract_entry E) (map snd items) st)).
Proof.
  intros Hfree items. induction items as [|[ks e] items IH]; intros st used Hit Hused Ht.
  - exists used. by split.
  - apply Forall_cons in Hit as [[Hn Hin] Hit]. cbn [fst snd] in *.
    cbn [map fold_left snd].
    destruct (extract_entry_put E st e ks used Hn Ht) as (w & f & b & _ & _ & Ht').
    + intros s Hs. apply Hfree; [by apply Hused | done].
    + intros s Hs. apply Hfree; [done | by apply Hused].
    + apply (IH _ (ks :: used)); [done | | done].
      intros s [<-|Hs]; [done | by apply Hused].
Qed.

Lemma extracted_eq E data :
  self E = Some data -> accepts E data = true ->
  extracted (main E) = fs (extraction E data).
Proof.
  intros Hs Ha. unfold main. rewrite Hs, Ha. cbn [negb].
  destruct (0 <? length (main_exe_path (extraction E data)))%nat; [| done].
  by destruct (CreateProcessA E _ _ _ _) as [[code m']|].
Qed.

Lemma fresh_below_spec root m k :
  fresh_below root m = true -> root `prefix_of` k -> m !! k = None.
Proof.
  unfold fresh_below. rewrite forallb_forall. intros H Hk.
  destruct (m !! k) as [v|] eqn:Hm; [| done].
  apply elem_of_map_to_list in Hm. apply list_elem_of_In in Hm.
  specialize (H _ Hm). cbn [fst] in H. unfold inside in H.
  by rewrite bool_decide_eq_true_2 in H.
Qed.

Lemma create_temp_dir_fresh E :
  resolve (temp_dir E) <> [] ->
  is_dir (disk E) (parent (resolve (temp_dir E))) = true ->
  fresh_below (resolve (temp_dir E)) (disk E) = true ->
  tidy (resolve (temp_dir E)) [] (create_temp_dir E (disk E)).
Proof.
  intros Hne Hp Hfresh.
  set (R := resolve (temp_dir E)) in *.
  assert (HR : disk E !! R = None) by (by apply (fresh_below_spec R)).
  assert (Hc : create_temp_dir E (disk E) = <[R := DirN]> (disk E)).
  { unfold create_temp_dir, fopen_wb, DeleteFileA, CreateDirectoryA, mkdir. fold R.
    assert (Hd : is_dir (disk E) R = false).
    { unfold is_dir. destruct R; [done |]. by rewrite HR. }
    rewrite Hp, Hd. cbn [andb negb]. rewrite lookup_insert_eq.
    rewrite delete_insert_id by done.
    rewrite Hp. unfold exists_at. destruct R; [done |]. by rewrite HR. }
  rewrite Hc. split.
  - unfold is_dir. destruct R; [done |]. by rewrite lookup_insert_eq.
  - intros c cs. rewrite lookup_insert_ne.
    2:{ intros H. apply (f_equal length) in H. rewrite length_app in H.
        cbn [length] in H. lia. }
    rewrite (fresh_below_spec R); [done | done |]. by apply prefix_app_r.
Qed.

End ExtractionFacts.

(** ** Directory listings *)

Section ListingFacts.
Import C Layout FS Packer Walk.

Lemma dirent_induction (P : dirent -> Prop) :
  (forall n b o, P (FileEnt n b o)) ->
  (forall n sub, Forall P sub -> P (DirEnt n sub)) ->
  forall ent, P ent.
Proof.
  intros Hfile Hdir. fix IH 1. intros [n b o | n sub]; [apply Hfile |].
  apply Hdir. induction sub as [|e sub IHsub]; constructor; [apply IH | apply IHsub].
Qed.

Lemma walked_entry_dir cut base cur n sub :
  walked_entry cut base cur (DirEnt n sub)
  = if is_dot n then []
    else walked_files cut base
           (snprintf MAX_PATH
              (cur ++ (if (0 <? length cur)%nat then lit "\" else []) ++ n))
           sub.
Proof.
  cbn [walked_entry]. destruct (is_dot n); [done |].
  induction sub as [|e sub IH]; [done |]. cbn [walked_files]. by rewrite IH.
Qed.

Lemma tree_entry_dir n sub :
  tree_entry (DirEnt n sub)
  = if is_dot n then []
    else map (fun kd => (n :: kd.1, kd.2)) (tree_files sub).
Proof.
  cbn [tree_entry name_of]. by destruct (is_dot n).
Qed.

Lemma wf_entry_dir n sub :
  wf_entry (DirEnt n sub)
  = (is_dot n || valid_name n) && wf_listing sub.
Proof.
  cbn [wf_entry name_of]. unfold wf_listing. reflexivity.
Qed.

Lemma wf_listing_cons e more :
  wf_listing (e :: more) = true ->
  wf_entry e = true /\ wf_listing more = true
  /\ ~ In (name_of e) (map name_of more).
Proof.
  unfold wf_listing. cbn [forallb map].
  rewrite !andb_true_iff, !bool_decide_eq_true.
  intros [[He Hmore] Hnd]. apply NoDup_cons in Hnd as [Hnotin Hnd].
  split_and!; try done. by rewrite <- list_elem_of_In.
Qed.

(** Every file of a listing has a path of valid names that starts with the
    name of the entry it is found under. *)
Lemma tree_entry_paths :
  forall ent, wf_entry ent = true ->
    Forall (fun kd => Forall (fun k => valid_name k = true) kd.1
                      /\ exists rest, kd.1 = name_of ent :: rest)
      (tree_entry ent).
Proof.
  induction ent as [n b o | n sub IH] using dirent_induction; intros Hwf.
  - cbn [tree_entry name_of]. destruct (is_dot n) eqn:Hdot; [constructor |].
    cbn [wf_entry name_of] in Hwf. rewrite Hdot in Hwf.
    rewrite andb_true_r in Hwf. cbn [orb] in Hwf.
    constructor; [| constructor]. cbn [fst]. split; [by constructor | by exists []].
  - rewrite tree_entry_dir. rewrite wf_entry_dir in Hwf.
    destruct (is_dot n) eqn:Hdot; [constructor |]. cbn [orb] in Hwf.
    apply andb_true_iff in Hwf as [Hn Hsub]. cbn [name_of].
    apply Forall_map.
    induction sub as [|e sub IHsub]; [constructor |].
    apply wf_listing_cons in Hsub as (He & Hmore & _).
    apply Forall_cons in IH as [IHe IH].
    cbn [tree_files]. apply Forall_app. split; [| by apply IHsub].
    eapply Forall_impl; [by apply IHe |].
    intros [ks d] [Hv _]. cbn [fst] in *. split; [by constructor | by exists ks].
Qed.

Lemma tree_files_paths entries :
  wf_listing entries = true ->
  Forall (fun kd => Forall (fun k => valid_name k = true) kd.1 /\ kd.1 <> [])
    (tree_files entries).
Proof.
  induction entries as [|e more IH]; intros Hwf; [constructor |].
  apply wf_listing_cons in Hwf as (He & Hmore & _).
  cbn [tree_files]. apply Forall_app. split; [| by apply IH].
  eapply Forall_impl; [by apply tree_entry_paths |].
  intros [ks d] [Hv [rest Hr]]. cbn [fst] in *. by subst ks.
Qed.

Lemma above_cons c (a b : key) : above (c :: a) (c :: b) <-> above a b.
Proof.
  split; intros (x & xs & H).
  - exists x, xs. by injection H.
  - exists x, xs. by rewrite H.
Qed.

Lemma above_head (a b : key) c d :
  above (c :: a) (d :: b) -> c = d.
Proof. intros (x & xs & H). by injection H. Qed.

Lemma tree_files_heads sub name rest :
  wf_listing sub = true -> ~ In name (map name_of sub) ->
  ~ In (name :: rest) (map fst (tree_files sub)).
Proof.
  induction sub as [|e sub IH]; intros Hwf Hname; [by intros [] |].
  apply wf_listing_cons in Hwf as (He & Hmore & _).
  cbn [tree_files map] in *. rewrite map_app, in_app_iff.
  intros [Ha|Ha].
  - apply in_map_iff in Ha as ([ks d] & Hks & Hin). cbn [fst] in Hks. subst ks.
    pose proof (tree_entry_paths e He) as Hp.
    rewrite List.Forall_forall in Hp. destruct (Hp _ Hin) as [_ [r Hr]].
    cbn [fst] in Hr. injection Hr as Hr _. apply Hname. by left.
  - revert Ha. apply IH; [done |]. intros H. apply Hname. by right.
Qed.

Lemma listing_free sub :
  Forall (fun ent => wf_entry ent = true -> free (map fst (tree_entry ent))) sub ->
  wf_listing sub = true -> free (map fst (tree_files sub)).
Proof.
  induction 1 as [|e sub IHe _ IHsub]; intros Hwf.
  { split; [constructor | by intros a b []]. }
  apply wf_listing_cons in Hwf as (He & Hmore & Hname).
  destruct (IHe He) as [Hnd1 Hfree1].
  destruct (IHsub Hmore) as [Hnd2 Hfree2].
  pose proof (tree_entry_paths e He) as Hp1.
  assert (Hfirst : forall a, In a (map fst (tree_entry e)) ->
            exists rest, a = name_of e :: rest).
  { intros a Ha. apply in_map_iff in Ha as ([ks d] & <- & Hin).
    rewrite List.Forall_forall in Hp1. by destruct (Hp1 _ Hin) as [_ ?]. }
  assert (Hnonempty : forall a, In a (map fst (tree_files sub)) -> a <> []).
  { intros a Ha. pose proof (tree_files_paths sub Hmore) as Hp.
    apply in_map_iff in Ha as ([ks d] & <- & Hin).
    rewrite List.Forall_forall in Hp. by destruct (Hp _ Hin) as [_ ?]. }
  cbn [tree_files]. rewrite map_app. split.
  - apply NoDup_app. split_and!; [done | | done].
    intros a Ha Hb. apply list_elem_of_In in Ha, Hb.
    destruct (Hfirst a Ha) as [rest ->].
    by apply (tree_files_heads sub (name_of e) rest Hmore Hname).
  - intros a b Ha Hb. rewrite in_app_iff in Ha, Hb.
    destruct Ha as [Ha|Ha], Hb as [Hb|Hb].
    + by apply Hfree1.
    + destruct (Hfirst a Ha) as [ra ->]. intros Hab.
      destruct b as [|d b]; [by apply (Hnonempty []) |].
      apply above_head in Hab as Hd. subst d.
      by apply (tree_files_heads sub (name_of e) b Hmore Hname).
    + destruct (Hfirst b Hb) as [rb ->]. intros Hab.
      destruct a as [|d a]; [by apply (Hnonempty []) |].
      apply above_head in Hab as Hd. subst d.
      by apply (tree_files_heads sub (name_of e) a Hmore Hname).
    + by apply Hfree2.
Qed.

Lemma tree_entry_free :
  forall ent, wf_entry ent = true -> free (map fst (tree_entry ent)).
Proof.
  induction ent as [n b o | n sub IH] using dirent_induction; intros Hwf.
  - cbn [tree_entry name_of]. destruct (is_dot n); cbn [map fst].
    + split; [apply NoDup_nil_2 | by intros a b' []].
    + split; [apply NoDup_singleton |].
      intros a b' [<-|[]] [<-|[]]. apply above_irrefl.
  - rewrite tree_entry_dir. rewrite wf_entry_dir in Hwf.
    destruct (is_dot n) eqn:Hdot; [split; [constructor | by intros a b []] |].
    cbn [orb] in Hwf. apply andb_true_iff in Hwf as [_ Hsub].
    rewrite map_map. cbn [fst].
    destruct (listing_free sub IH Hsub) as [Hnd Hfree]. split.
    + rewrite <- (map_map fst (cons n)). apply NoDup_fmap_2; [| done].
      intros x y H. by injection H.
    + intros a b Ha Hb.
      apply in_map_iff in Ha as ([ka da] & <- & Ha).
      apply in_map_iff in Hb as ([kb db] & <- & Hb). cbn [fst].
      rewrite above_cons.
      apply Hfree; apply in_map_iff; [by exists (ka, da) | by exists (kb, db)].
Qed.

(** Within a well-formed listing no file path is above another, and no
    path occurs twice. *)
Lemma tree_files_free entries :
  wf_listing entries = true -> free (map fst (tree_files entries)).
Proof.
  intros Hwf. apply listing_free; [| done].
  apply List.Forall_forall. intros e _. apply tree_entry_free.
Qed.

End ListingFacts.

Section WalkFacts.
Import C Layout FS Packer Walk.

Lemma join_nonempty ks :
  Forall (fun k => valid_name k = true) ks -> ks <> [] -> join ks <> [].
Proof.
  intros Hv Hne. destruct ks as [|k ks]; [done |].
  apply Forall_cons in Hv as [Hk _].
  apply valid_name_spec in Hk as (Hk & _).
  destruct ks; [done |]. rewrite join_cons by done. by destruct k.
Qed.

Lemma join_snoc ks n :
  Forall (fun k => valid_name k = true) ks ->
  join (ks ++ [n])
  = join ks ++ (if (0 <? length (join ks))%nat then lit "\" else []) ++ n.
Proof.
  induction 1 as [|k ks Hk Hv IH]; [done |].
  destruct ks as [|k' ks].
  - cbn [app join]. pose proof (valid_name_spec k Hk) as (Hne & _).
    destruct k; [done |]. cbn [length Nat.ltb Nat.leb]. reflexivity.
  - change ((k :: k' :: ks) ++ [n]) with (k :: (k' :: ks) ++ [n]).
    rewrite (join_cons k ((k' :: ks) ++ [n])) by (by cbn [app]).
    rewrite IH, (join_cons k (k' :: ks)) by done.
    assert (Hl : (0 < length (join (k' :: ks)))%nat).
    { pose proof (join_nonempty (k' :: ks) Hv ltac:(done)).
      destruct (join (k' :: ks)); [done | cbn [length]; lia]. }
    destruct (Nat.ltb_spec 0 (length (join (k' :: ks)))); [| lia].
    destruct (Nat.ltb_spec 0 (length (k ++ "\"%char :: join (k' :: ks)))) as [|Hz].
    + by rewrite <- !app_assoc.
    + rewrite length_app in Hz. cbn [length] in Hz. lia.
Qed.

Lemma length_join_app (a b : key) :
  (length (join a) <= length (join (a ++ b)))%nat.
Proof.
  induction a as [|k a IH]; [cbn [join length]; lia |].
  destruct a as [|k' a].
  - destruct b as [|k' b]; [done |]. cbn [app]. rewrite (join_cons k (k' :: b)) by done.
    rewrite length_app. cbn [join]. lia.
  - change ((k :: k' :: a) ++ b) with (k :: k' :: a ++ b) in *.
    change ((k' :: a) ++ b) with (k' :: a ++ b) in *.
    rewrite (join_cons k (k' :: a)), (join_cons k (k' :: a ++ b)) by done.
    rewrite !length_app. cbn [length]. lia.
Qed.

Lemma walked_entry_length cut base :
  forall ent cur,
    length (walked_entry cut base cur ent) = length (tree_entry ent).
Proof.
  induction ent as [n b o | n sub IH] using dirent_induction; intros cur.
  - cbn [walked_entry tree_entry name_of]. by destruct (is_dot n).
  - rewrite walked_entry_dir, tree_entry_dir. destruct (is_dot n); [done |].
    rewrite length_map. generalize (snprintf MAX_PATH
      (cur ++ (if (0 <? length cur)%nat then lit "\" else []) ++ n)).
    intros rel. induction IH as [|e sub He _ IHsub]; [done |].
    cbn [walked_files tree_files]. by rewrite !length_app, He, IHsub.
Qed.

Lemma walked_files_length cut base cur entries :
  length (walked_files cut base cur entries) = length (tree_files entries).
Proof.
  induction entries as [|e more IH]; [done |].
  cbn [walked_files tree_files]. by rewrite !length_app, walked_entry_length, IH.
Qed.

Lemma listing_walk_agrees sub :
  Forall walk_agrees sub -> wf_listing sub = true ->
  forall cut base curks,
    Forall (fun k => valid_name k = true) curks ->
    fits_under curks (tree_files sub) ->
    map w_relative (walked_files cut base (join curks) sub)
    = map (fun kd => join (curks ++ kd.1)) (tree_files sub)
    /\ (opens_under base curks (tree_files sub) ->
        map w_data (walked_files cut base (join curks) sub)
        = map (fun kd => fopen_rb kd.2.1 kd.2.2) (tree_files sub)).
Proof.
  induction 1 as [|e sub He _ IH]; intros Hwf cut base curks Hv Hfit;
    [by split |].
  apply wf_listing_cons in Hwf as (Hwe & Hmore & _).
  cbn [walked_files tree_files] in *.
  destruct (He Hwe cut base curks Hv) as [He1 He2].
  { intros kd Hin. apply Hfit, in_app_iff. by left. }
  destruct (IH Hmore cut base curks Hv) as [IH1 IH2].
  { intros kd Hin. apply Hfit, in_app_iff. by right. }
  split.
  - by rewrite !map_app, He1, IH1.
  - intros Hopen. rewrite !map_app, He2, IH2; [done | |].
    + intros kd Hin. apply Hopen, in_app_iff. by right.
    + intros kd Hin. apply Hopen, in_app_iff. by left.
Qed.

Lemma entry_walk_agrees : forall ent, walk_agrees ent.
Proof.
  induction ent as [n b o | n sub IH] using dirent_induction;
    intros Hwf cut base curks Hv Hfit.
  - cbn [walked_entry tree_entry name_of] in *.
    destruct (is_dot n); [by split |]. cbn [map w_relative w_data fst snd].
    split.
    + f_equal. rewrite <- join_snoc by done. apply snprintf_fits.
      apply (Hfit ([n], (b, o))). by left.
    + intros Hopen. f_equal. unfold fopen_full.
      pose proof (Hopen ([n], (b, o)) ltac:(by left)) as Hlen. cbn [fst] in Hlen.
      rewrite join_snoc in Hlen by done.
      replace (length (base ++ lit "\" ++ join curks ++ lit "\" ++ n)
               <? MAX_PATH)%nat with true; [done |].
      symmetry. apply Nat.ltb_lt. rewrite !length_app in *.
      cbn [lit list_ascii_of_string length] in *. lia.
  - rewrite walked_entry_dir. rewrite tree_entry_dir in *. rewrite wf_entry_dir in Hwf.
    destruct (is_dot n) eqn:Hdot; [by split |]. cbn [orb] in Hwf.
    apply andb_true_iff in Hwf as [Hn Hsub].
    rewrite <- join_snoc by done.
    destruct (tree_files sub) as [|kd0 rest] eqn:Htf.
    { pose proof (walked_files_length cut base
                    (snprintf MAX_PATH (join (curks ++ [n]))) sub) as Hl.
      rewrite Htf in Hl. by destruct (walked_files _ _ _ sub). }
    assert (Hshort : (length (join (curks ++ [n])) < MAX_PATH)%nat).
    { pose proof (Hfit (n :: kd0.1, kd0.2) ltac:(by left)) as H0. cbn [fst] in H0.
      pose proof (length_join_app (curks ++ [n]) kd0.1) as Hle.
      rewrite <- app_assoc in Hle. cbn [app] in Hle. lia. }
    rewrite snprintf_fits by done. rewrite <- Htf in *.
    destruct (listing_walk_agrees sub IH Hsub cut base (curks ++ [n]))
      as [H1 H2].
    + apply Forall_app. split; [done | by constructor].
    + intros kd Hin. rewrite <- app_assoc. cbn [app].
      apply (Hfit (n :: kd.1, kd.2)). apply in_map_iff. by exists kd.
    + split.
      * rewrite H1, map_map. apply map_ext. intros [ks d]. cbn [fst snd].
        by rewrite <- app_assoc.
      * intros Hopen. rewrite H2, map_map; [done |].
        intros kd Hin. rewrite <- app_assoc. cbn [app].
        apply (Hopen (n :: kd.1, kd.2)). apply in_map_iff. by exists kd.
Qed.

(** The walk of a well-formed listing whose paths fit records, for every
    file, the path made of the names down to it. *)
Lemma walk_paths_with_tree cut base entries :
  wf_listing entries = true -> fits_under [] (tree_files entries) ->
  map w_relative (walked_files cut base [] entries)
  = map (fun kd => join kd.1) (tree_files entries).
Proof.
  intros Hwf Hfit.
  assert (Hall : Forall walk_agrees entries)
    by (apply List.Forall_forall; intros e _; apply entry_walk_agrees).
  by destruct (listing_walk_agrees entries Hall Hwf cut base [] ltac:(constructor)
                 Hfit) as [H _].
Qed.

Lemma walk_data_with_tree cut base entries :
  wf_listing entries = true -> fits_under [] (tree_files entries) ->
  opens_under base [] (tree_files entries) ->
  map w_data (walked_files cut base [] entries)
  = map (fun kd => fopen_rb kd.2.1 kd.2.2) (tree_files entries).
Proof.
  intros Hwf Hfit Hopen.
  assert (Hall : Forall walk_agrees entries)
    by (apply List.Forall_forall; intros e _; apply entry_walk_agrees).
  destruct (listing_walk_agrees entries Hall Hwf cut base [] ltac:(constructor)
              Hfit) as [_ H2].
  by apply H2.
Qed.

(** Where the paths handed to [fopen] are whole, it also records what
    opening that file gives. *)
Lemma walk_agrees_with_tree cut base entries :
  wf_listing entries = true -> fits_under [] (tree_files entries) ->
  opens_under base [] (tree_files entries) ->
  map (fun w => (w_relative w, w_data w)) (walked_files cut base [] entries)
  = map (recorded []) (tree_files entries).
Proof.
  intros Hwf Hfit Hopen.
  assert (Hall : Forall walk_agrees entries)
    by (apply List.Forall_forall; intros e _; apply entry_walk_agrees).
  destruct (listing_walk_agrees entries Hall Hwf cut base [] ltac:(constructor)
              Hfit) as [H1 H2].
  specialize (H2 Hopen). change (join []) with (@nil ascii) in H1, H2.
  revert H1 H2.
  generalize (walked_files cut base [] entries), (tree_files entries).
  induction l as [|w ws IH]; intros [|kd tf] H1 H2; try done.
  cbn [map] in *. injection H1 as Hr H1. injection H2 as Hd H2.
  unfold recorded at 1. cbn [app]. rewrite Hr, Hd. f_equal. by apply IH.
Qed.

End WalkFacts.

(** ** Round trip *)

Section RoundTrip.
Import C Layout FS Walk.

Lemma Forall2_combine {A B} (R : A -> B -> Prop) l1 l2 :
  Forall2 R l1 l2 ->
  Forall (fun ab => R ab.1 ab.2) (combine l1 l2)
  /\ map snd (combine l1 l2) = l2.
Proof.
  induction 1 as [|x y l1 l2 Hxy _ [IH1 IH2]]; [by split |].
  cbn [combine map snd]. split; [by constructor | by rewrite IH2].
Qed.

Lemma Forall2_both {A B} (R1 R2 : A -> B -> Prop) l1 l2 :
  Forall2 R1 l1 l2 -> Forall2 R2 l1 l2 ->
  Forall2 (fun x y => R1 x y /\ R2 x y) l1 l2.
Proof.
  induction 1 as [|x y l1 l2 H1 _ IH]; intros H2; [constructor |].
  apply Forall2_cons_1 in H2 as [H2 H2']. constructor; [done | by apply IH].
Qed.

Lemma Forall2_transfer {A A' B C} (f : A -> C) (g : A' -> C)
    (R : A -> B -> Prop) (R' : A' -> B -> Prop) l l' es :
  (forall x x' e, f x = g x' -> R x e -> R' x' e) ->
  map f l = map g l' -> Forall2 R l es -> Forall2 R' l' es.
Proof.
  intros Himp Hmap H. revert l' Hmap.
  induction H as [|x e l es Hxe _ IH]; intros l' Hmap.
  - destruct l'; [constructor | done].
  - destruct l' as [|x' l']; [done |].
    cbn [map] in Hmap. injection Hmap as Hx Hl.
    constructor; [by apply (Himp x) | by apply IH].
Qed.

Lemma Forall2_guard {A B} (P : A -> Prop) (R : A -> B -> Prop) l es :
  Forall2 (fun x e => P x -> R x e) l es -> Forall P l -> Forall2 R l es.
Proof.
  induction 1 as [|x e l es H _ IH]; intros HP; [constructor |].
  apply Forall_cons in HP as [Hx HP]. constructor; [by apply H | by apply IH].
Qed.

Lemma Forall2_rev {A B} (R : A -> B -> Prop) l k :
  Forall2 R l k -> Forall2 R (rev l) (rev k).
Proof.
  induction 1 as [|x y l k Hxy _ IH]; [constructor |].
  cbn [rev]. apply Forall2_app; [done | by repeat constructor].
Qed.

Lemma Forall2_impl_In {A B} (R R' : A -> B -> Prop) l k :
  Forall2 R l k -> (forall x y, In x l -> R x y -> R' x y) -> Forall2 R' l k.
Proof.
  induction 1 as [|x y l k Hxy _ IH]; intros Himp; [constructor |].
  constructor; [apply Himp; [by left | done] |].
  apply IH. intros x' y' Hin. apply Himp. by right.
Qed.

Lemma entries_for_paths2 E ws :
  forall n pos,
    Forall2 (fun w e => cstr (relative_path e) = cstr (w_relative w))
      ws (entries_for E n pos ws).
Proof.
  induction ws as [|w ws IH]; intros n pos; constructor;
    [apply relative_path_entry_for | apply IH].
Qed.

(** The entries of the walked files carry the paths of the listing. *)
Lemma entries_paths (PE : Packer.env) n pos :
  wf_listing (Packer.pack_dir_listing PE) = true ->
  fits_under [] (tree_files (Packer.pack_dir_listing PE)) ->
  Forall2 (fun kd e => cstr (relative_path e) = join kd.1)
    (tree_files (Packer.pack_dir_listing PE))
    (entries_for PE n pos (walk PE)).
Proof.
  intros Hwf Hfit.
  pose proof (entries_for_paths2 PE (walk PE) n pos) as Hp.
  pose proof (tree_files_paths _ Hwf) as Hvalid.
  eapply (Forall2_transfer w_relative (fun kd => join kd.1)
            _ (fun kd e => Forall (fun k => valid_name k = true) kd.1 ->
                           cstr (relative_path e) = join kd.1))
    in Hp.
  - eapply Forall2_guard; [exact Hp |].
    eapply Forall_impl; [exact Hvalid |]. by intros kd [? _].
  - intros w kd e Heq Hpath Hv. cbn beta in *.
    rewrite Hpath, Heq. apply cstr_no_nul. by apply join_no_nul.
  - unfold walk. by apply walk_paths_with_tree.
Qed.

Lemma entries_carry (PE : Packer.env) stub a :
  a = output PE stub ->
  Z.of_nat (length a) <= LONG_MAX ->
  (length (base_name (Packer.arg PE 2)) < MAX_PATH)%nat ->
  wf_listing (Packer.pack_dir_listing PE) = true ->
  fits_under [] (tree_files (Packer.pack_dir_listing PE)) ->
  opens_under (Packer.arg PE 1) [] (tree_files (Packer.pack_dir_listing PE)) ->
  Forall2 (carries a) (tree_files (Packer.pack_dir_listing PE))
    (entries_for PE 0 (length stub) (walk PE)).
Proof.
  intros -> Hlen Hbase Hwf Hfit Hopen.
  pose proof (manifest_wf PE stub Hbase) as HM.
  pose proof (length_archive_of (body PE stub) (manifest PE stub) HM) as Hl.
  fold (output PE stub) in Hl.
  assert (Hbody : length (body PE stub)
                  = (length stub + length (payloads (walk PE))
                     + length (payload (Packer.main_exe_file PE)))%nat).
  { unfold body. by rewrite !length_app. }
  assert (Ha : output PE stub
               = stub ++ payloads (walk PE)
                 ++ (payload (Packer.main_exe_file PE)
                     ++ le_bytes 8 (to_u64 (Z.of_nat (length (manifest PE stub))))
                     ++ concat (map entry_bytes (manifest PE stub))
                     ++ footer_bytes
                          {| manifest_offset := to_u64 (ftell (length (body PE stub)));
                             magic := MAGIC_BYTES ++ [NUL] |})).
  { unfold output, archive_of, body. by rewrite <- !app_assoc. }
  pose proof (entries_for_slices PE (walk PE) 0 (length stub) stub
                (payload (Packer.main_exe_file PE)
                 ++ le_bytes 8 (to_u64 (Z.of_nat (length (manifest PE stub))))
                 ++ concat (map entry_bytes (manifest PE stub))
                 ++ footer_bytes
                      {| manifest_offset := to_u64 (ftell (length (body PE stub)));
                         magic := MAGIC_BYTES ++ [NUL] |})
                eq_refl ltac:(lia)) as Hslices.
  rewrite <- Ha in Hslices.
  pose proof (Forall2_both _ _ _ _ (entries_for_paths2 PE (walk PE) 0 (length stub))
                Hslices) as Hboth.
  pose proof (tree_files_paths _ Hwf) as Hvalid.
  eapply (Forall2_transfer
            (fun w => (w_relative w, w_data w)) (recorded [])
            _ (fun kd e => Forall (fun k => valid_name k = true) kd.1 -> carries (output PE stub) kd e))
    in Hboth.
  - eapply Forall2_guard; [exact Hboth |].
    eapply Forall_impl; [exact Hvalid |]. by intros kd [? _].
  - intros w [ks [b o]] e Heq [Hpath Hslice] Hv. unfold recorded in Heq.
    cbn [fst snd app] in *. injection Heq as Hrel Hdata.
    split; cbn [fst snd].
    + rewrite Hpath, Hrel. apply cstr_no_nul. by apply join_no_nul.
    + intros ->. apply Hslice. by rewrite Hdata.
  - unfold walk. by apply walk_agrees_with_tree.
Qed.

Lemma above_caseless (a b : key) :
  above a b -> above (map caseless a) (map caseless b).
Proof.
  intros (c & cs & ->). exists (caseless c), (map caseless cs).
  by rewrite map_app.
Qed.

End RoundTrip.

Section RoundTripClaim.
Import C Layout FS Walk.

Lemma names_of_carried LE a kd e :
  carries a kd e ->
  Forall (fun k => valid_name k = true) kd.1 -> kd.1 <> [] ->
  (length (Loader.temp_dir LE ++ lit "\" ++ join kd.1) < MAX_PATH)%nat ->
  names LE e kd.1.
Proof. intros [Hp _] Hv Hne Hfit. by split_and!. Qed.

Lemma extract_carried LE st e a ks c used :
  r_data (Loader.f_self st) = a ->
  carries a (ks, (c, true)) e -> names LE e ks ->
  tidy (resolve (Loader.temp_dir LE)) used (Loader.fs st) ->
  (forall s, In s used -> ~ above s ks) ->
  (forall s, In s used -> ~ above ks s) ->
  Loader.fs (Loader.extract_entry LE st e) !! (resolve (Loader.temp_dir LE) ++ ks)
  = Some (FileN c).
Proof.
  intros Hdata [_ Hslice] Hn Ht Hup Hdown.
  destruct (Hslice eq_refl) as (p & Hoff & Hsize & Hp & Hroom & Hbytes).
  cbn [fst snd] in *.
  destruct (extract_entry_put LE st e ks used Hn Ht Hup Hdown)
    as (written & f & buf & Hcopy & Hfile & _).
  rewrite Hfile. do 2 f_equal.
  rewrite Hoff, Hsize, to_long_small in Hcopy by lia.
  unfold fseek_set in Hcopy.
  destruct (Z.leb_spec 0 (Z.of_nat p)) as [_|]; [| lia].
  rewrite Hdata, Nat2Z.id in Hcopy.
  pose proof loader_BUFFER_SIZE_pos as HB.
  destruct (copy_loop_exact
              (S (Z.to_nat (Z.of_nat (length c) / Loader.BUFFER_SIZE)))
              (Z.of_nat (length c)) a p (Loader.buffer st) []) as (buf' & Heq).
  - split; [lia |].
    rewrite Nat2Z.inj_succ, Z2Nat.id by (apply Z.div_pos; lia).
    pose proof (Z.mul_succ_div_gt (Z.of_nat (length c)) Loader.BUFFER_SIZE HB). lia.
  - lia.
  - rewrite Heq in Hcopy. injection Hcopy as <- _ _.
    by rewrite Nat2Z.id, Hbytes.
Qed.

(** C1 (as amended).  Round trip.  Take an archive the packer produced from
    a well-formed directory listing, of a length that fits a [long], and run
    it as the loader with a fresh temporary directory.  Let the paths be
    short enough: every path [base_path\current_path\name] that the walk
    hands to [fopen] and every search pattern it builds is whole, so that
    the packer opens the files of the listing and no others, and every path
    fits [MAX_PATH] below the temporary directory.  Let the main executable's
    base name be a valid file name, and let the names keep the files apart
    also where case is ignored: no two files at one place, none above another,
    no directory that holds a file called like the main executable.  Then
    every file under the packed directory that the packer could open is,
    when the extraction loop ends, a file below the extraction root at the
    same relative path and with the same bytes. *)
Theorem round_trip (PE : Packer.env) (r : Packer.result) (a : list ascii)
    (LE : Loader.env) (ks : key) (c : list ascii) :
  Packer.main PE = Packer.Returned r -> Packer.exit_code r = 0 ->
  Packer.out_exe r = Some a ->
  Z.of_nat (length a) <= LONG_MAX ->
  wf_listing (Packer.pack_dir_listing PE) = true ->
  In (ks, (c, true)) (tree_files (Packer.pack_dir_listing PE)) ->
  (forall kd, In kd (tree_files (Packer.pack_dir_listing PE)) ->
     (length (Packer.arg PE 1) + 2 + length (join kd.1) < MAX_PATH)%nat
     /\ (length (Loader.temp_dir LE ++ lit "\" ++ join kd.1) < MAX_PATH)%nat) ->
  patterns_fit (Packer.arg PE 1) (Packer.pack_dir_listing PE) ->
  case_free (base_name (Packer.arg PE 2))
    (tree_files (Packer.pack_dir_listing PE)) ->
  valid_name (base_name (Packer.arg PE 2)) = true ->
  (length (Loader.temp_dir LE ++ lit "\" ++ base_name (Packer.arg PE 2))
   < MAX_PATH)%nat ->
  Loader.self LE = Some a ->
  resolve (Loader.temp_dir LE) <> [] ->
  is_dir (Loader.disk LE) (parent (resolve (Loader.temp_dir LE))) = true ->
  fresh_below (resolve (Loader.temp_dir LE)) (Loader.disk LE) = true ->
  Loader.extracted (Loader.main LE) !! (resolve (Loader.temp_dir LE) ++ ks)
  = Some (FileN c).
Proof.
  intros Hmain Hcode Hout Hlen Hwf HF Hpaths0 _ [_ Hcase] Hvbase Hfbase Hself HR
    Hparent Hfresh.
  assert (Hopen : opens_under (Packer.arg PE 1) []
                    (tree_files (Packer.pack_dir_listing PE))).
  { intros kd Hin. cbn [app]. by destruct (Hpaths0 kd Hin). }
  assert (Hpaths : forall kd, In kd (tree_files (Packer.pack_dir_listing PE)) ->
            (length (Loader.temp_dir LE ++ lit "\" ++ join kd.1) < MAX_PATH)%nat
            /\ ~ above [base_name (Packer.arg PE 2)] kd.1).
  { intros kd Hin. split; [by destruct (Hpaths0 kd Hin) |].
    intros Hab. apply (Hcase kd Hin). by apply (above_caseless [_]). }
  clear Hpaths0 Hcase.
  destruct (main_success PE r Hmain Hcode)
    as (stub & Hstub & Hne & Hargc & Hbase & Hout' & _).
  rewrite Hout' in Hout. injection Hout as Ha. symmetry in Ha.
  set (R := resolve (Loader.temp_dir LE)) in *.
  set (base := base_name (Packer.arg PE 2)) in *.
  set (tf := tree_files (Packer.pack_dir_listing PE)) in *.
  pose proof (manifest_wf PE stub Hbase) as HM.
  (* the packer's side *)
  assert (Hfit : fits_under [] tf).
  { intros kd Hin. destruct (Hpaths kd Hin) as [H _]. cbn [app].
    rewrite !length_app in H. lia. }
  pose proof (entries_carry PE stub a Ha Hlen Hbase Hwf Hfit Hopen) as Hcarry.
  fold tf in Hcarry.
  pose proof (tree_files_paths _ Hwf) as Hvalid. fold tf in Hvalid.
  destruct (tree_files_free _ Hwf) as [Hnodup Hfree]. fold tf in Hnodup, Hfree.
  (* the loader reads the manifest back *)
  assert (HaE : a = archive_of (body PE stub) (manifest PE stub)) by done.
  assert (Hacc : Loader.accepts LE a = true) by (rewrite HaE; by apply accepts_archive).
  destruct (manifest_read_archive LE (body PE stub) (manifest PE stub) HM)
    as [Hread Hstream]; [by rewrite <- HaE |].
  rewrite <- HaE in Hread, Hstream.
  rewrite (extracted_eq LE a Hself Hacc). unfold Loader.extraction. rewrite Hread.
  (* the place of the file in the manifest *)
  apply in_split in HF as (tf1 & tf2 & Htf).
  rewrite Htf in Hcarry.
  apply Forall2_app_inv_l in Hcarry as (es1 & es' & Hc1 & Hc2 & Hes).
  apply Forall2_cons_inv_l in Hc2 as (e & es2 & He & Hc2 & ->).
  unfold manifest. rewrite Hes, rev_app_distr. cbn [rev]. rewrite <- app_assoc.
  cbn [app]. rewrite app_comm_cons, fold_left_app. cbn [fold_left].
  set (st1 := fold_left (Loader.extract_entry LE) (exe_entry PE stub :: rev es2)
                (Loader.extraction_start LE a)).
  set (all := [base] :: map fst tf).
  assert (Hall : forall x y, In x all -> In y all -> ~ above x y).
  { intros x y [<-|Hx] [<-|Hy].
    - apply above_irrefl.
    - apply in_map_iff in Hy as (kd & <- & Hin). by destruct (Hpaths kd Hin).
    - apply in_map_iff in Hx as (kd & <- & Hin). intros (c0 & cs & Hab).
      rewrite List.Forall_forall in Hvalid. destruct (Hvalid kd Hin) as [_ Hn].
      destruct kd.1 as [|k0 k1]; [done |]. destruct k1; discriminate.
    - by apply Hfree. }
  assert (Hnames : forall kd e', In kd tf -> carries a kd e' -> names LE e' kd.1).
  { intros kd e' Hin Hc. rewrite List.Forall_forall in Hvalid.
    destruct (Hvalid kd Hin) as [Hv Hn]. destruct (Hpaths kd Hin) as [Hf _].
    by apply (names_of_carried LE a). }
  (* the entries extracted before it leave the root tidy *)
  assert (Hexe : names LE (exe_entry PE stub) [base]).
  { unfold names. cbn [join]. split_and!; [| by repeat constructor | done | done].
    unfold exe_entry. rewrite relative_path_entry_for.
    apply cstr_no_nul. by apply valid_name_no_nul. }
  assert (Hpre : Forall2 (fun k e' => names LE e' k /\ In k all)
                   ([base] :: rev (map fst tf2)) (exe_entry PE stub :: rev es2)).
  { constructor; [split; [done | by left] |].
    apply Forall2_rev. apply Forall2_fmap_l.
    apply (Forall2_impl_In _ _ _ _ Hc2). intros kd e' Hin Hc.
    assert (In kd tf) by (rewrite Htf, in_app_iff; right; by right).
    split; [by apply Hnames | right; by apply in_map]. }
  apply Forall2_combine in Hpre as [Hitems Hsnd].
  destruct (extraction_tidy LE all Hall _ (Loader.extraction_start LE a) []
              Hitems ltac:(by intros s []))
    as (used & Hused & Htidy).
  { by apply create_temp_dir_fresh. }
  rewrite Hsnd in Htidy. fold st1 in Htidy.
  (* its own extraction *)
  assert (Hks : In ks all).
  { right. apply in_map_iff. exists (ks, (c, true)). split; [done |].
    rewrite Htf, in_app_iff. right. by left. }
  assert (Hfile : Loader.fs (Loader.extract_entry LE st1 e) !! (R ++ ks)
                  = Some (FileN c)).
  { apply (extract_carried LE st1 e a ks c used).
    - unfold st1. by rewrite extraction_data.
    - done.
    - apply (Hnames (ks, (c, true))); [| done]. rewrite Htf, in_app_iff. right. by left.
    - done.
    - intros s Hs. apply Hall; [by apply Hused | done].
    - intros s Hs. apply Hall; [done | by apply Hused]. }
  (* the entries extracted after it leave it alone *)
  apply extraction_frame; [done |].
  apply Forall_rev.
  rewrite Htf, map_app in Hnodup. apply NoDup_app in Hnodup as (_ & Hdisj & _).
  clear -Hc1 Hnames Hdisj Htf.
  assert (Hsub : forall kd, In kd tf1 -> In kd tf)
    by (intros kd Hin; rewrite Htf, in_app_iff; by left).
  clear Htf. induction Hc1 as [|kd e' tf1 es1 Hc _ IH]; [constructor |].
  constructor.
  - destruct (names_target LE e' kd.1) as [-> _].
    { apply Hnames; [apply Hsub; by left | done]. }
    intros Heq. apply app_inv_head in Heq.
    apply (Hdisj kd.1).
    + apply list_elem_of_In. cbn [map]. by left.
    + rewrite <- Heq. cbn [map fst]. apply list_elem_of_In. by left.
  - apply IH.
    + intros x Hx. apply Hdisj. apply list_elem_of_In. cbn [map]. right.
      by apply list_elem_of_In.
    + intros kd' Hin. apply Hsub. by right.
Qed.

End RoundTripClaim.

Section RoundTripRuns.
Import C Layout FS Walk.

(** Scenario A: [Content\readme.txt] comes out with its five bytes. *)
Lemma round_trip_witness :
  Loader.extracted (Loader.main (Scenario.loader_env Scenario.archive_A))
  !! (resolve (Loader.temp_dir (Scenario.loader_env Scenario.archive_A))
      ++ [lit "Content"; lit "readme.txt"])
  = Some (FileN (lit "hello")).
Proof.
  apply (round_trip Scenario.packer_A
           {| Packer.exit_code := 0; Packer.out_exe := Some Scenario.archive_A;
              Packer.stdout := transcript Scenario.packer_A |}
           Scenario.archive_A (Scenario.loader_env Scenario.archive_A)
           [lit "Content"; lit "readme.txt"] (lit "hello")).
  - vm_compute. reflexivity.
  - reflexivity.
  - reflexivity.
  - vm_compute. discriminate.
  - vm_compute. reflexivity.
  - vm_compute. by left.
  - intros kd Hin. vm_compute in Hin. destruct Hin as [<-|[]]. split.
    + vm_compute. lia.
    + vm_compute. lia.
  - split; [vm_compute; lia |].
    intros d Hin. vm_compute in Hin. destruct Hin as [<-|[]]. vm_compute. lia.
  - split; [split |].
    + vm_compute. repeat constructor. by intros H%elem_of_nil.
    + intros x y Hx Hy. vm_compute in Hx, Hy.
      destruct Hx as [<-|[]], Hy as [<-|[]]. apply above_irrefl.
    + intros kd Hin. vm_compute in Hin. destruct Hin as [<-|[]].
      intros (c0 & cs & H). discriminate.
  - vm_compute. reflexivity.
  - vm_compute. lia.
  - reflexivity.
  - vm_compute. discriminate.
  - vm_compute. reflexivity.
  - vm_compute. reflexivity.
Defined.

(** C1, as stated, fails: [save.dat] holds "hello" but is locked while the
    packer runs, so it is recorded with size 0 and the loader extracts an
    empty [save.dat]. *)
Lemma locked_file_comes_out_empty :
  let PE := Scenario.packer_locked in
  let a := Scenario.out_of (Packer.main PE) in
  let r := Loader.main (Scenario.loader_env a) in
  In ([lit "save.dat"], (lit "hello", false))
    (tree_files (Packer.pack_dir_listing PE))
  /\ resolve (Loader.temp_dir (Scenario.loader_env a)) = Scenario.root
  /\ Loader.extracted r !! (Scenario.root ++ [lit "save.dat"]) = Some (FileN [])
  /\ Loader.extracted r !! (Scenario.root ++ [lit "save.dat"])
     <> Some (FileN (lit "hello")).
Proof.
  cbv zeta. split_and!.
  - vm_compute. by left.
  - vm_compute. reflexivity.
  - vm_compute. reflexivity.
  - vm_compute. discriminate.
Qed.

End RoundTripRuns.

(** ** Why the conditions of the amended statements are there *)

Section Limits.
Import C Layout FS Walk.

(** A main executable named like a packed directory: its file takes the
    place of the directory, and the files below are skipped. *)
Remark name_clash_blocks_extraction :
  let PE := Scenario.packer_clash in
  let a := Scenario.out_of (Packer.main PE) in
  let r := Loader.main (Scenario.loader_env a) in
  In ([lit "Content"; lit "readme.txt"], (lit "hello", true))
    (tree_files (Packer.pack_dir_listing PE))
  /\ Loader.extracted r !! (Scenario.root ++ [lit "Content"])
     = Some (FileN (lit "MZgame"))
  /\ Loader.extracted r !! (Scenario.root ++ [lit "Content"; lit "readme.txt"])
     = None.
Proof.
  cbv zeta. split_and!.
  - vm_compute. by left.
  - vm_compute. reflexivity.
  - vm_compute. reflexivity.
Qed.

(** A path that does not fit [MAX_PATH] below the temporary directory is cut
    by [snprintf]: the file comes out under a shorter name. *)
Remark long_path_is_cut :
  let PE := Scenario.packer_long in
  let a := Scenario.out_of (Packer.main PE) in
  let r := Loader.main (Scenario.loader_env a) in
  In ([Scenario.long_name], (lit "hello", true))
    (tree_files (Packer.pack_dir_listing PE))
  /\ Loader.extracted r !! (Scenario.root ++ [Scenario.long_name]) = None
  /\ Loader.extracted r !! (Scenario.root ++ [repeat "a"%char 242])
     = Some (FileN (lit "hello")).
Proof.
  cbv zeta. split_and!.
  - vm_compute. by left.
  - vm_compute. reflexivity.
  - vm_compute. reflexivity.
Qed.

(** A path [base_path\current_path\name] that does not fit [MAX_PATH] is
    cut by [snprintf] before [fopen] gets it: [readme.txt] is packed with the
    bytes of the file the cut path names, and comes out with those. *)
Remark cut_path_packs_another_file :
  let PE := Scenario.packer_deep in
  let a := Scenario.out_of (Packer.main PE) in
  let r := Loader.main (Scenario.loader_env a) in
  In ([lit "readme.txt"], (lit "hello", true))
    (tree_files (Packer.pack_dir_listing PE))
  /\ map w_full (walk PE)
     = [Scenario.deep_dir ++ lit "\\readme.t";
        Scenario.deep_dir ++ lit "\\readme.t"]
  /\ Loader.extracted r !! (Scenario.root ++ [lit "readme.txt"])
     = Some (FileN (lit "OTHER")).
Proof.
  cbv zeta. split_and!.
  - vm_compute. right. by left.
  - vm_compute. reflexivity.
  - vm_compute. reflexivity.
Qed.

(** Past [LONG_MAX], [ftell] reports -1: with a main executable of 2 GiB
    the footer's [manifest_offset] is 2^64 - 1, far beyond the end of the
    file. *)
Remark huge_archive_offset_is_lost :
  let PE := Scenario.packer_huge in
  exists r a,
    Packer.main PE = Packer.Returned r /\ Packer.exit_code r = 0
    /\ Packer.out_exe r = Some a
    /\ manifest_offset (footer_in a) = 2 ^ 64 - 1
    /\ Z.of_nat (length a) < 2 ^ 64 - 1.
Proof.
  cbv zeta.
  assert (Hbase : (length (base_name (Packer.arg Scenario.packer_huge 2)) < MAX_PATH)%nat)
    by (lazy; lia).
  exists {| Packer.exit_code := 0;
            Packer.out_exe := Some (output Scenario.packer_huge (lit "STUB"));
            Packer.stdout := transcript Scenario.packer_huge |},
         (output Scenario.packer_huge (lit "STUB")).
  pose proof (manifest_wf Scenario.packer_huge (lit "STUB") Hbase) as Hwf.
  assert (Hbody : Z.of_nat (length (body Scenario.packer_huge (lit "STUB")))
                  = 4 + 2 ^ 31).
  { unfold body. rewrite !length_app.
    change (Packer.main_exe_file Scenario.packer_huge) with (Some Scenario.two_gib).
    cbn [payload]. unfold Scenario.two_gib. rewrite repeat_length.
    change (payloads (walk Scenario.packer_huge)) with (@nil ascii).
    change (length (lit "STUB") + length (@nil ascii))%nat with 4%nat.
    rewrite Nat2Z.inj_add, Z2Nat.id by lia. lia. }
  split_and!.
  - apply main_success_eq; [reflexivity | reflexivity | reflexivity | | exact Hbase].
    change (length (lit "STUB")) with 4%nat. lazy. discriminate.
  - reflexivity.
  - reflexivity.
  - unfold output. rewrite footer_in_archive_of by exact Hwf. cbn [manifest_offset].
    unfold ftell, to_u64, LONG_MAX.
    destruct (Z.leb_spec (Z.of_nat (length (body Scenario.packer_huge (lit "STUB"))))
                (2 ^ 31 - 1)) as [Hle|_]; [lia |].
    reflexivity.
  - unfold output. rewrite length_archive_of by exact Hwf.
    assert (Hm : length (manifest Scenario.packer_huge (lit "STUB")) = 1%nat)
      by reflexivity.
    rewrite Hm. unfold sizeof_ManifestEntry, sizeof_ArchiveFooter, MAX_PATH.
    rewrite !Nat2Z.inj_add, Hbody. lia.
Qed.

End Limits.

(** * Further properties of the code *)

(** ** The on-disk structures *)

Section FormatProperties.
Import C Layout Walk.

(** X1.  [ManifestEntry] as written and as read: an entry whose fields are
    within the range of their types has an image of 8 + 8 + 1 + MAX_PATH
    bytes, and reading that image, whatever follows it, gives the entry
    back. *)
Theorem manifest_entry_read_back (e : ManifestEntry) (rest : list ascii) :
  entry_wf e ->
  length (entry_bytes e) = (8 + 8 + 1 + MAX_PATH)%nat
  /\ entry_of_bytes (entry_bytes e ++ rest) = e.
Proof.
  intros He. split.
  - destruct He as (_ & _ & Hl). by rewrite length_entry_bytes.
  - by apply entry_of_entry_bytes.
Qed.

Lemma manifest_entry_read_back_witness :
  let e := Scenario.entry 4 7 "001"%char (lit "Game.exe") in
  entry_wf e
  /\ length (entry_bytes e) = (8 + 8 + 1 + MAX_PATH)%nat
  /\ entry_of_bytes (entry_bytes e ++ lit "tail") = e.
Proof.
  intros e.
  assert (He : entry_wf e) by (unfold entry_wf; vm_compute; intuition congruence).
  split; [exact He |].
  exact (manifest_entry_read_back e (lit "tail") He).
Defined.

(** X2.  [ArchiveFooter] as written and as read: 16 bytes, the offset in the
    first eight, least significant byte first, the magic in the last eight;
    reading the image gives the footer back. *)
Theorem archive_footer_read_back (f : ArchiveFooter) (rest : list ascii) :
  0 <= manifest_offset f < 2 ^ 64 -> length (magic f) = 8%nat ->
  length (footer_bytes f) = 16%nat
  /\ firstn 8 (footer_bytes f) = le_bytes 8 (manifest_offset f)
  /\ skipn 8 (footer_bytes f) = magic f
  /\ footer_of_bytes (footer_bytes f ++ rest) = f.
Proof.
  intros Ho Hm. split_and!.
  - by rewrite length_footer_bytes.
  - unfold footer_bytes. apply firstn_app_exact, length_le_bytes.
  - unfold footer_bytes. apply skipn_app_exact, length_le_bytes.
  - by apply footer_of_footer_bytes.
Qed.

Lemma archive_footer_read_back_witness :
  let f := {| manifest_offset := 1000; magic := MAGIC_BYTES ++ [NUL] |} in
  length (footer_bytes f) = 16%nat
  /\ firstn 8 (footer_bytes f) = le_bytes 8 (manifest_offset f)
  /\ skipn 8 (footer_bytes f) = magic f
  /\ footer_of_bytes (footer_bytes f ++ lit "tail") = f.
Proof.
  intros f.
  apply (archive_footer_read_back f (lit "tail")); [cbn; lia | reflexivity].
Defined.

(** X3.  What is written is what the loader reads.  For a file made of any
    bytes, then [entry_count], entries within the range of their types, and
    the footer, and no longer than [LONG_MAX], the loader passes the magic
    test and its manifest is the list of entries written, whatever memory
    held before. *)
Theorem loader_reads_back_manifest (E : Loader.env) (body : list ascii)
    (es : list ManifestEntry) :
  Forall entry_wf es ->
  Z.of_nat (length (archive_of body es)) <= LONG_MAX ->
  Loader.accepts E (archive_of body es) = true
  /\ (Loader.manifest_read E (archive_of body es)).1 = es
  /\ manifest_in (archive_of body es) = es.
Proof.
  intros Hwf Hlen. split_and!.
  - by apply accepts_archive.
  - by apply manifest_read_archive.
  - by apply manifest_in_small.
Qed.

Lemma loader_reads_back_manifest_witness :
  let E := Scenario.loader_env Scenario.archive_blocked in
  let es := [Scenario.entry 4 1 Ascii.zero (lit "Game\x.txt");
             Scenario.entry 5 1 "001"%char (lit "Game")] in
  Loader.accepts E (archive_of (lit "STUBxy") es) = true
  /\ (Loader.manifest_read E (archive_of (lit "STUBxy") es)).1 = es
  /\ manifest_in (archive_of (lit "STUBxy") es) = es.
Proof.
  intros E es.
  apply (loader_reads_back_manifest E (lit "STUBxy") es).
  - repeat constructor; vm_compute; congruence.
  - rewrite length_archive_of by (repeat constructor; vm_compute; congruence).
    vm_compute. discriminate.
Defined.

End FormatProperties.

(** ** The packer's runs *)

Section PackerProperties.
Import C Layout Packer Walk.

(** X4.  The exit codes of the packer.  A run that returns, returns 0 or 1:
    0 only when it had four arguments, could create the output, found a
    non-empty [loader.exe], and the main executable's name after its last
    backslash has less than [MAX_PATH] characters; 1 only when one of the
    first three failed.  With another number of arguments, an output that
    cannot be created, or a [loader.exe] that cannot be opened, it returns 1,
    before it has asked for any memory.  With the three in place and a name
    of [MAX_PATH] characters or more, [strcpy] writes past the end of
    [relative_path] and the run has no defined result. *)
Theorem packer_outcome (E : env) :
  let ready :=
    length (argv E) = 4%nat /\ out_exe_writable E = true
    /\ exists stub, loader_exe E = Some stub /\ stub <> [] in
  (forall r, main E = Returned r ->
     (exit_code r = 0 /\ ready
      /\ (length (base_name (arg E 2)) < MAX_PATH)%nat)
     \/ (exit_code r = 1 /\ ~ ready))
  /\ (length (argv E) <> 4%nat \/ out_exe_writable E = false
      \/ loader_exe E = None ->
      exists r, main E = Returned r /\ exit_code r = 1)
  /\ (ready -> (MAX_PATH <= length (base_name (arg E 2)))%nat ->
      forall r, main E <> Returned r).
Proof.
  cbv zeta.
  destruct (Nat.eqb_spec (length (argv E)) 4) as [Hargc|Hargc].
  2:{ assert (Hm : exists r, main E = Returned r /\ exit_code r = 1).
      { unfold main. destruct (Nat.eqb_spec (length (argv E)) 4); [done |].
        cbn [negb]. by eexists. }
      destruct Hm as (r0 & Hm & Hr0). split_and!.
      - intros r Hr. right. split; [congruence | by intros [? _]].
      - intros _. by exists r0.
      - by intros [? _]. }
  destruct (out_exe_writable E) eqn:Hout.
  2:{ assert (Hm : exists r, main E = Returned r /\ exit_code r = 1).
      { unfold main. rewrite Hargc, Hout. cbn [Nat.eqb negb]. by eexists. }
      destruct Hm as (r0 & Hm & Hr0). split_and!.
      - intros r Hr. right. split; [congruence | by intros (_ & ? & _)].
      - intros _. by exists r0.
      - by intros (_ & ? & _). }
  destruct (loader_exe E) as [stub|] eqn:Hstub.
  2:{ assert (Hm : exists r, main E = Returned r /\ exit_code r = 1).
      { unfold main. rewrite Hargc, Hout, Hstub. cbn [Nat.eqb negb].
        rewrite append_file_to_archive_eq. cbn [size set_size Z.eqb].
        by eexists. }
      destruct Hm as (r0 & Hm & Hr0). split_and!.
      - intros r Hr. right. split; [congruence | by intros (_ & _ & s & ? & _)].
      - intros _. by exists r0.
      - by intros (_ & _ & s & ? & _). }
  destruct stub as [|x stub].
  { assert (Hm : exists r, main E = Returned r /\ exit_code r = 1).
    { unfold main. rewrite Hargc, Hout, Hstub. cbn [Nat.eqb negb].
      rewrite append_file_to_archive_eq. cbn [size set_size set_offset length].
      change (to_u64 (ftell 0) =? 0) with true. by eexists. }
    destruct Hm as (r0 & Hm & Hr0). split_and!.
    - intros r Hr. right. split; [congruence |].
      intros (_ & _ & s & Hs & Hne). congruence.
    - intros [?|[?|?]]; done.
    - intros (_ & _ & s & Hs & Hne). congruence. }
  assert (Hne : x :: stub <> []) by done.
  assert (Hready : length (argv E) = 4%nat /\ true = true
                   /\ exists s, Some (x :: stub) = Some s /\ s <> []).
  { split_and!; try done. by exists (x :: stub). }
  pose proof (proj1 (stub_size_nonzero (x :: stub)) Hne) as Hsize.
  destruct (Nat.leb_spec MAX_PATH (length (base_name (arg E 2)))) as [Hb|Hb].
  - assert (Hm : main E = BufferOverrun).
    { unfold main. rewrite Hargc, Hout, Hstub. cbn [Nat.eqb negb].
      rewrite append_file_to_archive_eq. cbn [size set_size set_offset].
      destruct (Z.eqb_spec (to_u64 (ftell (length (x :: stub)))) 0) as [|_]; [done |].
      unfold malloc_node. fold (base_name (arg E 2)).
      destruct (Nat.leb_spec MAX_PATH (length (base_name (arg E 2)))); [done | lia]. }
    rewrite Hm. split_and!.
    + intros r Hr. discriminate Hr.
    + intros [?|[?|?]]; done.
    + intros _ _ r Hr. discriminate Hr.
  - rewrite (main_success_eq E (x :: stub)) by done. split_and!.
    + intros r Hr. injection Hr as <-. cbn [exit_code]. left.
      split; [done |]. split; [exact Hready | done].
    + intros [?|[?|?]]; done.
    + intros _ Hlong. lia.
Qed.

Lemma packer_outcome_witness :
  let E := Scenario.packer_A in
  let r := {| exit_code := 0; out_exe := Some (output E (lit "STUB"));
              stdout := transcript E |} in
  (exit_code r = 0
   /\ (length (argv E) = 4%nat /\ out_exe_writable E = true
       /\ exists stub, loader_exe E = Some stub /\ stub <> [])
   /\ (length (base_name (arg E 2)) < MAX_PATH)%nat)
  \/ (exit_code r = 1
      /\ ~ (length (argv E) = 4%nat /\ out_exe_writable E = true
            /\ exists stub, loader_exe E = Some stub /\ stub <> [])).
Proof.
  intros E r.
  destruct (packer_outcome E) as [H _].
  apply (H r). reflexivity.
Defined.

(** X5.  A run that fails on the loader stub has already created the output
    file: when [loader.exe] cannot be opened or is empty, the packer leaves
    an empty output file behind, packs nothing, and returns 1 after the
    error message. *)
Theorem missing_stub_leaves_empty_output (E : env) :
  length (argv E) = 4%nat -> out_exe_writable E = true ->
  loader_exe E = None \/ loader_exe E = Some [] ->
  main E
  = Returned
      {| exit_code := 1;
         out_exe := Some [];
         stdout :=
           [lit "Writing loader stub..."]
           ++ match loader_exe E with
              | None => [lit "Warning: Could not open file loader.exe"]
              | Some _ => []
              end
           ++ [lit "Error: loader.exe not found or is empty. Compile it first."] |}.
Proof.
  intros Hargc Hout Hstub. unfold main. rewrite Hargc, Hout.
  cbn [Nat.eqb negb]. rewrite append_file_to_archive_eq.
  destruct Hstub as [-> | ->]; reflexivity.
Qed.

Lemma missing_stub_witness :
  let E :=
    {| argv := [lit "packer.exe"; lit "pack"; lit "Game.exe"; lit "Out.exe"];
       loader_exe := None;
       pack_dir_listing := Scenario.tree_A;
       fopen_cut := fun _ => None;
       main_exe_file := Some (lit "MZgame");
       out_exe_writable := true;
       stack_entry := [];
       heap := fun _ => [] |} in
  main E
  = Returned
      {| exit_code := 1;
         out_exe := Some [];
         stdout :=
           [lit "Writing loader stub...";
            lit "Warning: Could not open file loader.exe";
            lit "Error: loader.exe not found or is empty. Compile it first."] |}.
Proof.
  intros E.
  apply (missing_stub_leaves_empty_output E); [reflexivity | reflexivity | by left].
Defined.

(** X6.  [append_file_to_archive] on a file that opens: whatever the length
    of the file is against the 1 MiB buffer, the archive grows by exactly
    the file's bytes and nothing is printed; the entry's path and flag are
    left alone; [offset] is the length of the archive before and [size] the
    length of the file, as long as each fits a [long], and 2^64 - 1 when it
    does not. *)
Theorem append_file_copies_whole_file (file_path bytes : list ascii)
    (entry : ManifestEntry) (st : state) :
  let r := append_file_to_archive file_path (Some bytes) entry st in
  f_archive r.2 = f_archive st ++ bytes
  /\ console r.2 = console st /\ head r.2 = head st
  /\ relative_path r.1 = relative_path entry
  /\ is_executable r.1 = is_executable entry
  /\ offset r.1
     = (if Z.of_nat (length (f_archive st)) <=? LONG_MAX
        then Z.of_nat (length (f_archive st)) else 2 ^ 64 - 1)
  /\ size r.1
     = (if Z.of_nat (length bytes) <=? LONG_MAX
        then Z.of_nat (length bytes) else 2 ^ 64 - 1).
Proof.
  cbv zeta. rewrite append_file_to_archive_eq.
  cbn [fst snd f_archive console head payload relative_path is_executable
       offset size set_size set_offset].
  assert (Hf : forall n, to_u64 (ftell n)
                         = if Z.of_nat n <=? LONG_MAX then Z.of_nat n else 2 ^ 64 - 1).
  { intros n. unfold ftell. destruct (Z.leb_spec (Z.of_nat n) LONG_MAX) as [Hle|_].
    - unfold to_u64, LONG_MAX in *. rewrite Z.mod_small; lia.
    - reflexivity. }
  rewrite app_nil_r, !Hf. done.
Qed.

(** X7.  [walk_directory] only links new nodes in front of the list, and
    every node it links is a sound [ManifestEntry]: not flagged executable,
    [relative_path] still [MAX_PATH] bytes long and holding a terminated
    string, since [snprintf] has cut the path to [MAX_PATH - 1] characters
    before [strcpy] copies it. *)
Theorem walk_links_sound_nodes (E : env) (base_path current_path : list ascii)
    (entries : list dirent) (st : state) :
  exists nodes,
    head (walk_directory E base_path current_path entries st) = nodes ++ head st
    /\ Forall
         (fun e =>
            entry_wf e /\ is_executable e = Ascii.zero
            /\ (strlen (relative_path e) < MAX_PATH)%nat)
         nodes.
Proof.
  rewrite walk_directory_flat, fold_pack_file_eq. cbn [head].
  eexists. split; [reflexivity |].
  apply Forall_rev.
  pose proof (walked_files_short (fopen_cut E) base_path current_path entries)
    as Hshort.
  revert Hshort.
  generalize (walked_files (fopen_cut E) base_path current_path entries).
  generalize (mallocs st) (length (f_archive st)).
  intros n pos ws Hws. revert n pos.
  induction Hws as [|w ws Hw _ IH]; intros n pos; [constructor |].
  cbn [entries_for]. constructor; [| apply IH].
  split_and!.
  - by apply entry_for_wf.
  - apply is_executable_entry_for.
  - unfold strlen. rewrite relative_path_entry_for.
    pose proof (cstr_is_no_nul (w_relative w)) as _.
    assert (Hc : forall s, (length (cstr s) <= length s)%nat).
    { induction s as [|c s IHs]; [done |]. cbn [cstr].
      destruct (Ascii.eqb c NUL); cbn [length]; lia. }
    specialize (Hc (w_relative w)). lia.
Qed.

End PackerProperties.

(** ** The walk and the memory it writes out *)

Section WalkProperties.
Import C Layout Packer Walk.

(** X8.  What [walk_directory] packs, called as [main] calls it, for a
    well-formed tree in which every path [base_path\current_path\name]
    handed to [fopen] and every search pattern is whole: one node for every
    regular file of the tree, at any depth, and none for a directory, so that
    an empty directory leaves no trace in the archive; the archive grows by
    the bytes of the files that open, one after the other in the order of the
    enumeration, depth first, and by nothing for a file that does not
    open. *)
Theorem walk_packs_the_regular_files (E : env) (base_path : list ascii)
    (entries : list dirent) (st : state) :
  wf_listing entries = true ->
  (forall kd, In kd (tree_files entries) ->
     (length base_path + 2 + length (join kd.1) < MAX_PATH)%nat) ->
  patterns_fit base_path entries ->
  let st' := walk_directory E base_path [] entries st in
  f_archive st'
  = f_archive st
    ++ concat (map (fun kd : list (list ascii) * (list ascii * bool) =>
                   if kd.2.2 then kd.2.1 else [])
                (tree_files entries))
  /\ length (head st') = (length (tree_files entries) + length (head st))%nat
  /\ mallocs st' = (mallocs st + length (tree_files entries))%nat.
Proof.
  intros Hwf Hopen _. cbv zeta. rewrite walk_directory_flat, fold_pack_file_eq.
  cbn [f_archive head mallocs].
  rewrite length_app, length_rev, length_entries_for, walked_files_length.
  split_and!; [| done | done].
  f_equal. unfold payloads.
  rewrite <- (map_map w_data payload), walk_data_with_tree, map_map.
  - f_equal. apply map_ext. intros kd. destruct kd as [k [b o]]. by destruct o.
  - done.
  - intros kd Hin. specialize (Hopen kd Hin). cbn [app]. lia.
  - intros kd Hin. cbn [app]. by apply Hopen.
Qed.

Lemma walk_packs_witness :
  let E := Scenario.packer_A in
  let st := {| f_archive := lit "STUB"; console := []; head := [];
               mallocs := 0 |} in
  let st' := walk_directory E (lit "pack") [] Scenario.tree_A st in
  f_archive st'
  = lit "STUB"
    ++ concat (map (fun kd : list (list ascii) * (list ascii * bool) =>
                   if kd.2.2 then kd.2.1 else [])
                (tree_files Scenario.tree_A))
  /\ length (head st') = (length (tree_files Scenario.tree_A) + 0)%nat
  /\ mallocs st' = (0 + length (tree_files Scenario.tree_A))%nat.
Proof.
  intros E st.
  apply (walk_packs_the_regular_files E (lit "pack") Scenario.tree_A st).
  - vm_compute. reflexivity.
  - intros kd Hin. vm_compute in Hin. destruct Hin as [<-|[]]. vm_compute. lia.
  - split; [vm_compute; lia |].
    intros d Hin. vm_compute in Hin. destruct Hin as [<-|[]]. vm_compute. lia.
Defined.

Lemma nth_error_entries_for E ws :
  forall n pos i w,
    nth_error ws i = Some w ->
    exists pos',
      nth_error (entries_for E n pos ws) i
      = Some (entry_for E (n + i) pos' Ascii.zero (w_relative w) (w_data w)).
Proof.
  induction ws as [|w0 ws IH]; intros n pos [|i] w Hw; try done.
  - injection Hw as <-. exists pos. cbn [entries_for nth_error].
    by rewrite Nat.add_0_r.
  - cbn [nth_error] in Hw.
    destruct (IH (S n) (pos + length (payload (w_data w0)))%nat i w Hw) as (pos' & H).
    exists pos'. cbn [entries_for nth_error]. rewrite H.
    do 2 f_equal. lia.
Qed.

Lemma skipn_strcpy dst src :
  skipn (S (length src)) (strcpy dst src) = skipn (S (length src)) dst.
Proof.
  unfold strcpy.
  change (src ++ NUL :: skipn (S (length src)) dst)
    with (src ++ [NUL] ++ skipn (S (length src)) dst).
  rewrite app_assoc. apply skipn_app_exact.
  rewrite length_app. cbn [length]. lia.
Qed.

(** X9.  The packer writes memory it never set.  A node comes from [malloc]
    and is written to the archive whole: in the entry of the [i]-th walked
    file the bytes of [relative_path] after the terminator are those of the
    [i]-th fresh block, and so is [offset] when the file could not be
    opened; the same holds for the main executable's entry. *)
Theorem heap_bytes_reach_the_archive (E : env) (r : result) :
  main E = Returned r -> exit_code r = 0 ->
  exists stub produced exe,
    out_exe r = Some (archive_of (body E stub) (exe :: rev produced))
    /\ length produced = length (walk E)
    /\ (forall i w e,
          nth_error (walk E) i = Some w -> nth_error produced i = Some e ->
          let fresh :=
            entry_of_bytes (uninitialised sizeof_ManifestEntry (heap E i)) in
          skipn (S (length (w_relative w))) (relative_path e)
          = skipn (S (length (w_relative w))) (relative_path fresh)
          /\ (w_data w = None -> offset e = offset fresh))
    /\ (let fresh :=
          entry_of_bytes
            (uninitialised sizeof_ManifestEntry (heap E (length (walk E)))) in
        skipn (S (length (base_name (arg E 2)))) (relative_path exe)
        = skipn (S (length (base_name (arg E 2)))) (relative_path fresh)
        /\ (main_exe_file E = None -> offset exe = offset fresh)).
Proof.
  intros Hmain Hcode.
  destruct (main_success E r Hmain Hcode)
    as (stub & Hstub & Hne & Hargc & Hbase & Hout & _).
  exists stub, (entries_for E 0 (length stub) (walk E)), (exe_entry E stub).
  split_and!.
  - exact Hout.
  - apply length_entries_for.
  - intros i w e Hw He.
    destruct (nth_error_entries_for E (walk E) 0 (length stub) i w Hw) as (pos' & H).
    rewrite H in He. injection He as <-. cbn [Nat.add].
    unfold entry_for. split.
    + destruct (w_data w); cbn [relative_path set_size set_offset set_is_executable
                                 set_relative_path]; apply skipn_strcpy.
    + by intros ->.
  - cbv zeta. unfold exe_entry, entry_for. split.
    + destruct (main_exe_file E); cbn [relative_path set_size set_offset
                                       set_is_executable set_relative_path];
        apply skipn_strcpy.
    + by intros ->.
Qed.

Lemma heap_bytes_witness :
  exists stub produced exe,
    out_exe {| exit_code := 0;
               out_exe := Some Scenario.archive_locked;
               stdout := transcript Scenario.packer_locked |}
    = Some (archive_of (body Scenario.packer_locked stub) (exe :: rev produced))
    /\ length produced = length (walk Scenario.packer_locked)
    /\ (forall i w e,
          nth_error (walk Scenario.packer_locked) i = Some w ->
          nth_error produced i = Some e ->
          let fresh :=
            entry_of_bytes
              (uninitialised sizeof_ManifestEntry (heap Scenario.packer_locked i)) in
          skipn (S (length (w_relative w))) (relative_path e)
          = skipn (S (length (w_relative w))) (relative_path fresh)
          /\ (w_data w = None -> offset e = offset fresh))
    /\ (let fresh :=
          entry_of_bytes
            (uninitialised sizeof_ManifestEntry
               (heap Scenario.packer_locked (length (walk Scenario.packer_locked)))) in
        skipn (S (length (base_name (arg Scenario.packer_locked 2)))) (relative_path exe)
        = skipn (S (length (base_name (arg Scenario.packer_locked 2))))
            (relative_path fresh)
        /\ (main_exe_file Scenario.packer_locked = None -> offset exe = offset fresh)).
Proof.
  apply (heap_bytes_reach_the_archive Scenario.packer_locked); reflexivity.
Defined.

End WalkProperties.

(** ** The loader's reads *)

Section LoaderReads.
Import C Layout FS Loader Walk.

Lemma fread_at_end n data :
  fread n {| r_data := data; r_pos := length data |}
  = ([], {| r_data := data; r_pos := length data |}).
Proof.
  unfold fread. cbn [r_data r_pos].
  rewrite skipn_all, firstn_nil. cbn [length]. by rewrite Nat.add_0_r.
Qed.

Lemma load_overlay_nil old start len : load (overlay [] old) start len = load old start len.
Proof. unfold load, overlay. apply map_ext. by intros [|i]. Qed.

(** X10.  An archive whose payload ends beyond [LONG_MAX].  The packer takes
    [manifest_offset] from [ftell], which reports -1, and writes 2^64 - 1 into
    the footer.  The loader accepts the file, its seek to that offset fails,
    the stream stays at the end of the file, and [entry_count] is not read:
    the number of entries the loader goes through is what its stack variable
    held before. *)
Theorem archive_beyond_long_max (PE : Packer.env) (r : Packer.result)
    (a stub : list ascii) (LE : Loader.env) :
  Packer.main PE = Packer.Returned r -> Packer.exit_code r = 0 ->
  Packer.out_exe r = Some a ->
  Packer.loader_exe PE = Some stub ->
  LONG_MAX < Z.of_nat (length (body PE stub)) ->
  manifest_offset (footer_in a) = 2 ^ 64 - 1
  /\ accepts LE a = true
  /\ length (manifest_read LE a).1
     = Z.to_nat (le_value (load (stack_entry_count LE) 0 8)).
Proof.
  intros Hmain Hcode Hout Hstub Hlong.
  destruct (main_success PE r Hmain Hcode)
    as (stub' & Hstub' & Hne & Hargc & Hbase & Hout' & _).
  assert (stub' = stub) as -> by congruence.
  assert (a = archive_of (body PE stub) (manifest PE stub)) as ->
    by (unfold output in *; congruence).
  pose proof (manifest_wf PE stub Hbase) as Hwf.
  assert (Hoff : manifest_offset (footer_in (archive_of (body PE stub) (manifest PE stub)))
                 = 2 ^ 64 - 1).
  { rewrite footer_in_archive_of by done. cbn [manifest_offset].
    unfold ftell. destruct (Z.leb_spec (Z.of_nat (length (body PE stub))) LONG_MAX);
      [lia | reflexivity]. }
  split_and!; [done | by apply accepts_archive |].
  unfold manifest_read. rewrite read_footer_eq.
  2:{ rewrite length_archive_of by done. unfold sizeof_ArchiveFooter. lia. }
  unfold read_manifest. rewrite Hoff.
  change (to_long (2 ^ 64 - 1)) with (-1).
  unfold fseek_set. cbn [Z.leb Z.compare].
  rewrite fread_at_end, load_overlay_nil, fread_at_end.
  cbn [fst]. by rewrite length_map, length_seq.
Qed.

Lemma archive_beyond_long_max_witness :
  let PE := Scenario.packer_huge in
  let LE := Scenario.loader_env (output PE (lit "STUB")) in
  manifest_offset (footer_in (output PE (lit "STUB"))) = 2 ^ 64 - 1
  /\ accepts LE (output PE (lit "STUB")) = true
  /\ length (manifest_read LE (output PE (lit "STUB"))).1
     = Z.to_nat (le_value (load (stack_entry_count LE) 0 8)).
Proof.
  intros PE LE.
  assert (Hbase : (length (base_name (Packer.arg PE 2)) < MAX_PATH)%nat)
    by (lazy; lia).
  apply (archive_beyond_long_max PE
           {| Packer.exit_code := 0;
              Packer.out_exe := Some (output PE (lit "STUB"));
              Packer.stdout := transcript PE |}
           (output PE (lit "STUB")) (lit "STUB") LE).
  - apply main_success_eq; [reflexivity | reflexivity | reflexivity | | exact Hbase].
    change (length (lit "STUB")) with 4%nat. lazy. discriminate.
  - reflexivity.
  - reflexivity.
  - reflexivity.
  - unfold body. rewrite !length_app.
    change (Packer.main_exe_file PE) with (Some Scenario.two_gib).
    cbn [payload]. unfold Scenario.two_gib. rewrite repeat_length.
    rewrite !Nat2Z.inj_add, Z2Nat.id by lia. unfold LONG_MAX. lia.
Defined.

Lemma skipn_map_seq {A} (f : nat -> A) a b n :
  skipn a (map f (seq n (a + b))) = map f (seq (n + a) b).
Proof.
  rewrite skipn_map, skipn_seq. by replace (a + b - a)%nat with b by lia.
Qed.

(** X11.  A file too short to hold a footer.  The seek to 16 bytes before
    the end fails and [fread] finds fewer than 16 bytes; for a file of at most
    8 bytes (an empty one, say) the magic the loader tests is what the second
    half of its [footer] variable held before: the file is taken for an
    archive exactly when that stale memory spells the signature. *)
Theorem short_file_is_judged_by_stack_memory (E : env) (data : list ascii) :
  self E = Some data -> (length data <= 8)%nat ->
  accepts E data = (strcmp (load (stack_footer E) 8 8) MAGIC_BYTES =? 0)
  /\ (cstr (load (stack_footer E) 8 8) <> MAGIC_BYTES ->
      exit_code (main E) = 2 /\ final (main E) = disk E)
  /\ (cstr (load (stack_footer E) 8 8) = MAGIC_BYTES ->
      extracted (main E) = fs (extraction E data)).
Proof.
  intros Hs Hlen.
  assert (Ha : accepts E data = (strcmp (load (stack_footer E) 8 8) MAGIC_BYTES =? 0)).
  { unfold accepts, read_footer, fseek_end, fread. cbn [r_data r_pos].
    change (to_long (to_u64 (- Z.of_nat sizeof_ArchiveFooter))) with (-16).
    destruct (Z.leb_spec 0 (Z.of_nat (length data) + -16)) as [|_]; [lia |].
    cbn [r_data r_pos fst magic footer_of_bytes skipn].
    do 2 f_equal.
    match goal with
    | |- context [Z.to_nat ?x] =>
        replace (Z.to_nat x) with (length data)
          by (unfold sizeof_ArchiveFooter; lia)
    end.
    rewrite firstn_all. unfold load at 1.
    change sizeof_ArchiveFooter with (8 + 8)%nat.
    rewrite skipn_map_seq. cbn [Nat.add].
    rewrite firstn_all2 by (by rewrite length_map, length_seq).
    unfold load. apply map_ext_in. intros i Hi. apply in_seq in Hi.
    unfold overlay. apply nth_overflow. rewrite length_skipn. lia. }
  split_and!; [done | |].
  - intros Hm. rewrite (main_rejects E data); [done | done |].
    rewrite Ha. apply Z.eqb_neq. rewrite strcmp_0. exact Hm.
  - intros Hm. apply extracted_eq; [done |].
    rewrite Ha. apply Z.eqb_eq. rewrite strcmp_0. exact Hm.
Qed.

Lemma short_file_witness :
  let E :=
    {| self := Some [];
       temp_dir := lit "C:\Temp\d2e1.tmp";
       cmd_line := lit "Out.exe";
       disk := Scenario.disk0;
       CreateProcessA := fun _ _ _ m => Some (42, m);
       stack_footer := mem_of (repeat "205"%char 8 ++ MAGIC_BYTES);
       stack_entry_count := fun _ => NUL;
       heap_manifest := fun _ => NUL;
       heap_buffer := fun _ => NUL |} in
  accepts E [] = (strcmp (load (stack_footer E) 8 8) MAGIC_BYTES =? 0)
  /\ (cstr (load (stack_footer E) 8 8) <> MAGIC_BYTES ->
      exit_code (main E) = 2 /\ final (main E) = disk E)
  /\ (cstr (load (stack_footer E) 8 8) = MAGIC_BYTES ->
      extracted (main E) = fs (extraction E [])).
Proof.
  intros E.
  apply (short_file_is_judged_by_stack_memory E []); [reflexivity | cbn; lia].
Defined.

End LoaderReads.

(** ** The extraction loop *)

Section ExtractionProperties.
Import C Layout FS Loader Walk.



Lemma fuel_suffices z :
  z <= Z.of_nat (S (Z.to_nat (z / Loader.BUFFER_SIZE))) * Loader.BUFFER_SIZE.
Proof.
  pose proof loader_BUFFER_SIZE_pos as HB.
  destruct (Z.le_gt_cases 0 z) as [Hz|Hz].
  - pose proof (Z.div_pos z _ Hz HB) as Hq.
    rewrite Nat2Z.inj_succ, Z2Nat.id by done.
    pose proof (Z.mul_succ_div_gt z _ HB). lia.
  - lia.
Qed.



Lemma manifest_read_data E data : r_data (manifest_read E data).2 = data.
Proof.
  unfold manifest_read, read_footer, read_manifest, fseek_end, fseek_set, fread.
  cbn [r_data r_pos].
  repeat (match goal with
          | |- context [if ?c then _ else _] => destruct c
          end; cbn [r_data r_pos fst snd]); reflexivity.
Qed.

(** X13.  An entry whose range lies within the file, at an offset that
    [fseek] can take, is extracted as exactly those bytes of the file, for
    any manifest, and the file keeps them to the end of the loop unless a
    later entry names the same path. *)
Theorem entry_in_range_is_extracted_exactly (E : env) (data : list ascii)
    (before after : list ManifestEntry) (e : ManifestEntry) (k : key) :
  self E = Some data -> accepts E data = true ->
  (manifest_read E data).1 = before ++ e :: after ->
  fopen_wb (out_path_of E e)
    (subdirectories E e
       (fs (fold_left (extract_entry E) before (extraction_start E data))))
  = Some k ->
  0 <= offset e <= LONG_MAX -> 0 <= size e ->
  offset e + size e <= Z.of_nat (length data) ->
  Forall (fun e' => resolve (out_path_of E e') <> k) after ->
  extracted (main E) !! k
  = Some (FileN (firstn (Z.to_nat (size e)) (skipn (Z.to_nat (offset e)) data))).
Proof.
  intros Hs Ha Hm Ho Hoff Hsize Hrange Hafter.
  rewrite (extracted_eq E data Hs Ha). unfold extraction.
  rewrite Hm, fold_left_app. cbn [fold_left].
  set (st := fold_left (extract_entry E) before (extraction_start E data)) in *.
  apply extraction_frame;
    [| eapply List.Forall_impl; [| exact Hafter]; intros e' H H'; by apply H ].
  rewrite extract_entry_eq. rewrite Ho.
  assert (Hd : r_data (f_self st) = data).
  { unfold st. rewrite extraction_data. apply manifest_read_data. }
  rewrite to_long_small by done.
  unfold fseek_set. destruct (Z.leb_spec 0 (offset e)) as [_|]; [| lia].
  rewrite Hd.
  destruct (copy_loop_exact (S (Z.to_nat (size e / Loader.BUFFER_SIZE))) (size e)
              data (Z.to_nat (offset e)) (buffer st) []) as (buf' & ->).
  - split; [done | apply fuel_suffices].
  - lia.
  - cbn [fs app]. by rewrite lookup_insert_eq.
Qed.

Lemma entry_in_range_witness :
  let E := Scenario.loader_env Scenario.archive_blocked in
  let e := Scenario.entry 4 1 Ascii.zero (lit "Game\x.txt") in
  extracted (main E) !! (Scenario.root ++ [lit "Game"; lit "x.txt"])
  = Some (FileN (firstn (Z.to_nat (size e))
                   (skipn (Z.to_nat (offset e)) Scenario.archive_blocked))).
Proof.
  intros E e.
  apply (entry_in_range_is_extracted_exactly E Scenario.archive_blocked []
           [Scenario.entry 5 1 "001"%char (lit "Game")] e).
  - reflexivity.
  - vm_compute. reflexivity.
  - vm_compute. reflexivity.
  - vm_compute. reflexivity.
  - vm_compute. split; discriminate.
  - vm_compute. discriminate.
  - vm_compute. discriminate.
  - repeat constructor. vm_compute. discriminate.
Defined.

(** X14.  Only the low 32 bits of [offset] count.  [fseek] takes a [long]:
    two entries whose offsets differ by a multiple of 2^32 are extracted
    alike, and for an offset from 2^31 up to 2^32 the seek fails, so that the
    bytes are taken from where the stream stands. *)
Theorem offset_is_used_modulo_2_32 (E : env) (st : state) (e : ManifestEntry) :
  (forall n, extract_entry E st (set_offset (offset e + n * 2 ^ 32) e)
             = extract_entry E st e)
  /\ (2 ^ 31 <= offset e < 2 ^ 32 ->
      Z.of_nat (r_pos (f_self st)) <= LONG_MAX ->
      extract_entry E st e
      = extract_entry E st (set_offset (Z.of_nat (r_pos (f_self st))) e)).
Proof.
  split.
  - intros n. rewrite !extract_entry_eq.
    unfold rewritten_path, out_path_of, subdirectories, out_path_of.
    cbn [offset size is_executable relative_path set_offset].
    replace (to_long (offset e + n * 2 ^ 32)) with (to_long (offset e)); [done |].
    unfold to_long.
    replace (offset e + n * 2 ^ 32 + 2 ^ 31) with (offset e + 2 ^ 31 + n * 2 ^ 32) by lia.
    by rewrite Z.mod_add.
  - intros Hoff Hpos. rewrite !extract_entry_eq.
    unfold rewritten_path, out_path_of, subdirectories, out_path_of.
    cbn [offset size is_executable relative_path set_offset].
    replace (fseek_set (to_long (Z.of_nat (r_pos (f_self st)))) (f_self st))
      with (fseek_set (to_long (offset e)) (f_self st)); [done |].
    rewrite (to_long_small (Z.of_nat _)) by lia.
    assert (Hneg : to_long (offset e) < 0).
    { unfold to_long.
      replace (offset e + 2 ^ 31) with (offset e - 2 ^ 31 + 1 * 2 ^ 32) by lia.
      rewrite Z.mod_add, Z.mod_small by lia. lia. }
    unfold fseek_set.
    destruct (Z.leb_spec 0 (to_long (offset e))); [lia |].
    destruct (Z.leb_spec 0 (Z.of_nat (r_pos (f_self st)))); [| lia].
    rewrite Nat2Z.id. by destruct (f_self st).
Qed.

Lemma offset_modulo_witness :
  let E := Scenario.loader_env Scenario.archive_A in
  let st := extraction_start E Scenario.archive_A in
  let e := Scenario.entry (2 ^ 31 + 4) 2 Ascii.zero (lit "a.bin") in
  (forall n, extract_entry E st (set_offset (offset e + n * 2 ^ 32) e)
             = extract_entry E st e)
  /\ extract_entry E st e
     = extract_entry E st (set_offset (Z.of_nat (r_pos (f_self st))) e).
Proof.
  intros E st e.
  destruct (offset_is_used_modulo_2_32 E st e) as [H1 H2].
  split; [exact H1 |].
  apply H2; [vm_compute; split; [discriminate | reflexivity] | vm_compute; discriminate].
Defined.

End ExtractionProperties.

(** ** What the extraction keeps and what the loader starts *)

Section LaunchProperties.
Import C Layout FS Loader Walk.

Lemma fopen_wb_Some path m k :
  fopen_wb path m = Some k ->
  k = resolve path /\ is_dir m (parent k) = true /\ is_dir m k = false.
Proof.
  unfold fopen_wb.
  destruct (is_dir m (parent (resolve path))) eqn:Hp; [| done].
  destruct (is_dir m (resolve path)) eqn:Hd; [done |].
  cbn [andb negb]. by intros [= <-].
Qed.

Lemma extract_entry_keeps E st e q v :
  fs st !! q = Some v ->
  exists v',
    fs (extract_entry E st e) !! q = Some v'
    /\ (v = DirN <-> v' = DirN)
    /\ (resolve (out_path_of E e) <> q -> v' = v).
Proof.
  intros Hq.
  assert (Hsub : subdirectories E e (fs st) !! q = Some v)
    by (by apply create_subdirectories_keeps).
  rewrite extract_entry_eq.
  destruct (fopen_wb (out_path_of E e) (subdirectories E e (fs st))) as [k|] eqn:Ho.
  2:{ exists v. cbn [fs]. done. }
  destruct (copy_loop _ _ _ _ _) as [[w f] b]. cbn [fs].
  apply fopen_wb_Some in Ho as (Hk & _ & Hd).
  destruct (decide (q = k)) as [->|Hne].
  - exists (FileN w). rewrite lookup_insert_eq. split_and!; [done | | by rewrite Hk].
    split; [| done]. intros ->. unfold is_dir in Hd.
    destruct k; [done |]. by rewrite Hsub in Hd.
  - exists v. rewrite lookup_insert_ne by done. done.
Qed.

Lemma extraction_keeps_nodes E es :
  forall st q v,
    fs st !! q = Some v ->
    exists v',
      fs (fold_left (extract_entry E) es st) !! q = Some v'
      /\ (v = DirN <-> v' = DirN).
Proof.
  induction es as [|e es IH]; intros st q v Hq.
  - exists v. done.
  - cbn [fold_left].
    destruct (extract_entry_keeps E st e q v Hq) as (v1 & H1 & Hd1 & _).
    destruct (IH _ _ _ H1) as (v2 & H2 & Hd2).
    exists v2. split; [done | by rewrite Hd1].
Qed.

(** X15.  The extraction loop removes nothing.  Whatever the manifest holds,
    a node that exists stays: a directory stays a directory, a file stays a
    file, and a file keeps its bytes unless an entry names its path. *)
Theorem extraction_never_removes (E : env) (es : list ManifestEntry)
    (st : state) (q : key) (v : node) :
  fs st !! q = Some v ->
  exists v',
    fs (fold_left (extract_entry E) es st) !! q = Some v'
    /\ (v = DirN <-> v' = DirN)
    /\ (Forall (fun e => resolve (out_path_of E e) <> q) es -> v' = v).
Proof.
  revert st v. induction es as [|e es IH]; intros st v Hq.
  - exists v. done.
  - cbn [fold_left].
    destruct (extract_entry_keeps E st e q v Hq) as (v1 & H1 & Hd1 & He1).
    destruct (IH _ _ H1) as (v2 & H2 & Hd2 & He2).
    exists v2. split_and!; [done | by rewrite Hd1 |].
    intros Hall. apply Forall_cons in Hall as [Hne Hall].
    by rewrite He2, He1.
Qed.

Lemma extraction_never_removes_witness :
  let E := Scenario.loader_env Scenario.archive_B in
  let es := [Scenario.entry 4 7 "001"%char (lit "..\..\evil.exe")] in
  exists v',
    fs (fold_left (extract_entry E) es (extraction_start E Scenario.archive_B))
    !! [lit "C:"; lit "Temp"] = Some v'
    /\ (DirN = DirN <-> v' = DirN)
    /\ (Forall (fun e => resolve (out_path_of E e) <> [lit "C:"; lit "Temp"]) es ->
        v' = DirN).
Proof.
  intros E es.
  apply (extraction_never_removes E es (extraction_start E Scenario.archive_B)
           [lit "C:"; lit "Temp"] DirN).
  vm_compute. reflexivity.
Defined.

Lemma extraction_unfold E data :
  extraction E data
  = fold_left (extract_entry E) (manifest_read E data).1 (extraction_start E data).
Proof. reflexivity. Qed.

(** The state of the loop and the entries gone through so far. *)
Lemma launch_invariant E es :
  forall st done_,
    (main_exe_path st = []
     \/ exists e w,
          In e done_ /\ is_executable e <> Ascii.zero
          /\ main_exe_path st = rewritten_path E e
          /\ fs st !! resolve (out_path_of E e) = Some (FileN w)) ->
    let st' := fold_left (extract_entry E) es st in
    main_exe_path st' = []
    \/ exists e w,
         In e (done_ ++ es) /\ is_executable e <> Ascii.zero
         /\ main_exe_path st' = rewritten_path E e
         /\ fs st' !! resolve (out_path_of E e) = Some (FileN w).
Proof.
  induction es as [|e es IH]; intros st done_ Hst; cbv zeta.
  - rewrite app_nil_r. exact Hst.
  - cbn [fold_left].
    replace (done_ ++ e :: es) with ((done_ ++ [e]) ++ es) by (by rewrite <- app_assoc).
    apply IH.
    assert (Hold : forall e0 w0,
               fs st !! resolve (out_path_of E e0) = Some (FileN w0) ->
               exists w1, fs (extract_entry E st e) !! resolve (out_path_of E e0)
                          = Some (FileN w1)).
    { intros e0 w0 H0.
      destruct (extract_entry_keeps E st e _ _ H0) as (v' & Hv & Hd & _).
      destruct v' as [w1|]; [by exists w1 |].
      discriminate (proj2 Hd eq_refl). }
    rewrite !extract_entry_eq in *.
    destruct (fopen_wb (out_path_of E e) (subdirectories E e (fs st))) as [k|] eqn:Ho.
    + destruct (copy_loop _ _ _ _ _) as [[w f] b]. cbn [fs main_exe_path] in *.
      destruct (Ascii.eqb_spec (is_executable e) Ascii.zero) as [Hz|Hnz].
      * destruct Hst as [Hst|(e0 & w0 & Hin & Hf & Hp & Hfile)]; [by left |].
        right. destruct (Hold e0 w0 Hfile) as (w1 & Hw1).
        exists e0, w1. rewrite in_app_iff. split_and!; try done. by left.
      * right. exists e, w. rewrite in_app_iff. split_and!; try done.
        -- right. by left.
        -- apply fopen_wb_Some in Ho as (-> & _). by rewrite lookup_insert_eq.
    + cbn [fs main_exe_path] in *.
      destruct Hst as [Hst|(e0 & w0 & Hin & Hf & Hp & Hfile)]; [by left |].
      right. destruct (Hold e0 w0 Hfile) as (w1 & Hw1).
      exists e0, w1. rewrite in_app_iff. split_and!; try done. by left.
Qed.

(** X16.  What the loader starts.  When a child is started, its command
    line is the loader's own and its working directory the temporary
    directory; the application is the path of an entry of the manifest that
    is flagged executable, and at that path the extraction has left a file.
    An entry that is not flagged is never started. *)
Theorem launched_program_is_a_flagged_entry (E : env)
    (app cl wd : list ascii) :
  launched (main E) = Some (app, cl, wd) ->
  cl = cmd_line E /\ wd = temp_dir E
  /\ exists data e written,
       self E = Some data
       /\ In e (manifest_read E data).1
       /\ is_executable e <> Ascii.zero
       /\ resolve app = resolve (out_path_of E e)
       /\ extracted (main E) !! resolve app = Some (FileN written).
Proof.
  intros Hl.
  destruct (self E) as [data|] eqn:Hs.
  2:{ unfold main in Hl. rewrite Hs in Hl. cbn [launched] in Hl. discriminate Hl. }
  destruct (accepts E data) eqn:Ha.
  2:{ rewrite (main_rejects E data Hs Ha) in Hl. cbn [launched] in Hl.
      discriminate Hl. }
  rewrite (extracted_eq E data Hs Ha).
  destruct (main_exe_path (extraction E data)) as [|ch p] eqn:Hp.
  { rewrite (main_not_launched E data Hs Ha (or_introl Hp)) in Hl.
    cbn [launched] in Hl. discriminate Hl. }
  destruct (CreateProcessA E (main_exe_path (extraction E data)) (cmd_line E)
              (temp_dir E) (fs (extraction E data))) as [[code m']|] eqn:Hc.
  2:{ rewrite (main_not_launched E data Hs Ha (or_intror Hc)) in Hl.
      cbn [launched] in Hl. discriminate Hl. }
  assert (Hnil : main_exe_path (extraction E data) <> []) by (by rewrite Hp).
  rewrite (main_launched E data code m' Hs Ha Hnil Hc) in Hl. clear Hnil.
  cbn [launched] in Hl.
  assert (Happ : app = main_exe_path (extraction E data)) by congruence.
  assert (Hcl : cl = cmd_line E) by congruence.
  assert (Hwd : wd = temp_dir E) by congruence.
  clear Hl. subst app cl wd.
  split_and!; [done | done |].
  pose proof (launch_invariant E (manifest_read E data).1
                (extraction_start E data) [] (or_introl eq_refl)) as Hinv.
  cbv zeta in Hinv. rewrite <- extraction_unfold in Hinv.
  destruct Hinv as [Hnil|(e & w & Hin & Hf & Hpath & Hfile)]; [congruence |].
  rewrite app_nil_l in Hin.
  exists data, e, w. rewrite Hpath.
  rewrite (resolve_alike _ _ (rewritten_path_alike E e)).
  split; [reflexivity |]. split; [exact Hin |]. split; [exact Hf |].
  split; [reflexivity | exact Hfile].
Qed.

Lemma launched_program_witness :
  let E := Scenario.loader_env Scenario.archive_A in
  cmd_line E = cmd_line E /\ temp_dir E = temp_dir E
  /\ exists data e written,
       self E = Some data
       /\ In e (manifest_read E data).1
       /\ is_executable e <> Ascii.zero
       /\ resolve (lit "C:\Temp\d2e1.tmp\Game.exe") = resolve (out_path_of E e)
       /\ extracted (main E) !! resolve (lit "C:\Temp\d2e1.tmp\Game.exe")
          = Some (FileN written).
Proof.
  intros E.
  apply (launched_program_is_a_flagged_entry E (lit "C:\Temp\d2e1.tmp\Game.exe")
           (cmd_line E) (temp_dir E)).
  vm_compute. reflexivity.
Defined.

End LaunchProperties.

(** ** What the loader does not check *)

Section Validation.
Import C Layout FS Loader Walk.



End Validation.

(** ** The clean-up *)

Section CleanupFacts.
Import C Layout FS Cleanup Loader.

Lemma tree_below_spec root m :
  tree_below root m = true ->
  forall k v, m !! k = Some v -> root `prefix_of` parent k ->
    is_dir m (parent k) = true.
Proof.
  unfold tree_below. rewrite forallb_forall. intros H k v Hk Hp.
  apply elem_of_map_to_list in Hk. apply list_elem_of_In in Hk.
  specialize (H _ Hk). cbn [fst] in H. unfold inside in H.
  by rewrite bool_decide_eq_true_2 in H.
Qed.

Lemma is_dir_Some m k : is_dir m k = true -> k <> [] -> m !! k = Some DirN.
Proof.
  unfold is_dir. destruct k as [|c k]; [done |].
  destruct (m !! (c :: k)) as [[b|]|]; done.
Qed.

Lemma prefix_parent (c k : key) : c `prefix_of` k -> c <> k -> c `prefix_of` parent k.
Proof.
  intros [r ->] Hne. destruct r as [|x r] using rev_ind.
  - by rewrite app_nil_r in Hne.
  - unfold parent. rewrite app_assoc, removelast_last. by exists r.
Qed.

Lemma parent_prefix (k : key) : parent k `prefix_of` k.
Proof.
  destruct k as [|x k] using rev_ind; [done |].
  unfold parent. rewrite removelast_last. by exists [x].
Qed.

Lemma length_parent (k : key) : k <> [] -> S (length (parent k)) = length k.
Proof.
  destruct k as [|x k] using rev_ind; [done |]. intros _.
  unfold parent. rewrite removelast_last, length_app. cbn [length]. lia.
Qed.

(** In a tree, what lies above a node is a directory. *)
Lemma tree_chain path m :
  (forall k v, m !! k = Some v -> path `prefix_of` parent k ->
     is_dir m (parent k) = true) ->
  forall n k v c,
    length k = n -> m !! k = Some v ->
    path `prefix_of` c -> c `prefix_of` k -> c <> k ->
    is_dir m c = true.
Proof.
  intros TB. induction n as [n IH] using lt_wf_ind.
  intros k v c Hn Hk Hpc Hck Hne.
  pose proof (prefix_parent c k Hck Hne) as Hcp.
  assert (Hd : is_dir m (parent k) = true).
  { apply (TB k v Hk). by etrans. }
  destruct (decide (c = parent k)) as [->|Hne']; [done |].
  assert (Hk0 : k <> []).
  { intros ->. destruct Hck as [r Hr]. by destruct c. }
  assert (Hp0 : parent k <> []).
  { intros H0. rewrite H0 in Hcp. destruct Hcp as [r Hr]. destruct c; [| done].
    by rewrite H0 in Hne'. }
  apply (IH (length (parent k))) with (k := parent k) (v := DirN); try done.
  - pose proof (length_parent k Hk0). lia.
  - by apply is_dir_Some.
Qed.

Lemma remove_below_lookup root m k :
  remove_below root m !! k
  = if decide (root `prefix_of` k) then None else m !! k.
Proof.
  unfold remove_below. destruct (decide (root `prefix_of` k)) as [Hp|Hp].
  - apply map_lookup_filter_None. right. intros x _ H. by apply H.
  - destruct (m !! k) as [v|] eqn:Hk.
    + by apply map_lookup_filter_Some.
    + apply map_lookup_filter_None. by left.
Qed.

Lemma remove_below_Some root m k v :
  remove_below root m !! k = Some v -> m !! k = Some v /\ ~ root `prefix_of` k.
Proof.
  rewrite remove_below_lookup. by destruct (decide (root `prefix_of` k)).
Qed.

Lemma is_dir_remove_below c m k :
  ~ c `prefix_of` k -> is_dir (remove_below c m) k = is_dir m k.
Proof.
  intros H. unfold is_dir. destruct k as [|x k]; [done |].
  rewrite remove_below_lookup. by destruct (decide _).
Qed.

(** Removing one child's tree leaves a tree. *)
Lemma tree_remove_below path c m :
  (forall k v, m !! k = Some v -> path `prefix_of` parent k ->
     is_dir m (parent k) = true) ->
  forall k v, remove_below c m !! k = Some v -> path `prefix_of` parent k ->
    is_dir (remove_below c m) (parent k) = true.
Proof.
  intros TB k v Hk Hp. apply remove_below_Some in Hk as [Hk Hc].
  rewrite is_dir_remove_below; [by apply (TB k v) |].
  intros H. apply Hc. etrans; [exact H | apply parent_prefix].
Qed.

Lemma nodes_below_mono (c : key) (m1 m2 : gmap key node) :
  m1 ⊆ m2 -> (nodes_below c m1 <= nodes_below c m2)%nat.
Proof.
  intros H. unfold nodes_below. by apply map_subseteq_size, map_filter_subseteq_mono.
Qed.

Lemma remove_below_subseteq (c : key) (m : gmap key node) : remove_below c m ⊆ m.
Proof. apply map_filter_subseteq. Qed.

Lemma nodes_below_child path x m :
  m !! path <> None ->
  (nodes_below (path ++ [x]) m < nodes_below path m)%nat.
Proof.
  intros Hp. unfold nodes_below. apply map_subset_size. split.
  - apply map_filter_subseteq_ext. intros k v _ [r ->]. cbn [fst].
    exists (x :: r). by rewrite <- app_assoc.
  - intros Hsub. destruct (m !! path) as [v|] eqn:Hv; [| done].
    assert (H1 : filter (fun kv : key * node => path `prefix_of` kv.1) m !! path = Some v)
      by (by apply map_lookup_filter_Some).
    pose proof (proj1 (map_subseteq_spec _ _) Hsub path v H1) as H2.
    apply map_lookup_filter_Some in H2 as [_ [r Hr]]. cbn [fst] in Hr.
    apply (f_equal length) in Hr. rewrite !length_app in Hr. cbn [length] in Hr. lia.
Qed.

(** What the loop body does to one child is to remove the child's tree. *)
Lemma delete_child_eq path x fuel m :
  (forall p m',
     p <> [] -> is_dir m' p = true ->
     (forall k v, m' !! k = Some v -> p `prefix_of` parent k ->
        is_dir m' (parent k) = true) ->
     (nodes_below p m' <= fuel)%nat ->
     recursive_delete_directory fuel p m' = (true, remove_below p m')) ->
  (forall k v, m !! k = Some v -> path `prefix_of` parent k ->
     is_dir m (parent k) = true) ->
  (nodes_below (path ++ [x]) m <= fuel)%nat ->
  match m !! (path ++ [x]) with
  | Some DirN => (recursive_delete_directory fuel (path ++ [x]) m).2
  | Some (FileN _) => delete (path ++ [x]) m
  | None => m
  end = remove_below (path ++ [x]) m.
Proof.
  intros IH TB Hn. set (c := path ++ [x]).
  assert (Hleaf : is_dir m c = false ->
                  forall k, c `prefix_of` k -> c <> k -> m !! k = None).
  { intros Hd k Hck Hne. destruct (m !! k) as [v|] eqn:Hk; [| done].
    rewrite (tree_chain path m TB (length k) k v c) in Hd; try done.
    by exists [x]. }
  assert (Hc0 : c <> []) by (unfold c; by destruct path).
  destruct (m !! c) as [[b|]|] eqn:Hc.
  - apply map_eq. intros k. rewrite remove_below_lookup.
    destruct (decide (c `prefix_of` k)) as [Hp|Hp].
    + destruct (decide (c = k)) as [<-|Hne]; [by rewrite lookup_delete_eq |].
      rewrite lookup_delete_ne by done. apply Hleaf; try done.
      unfold is_dir. destruct c; [done |]. by rewrite Hc.
    + rewrite lookup_delete_ne; [done |]. by intros <-.
  - rewrite IH; try done.
    + unfold is_dir. destruct c; [done |]. by rewrite Hc.
    + intros k v Hk Hp. apply (TB k v Hk). etrans; [by exists [x] | exact Hp].
  - apply map_eq. intros k. rewrite remove_below_lookup.
    destruct (decide (c `prefix_of` k)) as [Hp|Hp]; [| done].
    destruct (decide (c = k)) as [<-|Hne]; [done |].
    apply Hleaf; try done.
    unfold is_dir. destruct c; [done |]. by rewrite Hc.
Qed.

Lemma fold_delete_children path fuel :
  (forall p m',
     p <> [] -> is_dir m' p = true ->
     (forall k v, m' !! k = Some v -> p `prefix_of` parent k ->
        is_dir m' (parent k) = true) ->
     (nodes_below p m' <= fuel)%nat ->
     recursive_delete_directory fuel p m' = (true, remove_below p m')) ->
  forall cs m,
    Forall (fun c => exists x, c = path ++ [x]) cs ->
    (forall k v, m !! k = Some v -> path `prefix_of` parent k ->
       is_dir m (parent k) = true) ->
    Forall (fun c => (nodes_below c m <= fuel)%nat) cs ->
    fold_left
      (fun acc child =>
         match acc !! child with
         | Some DirN => (recursive_delete_directory fuel child acc).2
         | Some (FileN _) => delete child acc
         | None => acc
         end) cs m
    = fold_left (fun acc child => remove_below child acc) cs m.
Proof.
  intros IH cs. induction cs as [|c cs IHcs]; intros m Hcs TB Hn; [done |].
  apply Forall_cons in Hcs as [[x ->] Hcs]. apply Forall_cons in Hn as [Hn Hns].
  cbn [fold_left]. rewrite (delete_child_eq path x fuel m IH TB Hn).
  apply IHcs; [done | by apply tree_remove_below |].
  eapply List.Forall_impl; [| exact Hns]. intros c Hc. cbv beta in *.
  etrans; [apply nodes_below_mono, remove_below_subseteq | done].
Qed.

Lemma fold_remove_below_lookup cs :
  forall m k,
    fold_left (fun acc child => remove_below child acc) cs m !! k
    = if decide (Exists (fun c => c `prefix_of` k) cs) then None else m !! k.
Proof.
  induction cs as [|c cs IH]; intros m k; cbn [fold_left].
  - destruct (decide _) as [H|_]; [by apply Exists_nil in H | done].
  - rewrite IH, remove_below_lookup.
    destruct (decide (Exists (fun c0 => c0 `prefix_of` k) cs)) as [H|H].
    + rewrite decide_True; [done | by apply Exists_cons_tl].
    + destruct (decide (c `prefix_of` k)) as [Hc|Hc].
      * rewrite decide_True; [done | by apply Exists_cons_hd].
      * rewrite decide_False; [done |]. intros H'. apply Exists_cons in H'. tauto.
Qed.

Lemma elem_of_children m path c :
  c ∈ children m path <-> (c <> [] /\ parent c = path) /\ m !! c <> None.
Proof.
  unfold children. rewrite list_elem_of_filter. apply and_iff_compat_l.
  rewrite list_elem_of_In, in_map_iff. split.
  - intros ([k v] & <- & Hin). apply list_elem_of_In, elem_of_map_to_list in Hin.
    cbn [fst]. by rewrite Hin.
  - intros H. destruct (m !! c) as [v|] eqn:Hc; [| done].
    exists (c, v). split; [done |]. by apply list_elem_of_In, elem_of_map_to_list.
Qed.

Lemma child_form (c path : key) : c <> [] -> parent c = path -> exists x, c = path ++ [x].
Proof.
  intros Hne <-. destruct c as [|x c] using rev_ind; [done |].
  exists x. unfold parent. by rewrite removelast_last.
Qed.

(** The directory itself goes once its children are gone. *)
Lemma remove_directory_after_children path m :
  path <> [] -> is_dir m path = true ->
  (forall k v, m !! k = Some v -> path `prefix_of` parent k ->
     is_dir m (parent k) = true) ->
  RemoveDirectoryA path
    (fold_left (fun acc child => remove_below child acc) (children m path) m)
  = (true, remove_below path m).
Proof.
  intros Hne Hd TB.
  set (M := fold_left (fun acc child => remove_below child acc) (children m path) m).
  assert (HM : forall k, M !! k
               = if decide (Exists (fun c => c `prefix_of` k) (children m path))
                 then None else m !! k)
    by apply fold_remove_below_lookup.
  assert (Hch : forall k, Exists (fun c => c `prefix_of` k) (children m path) ->
                          path `prefix_of` k /\ path <> k).
  { intros k H. apply Exists_exists in H as (c & Hc & Hck).
    apply elem_of_children in Hc as [[Hc0 Hcp] _].
    destruct (child_form c path Hc0 Hcp) as [x ->]. split.
    - etrans; [by exists [x] | done].
    - intros <-. destruct Hck as [r Hr]. apply (f_equal length) in Hr.
      rewrite !length_app in Hr. cbn [length] in Hr. lia. }
  unfold RemoveDirectoryA.
  assert (H1 : is_dir M path = true).
  { unfold is_dir in *. destruct path as [|p0 path]; [done |].
    rewrite HM. destruct (decide _) as [H|_]; [| done].
    by destruct (Hch _ H). }
  assert (H2 : forallb (fun c : key * node => negb (bool_decide (parent c.1 = path)))
                 (map_to_list M) = true).
  { apply forallb_forall. intros [k v] Hin. cbn [fst].
    apply list_elem_of_In, elem_of_map_to_list in Hin.
    apply negb_true_iff, bool_decide_eq_false. intros Hp.
    assert (Hk0 : k <> []) by (intros ->; by rewrite <- Hp in Hne).
    rewrite HM in Hin. destruct (decide _) as [|Hno]; [done |].
    apply Hno, Exists_exists. exists k. split; [| done].
    apply elem_of_children. split_and!; try done. by rewrite Hin. }
  rewrite H1, H2. cbn [andb]. f_equal.
  apply map_eq. intros k. rewrite remove_below_lookup.
  destruct (decide (path `prefix_of` k)) as [Hp|Hp].
  - destruct (decide (path = k)) as [<-|Hpk]; [by rewrite lookup_delete_eq |].
    rewrite lookup_delete_ne by done. rewrite HM.
    destruct (decide _) as [|Hno]; [done |].
    destruct (m !! k) as [v|] eqn:Hk; [| done].
    exfalso. apply Hno. destruct Hp as [r ->]. destruct r as [|x r].
    { by rewrite app_nil_r in Hpk. }
    apply Exists_exists. exists (path ++ [x]). split.
    + apply elem_of_children. split_and!.
      * by destruct path.
      * unfold parent. by rewrite removelast_last.
      * destruct r as [|y r]; [by rewrite Hk |].
        rewrite (is_dir_Some m (path ++ [x])); [done | | by destruct path].
        apply (tree_chain path m TB (length (path ++ x :: y :: r))
                 (path ++ x :: y :: r) v); try done.
        -- by exists [x].
        -- exists (y :: r). by rewrite <- app_assoc.
        -- intros H. apply (f_equal length) in H. rewrite !length_app in H.
           cbn [length] in H. lia.
    + exists r. by rewrite <- app_assoc.
  - rewrite lookup_delete_ne by (by intros <-). rewrite HM.
    destruct (decide _) as [H|_]; [| done]. by destruct (Hch _ H).
Qed.

Lemma recursive_delete_spec fuel :
  forall path m,
    path <> [] -> is_dir m path = true ->
    (forall k v, m !! k = Some v -> path `prefix_of` parent k ->
       is_dir m (parent k) = true) ->
    (nodes_below path m <= fuel)%nat ->
    recursive_delete_directory fuel path m = (true, remove_below path m).
Proof.
  induction fuel as [|fuel IH]; intros path m Hne Hd TB Hn.
  - exfalso. pose proof (is_dir_Some m path Hd Hne) as Hp.
    assert (H : (nodes_below path m <> 0)%nat).
    { unfold nodes_below. apply map_size_non_empty_iff. intros He.
      assert (H1 : filter (fun kv : key * node => path `prefix_of` kv.1) m !! path
                   = Some DirN) by (by apply map_lookup_filter_Some).
      by rewrite He in H1. }
    lia.
  - cbn [recursive_delete_directory]. rewrite Hd.
    rewrite (fold_delete_children path fuel IH); try done.
    + by apply remove_directory_after_children.
    + apply List.Forall_forall. intros c Hc.
      apply list_elem_of_In, elem_of_children in Hc as [[Hc0 Hcp] _].
      by apply child_form.
    + apply List.Forall_forall. intros c Hc.
      apply list_elem_of_In, elem_of_children in Hc as [[Hc0 Hcp] _].
      destruct (child_form c path Hc0 Hcp) as [x ->].
      pose proof (nodes_below_child path x m) as Hlt.
      rewrite (is_dir_Some m path Hd Hne) in Hlt. specialize (Hlt ltac:(done)). lia.
Qed.

End CleanupFacts.

(** ** The clean-up on path strings *)

Section CleanupStrings.
Import C Layout FS Loader Walk.
Import Cleanup.

Lemma short_below_spec path m :
  short_below path m = true ->
  forall rel v,
    m !! (resolve path ++ rel) = Some v ->
    Forall (fun c => valid_name c = true) rel
    /\ (length (path_below path rel) + 4 < MAX_PATH)%nat.
Proof.
  unfold short_below. rewrite forallb_forall. intros H rel v Hk.
  apply elem_of_map_to_list in Hk. apply list_elem_of_In in Hk.
  specialize (H _ Hk). cbn [fst] in H. unfold inside in H.
  rewrite bool_decide_eq_true_2 in H by (by exists rel).
  rewrite skipn_app_exact in H by done. cbn [implb] in H.
  apply andb_true_iff in H as [H1 H2]. split.
  - apply List.Forall_forall. by apply forallb_forall.
  - by apply Nat.ltb_lt.
Qed.

Lemma is_dir_of_Some m k : m !! k = Some DirN -> is_dir m k = true.
Proof. intros H. unfold is_dir. destruct k; [done |]. by rewrite H. Qed.

Lemma pattern_dir_fits p : pattern_dir (p ++ lit "\*.*") = Some p.
Proof.
  unfold pattern_dir. rewrite length_app.
  change (length (lit "\*.*")) with 4%nat.
  replace (length p + 4 - 4)%nat with (length p) by lia.
  rewrite skipn_app_exact, firstn_app_exact by done.
  by rewrite bool_decide_eq_true_2.
Qed.

Lemma not_dot n :
  valid_name n = true ->
  (strcmp n (lit ".") =? 0) || (strcmp n (lit "..") =? 0) = false.
Proof.
  intros Hn. pose proof (valid_name_no_nul n Hn) as Hnul.
  apply valid_name_spec in Hn as (_ & H1 & H2 & _).
  apply orb_false_iff. split; apply Z.eqb_neq; rewrite strcmp_0, cstr_no_nul by done;
    done.
Qed.

Lemma NoDup_children m path : List.NoDup (children m path).
Proof.
  unfold children. apply NoDup_ListNoDup, NoDup_filter.
  apply (NoDup_fst_map_to_list m).
Qed.

Lemma delete_leaf_eq path x m b :
  (forall k v, m !! k = Some v -> path `prefix_of` parent k ->
     is_dir m (parent k) = true) ->
  m !! (path ++ [x]) = Some (FileN b) ->
  delete (path ++ [x]) m = remove_below (path ++ [x]) m.
Proof.
  intros TB Hc. set (c := path ++ [x]) in *.
  apply map_eq. intros k. rewrite remove_below_lookup.
  destruct (decide (c `prefix_of` k)) as [Hp|Hp].
  - destruct (decide (c = k)) as [<-|Hne]; [by rewrite lookup_delete_eq |].
    rewrite lookup_delete_ne by done.
    destruct (m !! k) as [v|] eqn:Hk; [| done].
    assert (Hd : is_dir m c = true).
    { apply (tree_chain path m TB (length k) k v c); try done. by exists [x]. }
    assert (Hc0 : c <> []) by (unfold c; by destruct path).
    rewrite (is_dir_Some m c Hd Hc0) in Hc. discriminate.
  - rewrite lookup_delete_ne; [done |]. by intros <-.
Qed.

Lemma child_not_below (path : key) x y : x <> y -> ~ (path ++ [x]) `prefix_of` (path ++ [y]).
Proof.
  intros Hne [r Hr]. rewrite <- app_assoc in Hr. apply app_inv_head in Hr.
  cbn [app] in Hr. injection Hr as Hy _. by apply Hne.
Qed.

Lemma path_below_cons p x rel :
  path_below (p ++ lit "\" ++ x) rel = path_below p (x :: rel).
Proof.
  unfold path_below. cbn [map concat lit list_ascii_of_string app].
  by rewrite <- !app_assoc.
Qed.

(** The loop over the enumeration removes the tree of every child. *)
Lemma fold_delete_found other fuel p m0 :
  (forall p' m',
     resolve p' <> [] -> opens (p' ++ lit "\") (resolve p') ->
     is_dir m' (resolve p') = true ->
     (forall k v, m' !! k = Some v -> resolve p' `prefix_of` parent k ->
        is_dir m' (parent k) = true) ->
     (forall rel v, m' !! (resolve p' ++ rel) = Some v ->
        Forall (fun c => valid_name c = true) rel
        /\ (length (path_below p' rel) + 4 < MAX_PATH)%nat) ->
     (nodes_below (resolve p') m' <= fuel)%nat ->
     Cleanup.recursive_delete_directory other fuel p' m'
     = (true, remove_below (resolve p') m')) ->
  opens (p ++ lit "\") (resolve p) ->
  forall cs m,
    List.NoDup cs ->
    Forall (fun c => exists x, c = resolve p ++ [x]) cs ->
    Forall (fun c => m !! c = m0 !! c /\ m0 !! c <> None) cs ->
    (forall k v, m !! k = Some v -> resolve p `prefix_of` parent k ->
       is_dir m (parent k) = true) ->
    (forall rel v, m !! (resolve p ++ rel) = Some v ->
       Forall (fun c => valid_name c = true) rel
       /\ (length (path_below p rel) + 4 < MAX_PATH)%nat) ->
    Forall (fun c => (nodes_below c m <= fuel)%nat) cs ->
    fold_left
      (fun acc fd =>
         if (strcmp (cFileName fd) (lit ".") =? 0)
            || (strcmp (cFileName fd) (lit "..") =? 0)
         then acc
         else
           let full_path := snprintf MAX_PATH (p ++ lit "\" ++ cFileName fd) in
           if is_directory fd
           then (Cleanup.recursive_delete_directory other fuel full_path acc).2
           else DeleteFileA full_path acc)
      (map (found m0) cs) m
    = fold_left (fun acc child => remove_below child acc) cs m.
Proof.
  intros IH Hopen cs. set (R := resolve p) in *.
  induction cs as [|c cs IHcs]; intros m Hnd Hform Hsnap TB Hnames Hn; [done |].
  apply List.NoDup_cons_iff in Hnd as [Hnotin Hnd].
  apply Forall_cons in Hform as [[x ->] Hform].
  apply Forall_cons in Hsnap as [[Hc Hc0] Hsnap].
  apply Forall_cons in Hn as [Hnc Hns].
  cbn [map fold_left].
  assert (Step :
    (if (strcmp (cFileName (found m0 (R ++ [x]))) (lit ".") =? 0)
        || (strcmp (cFileName (found m0 (R ++ [x]))) (lit "..") =? 0)
     then m
     else
       if is_directory (found m0 (R ++ [x]))
       then (Cleanup.recursive_delete_directory other fuel
               (snprintf MAX_PATH (p ++ lit "\" ++ cFileName (found m0 (R ++ [x]))))
               m).2
       else DeleteFileA
              (snprintf MAX_PATH (p ++ lit "\" ++ cFileName (found m0 (R ++ [x]))))
              m)
    = remove_below (R ++ [x]) m).
  { unfold found. cbn [cFileName is_directory]. rewrite last_last.
    destruct (m !! (R ++ [x])) as [v|] eqn:Hv; [| by rewrite Hc in Hc0].
    destruct (Hnames [x] v Hv) as [Hvalid Hfit].
    apply Forall_cons in Hvalid as [Hx _].
    rewrite not_dot by done.
    assert (Hs : length (p ++ lit "\" ++ x) = length (path_below p [x])).
    { unfold path_below. cbn [map concat lit list_ascii_of_string app].
      by rewrite app_nil_r. }
    rewrite snprintf_fits by lia.
    assert (Hres : resolve (p ++ lit "\" ++ x) = R ++ [x]).
    { rewrite app_assoc. by apply opens_name. }
    destruct (bool_decide_reflect (m0 !! (R ++ [x]) = Some DirN)) as [Hdir|Hfile].
    - rewrite IH; rewrite ?Hres; try done.
      + by destruct R.
      + rewrite <- (app_assoc p). rewrite app_assoc.
        replace ((p ++ lit "\" ++ x) ++ lit "\") with ((p ++ lit "\") ++ x ++ ["\"%char])
          by (by rewrite <- !app_assoc).
        by apply opens_next.
      + apply is_dir_of_Some. by rewrite Hv, Hc.
      + intros k v' Hk Hp. apply (TB k v' Hk).
        transitivity (R ++ [x]); [by exists [x] | exact Hp].
      + intros rel v' Hk. rewrite <- app_assoc in Hk.
        destruct (Hnames ([x] ++ rel) v' Hk) as [Hval Hlen].
        apply Forall_app in Hval as [_ Hval]. split; [done |].
        by rewrite path_below_cons.
    - unfold DeleteFileA. rewrite Hres, Hv.
      destruct v as [b|]; [| by rewrite <- Hc in Hfile].
      by apply (delete_leaf_eq R x m b). }
  rewrite Step. apply IHcs; try done.
  - apply List.Forall_forall. intros c Hin.
    pose proof (proj1 (List.Forall_forall _ _) Hsnap c Hin) as [H1 H2].
    pose proof (proj1 (List.Forall_forall _ _) Hform c Hin) as [y ->].
    split; [| done]. rewrite remove_below_lookup, decide_False; [done |].
    apply child_not_below. intros ->. by apply Hnotin.
  - by apply tree_remove_below.
  - intros rel v Hk. apply remove_below_Some in Hk as [Hk _]. by apply (Hnames rel v).
  - eapply List.Forall_impl; [| exact Hns]. intros c Hcn. cbv beta in *.
    etrans; [apply nodes_below_mono, remove_below_subseteq | done].
Qed.

Lemma recursive_delete_strings other fuel :
  forall p m,
    resolve p <> [] -> opens (p ++ lit "\") (resolve p) ->
    is_dir m (resolve p) = true ->
    (forall k v, m !! k = Some v -> resolve p `prefix_of` parent k ->
       is_dir m (parent k) = true) ->
    (forall rel v, m !! (resolve p ++ rel) = Some v ->
       Forall (fun c => valid_name c = true) rel
       /\ (length (path_below p rel) + 4 < MAX_PATH)%nat) ->
    (nodes_below (resolve p) m <= fuel)%nat ->
    Cleanup.recursive_delete_directory other fuel p m
    = (true, remove_below (resolve p) m).
Proof.
  induction fuel as [|fuel IH]; intros p m Hne Hopen Hd TB Hnames Hn.
  - exfalso. pose proof (is_dir_Some m _ Hd Hne) as Hp.
    assert (H : (nodes_below (resolve p) m <> 0)%nat).
    { unfold nodes_below. apply map_size_non_empty_iff. intros He.
      assert (H1 : filter (fun kv : key * node => resolve p `prefix_of` kv.1) m
                   !! resolve p = Some DirN) by (by apply map_lookup_filter_Some).
      by rewrite He in H1. }
    lia.
  - cbn [Cleanup.recursive_delete_directory].
    pose proof (is_dir_Some m _ Hd Hne) as HR.
    destruct (Hnames [] DirN) as [_ Hfit]; [by rewrite app_nil_r |].
    unfold path_below in Hfit. cbn [map concat] in Hfit. rewrite app_nil_r in Hfit.
    rewrite snprintf_fits by (rewrite length_app; cbn [length lit list_ascii_of_string]; lia).
    unfold FindFiles. rewrite pattern_dir_fits, Hd.
    rewrite fold_left_app. cbn [fold_left cFileName].
    change ((strcmp (lit ".") (lit ".") =? 0) || (strcmp (lit ".") (lit "..") =? 0))
      with true.
    change ((strcmp (lit "..") (lit ".") =? 0) || (strcmp (lit "..") (lit "..") =? 0))
      with true.
    cbv iota.
    assert (Hforms : Forall (fun c => exists x, c = resolve p ++ [x]) (children m (resolve p))).
    { apply List.Forall_forall. intros c Hc.
      apply list_elem_of_In, elem_of_children in Hc as [[Hc0 Hcp] _].
      by apply child_form. }
    rewrite (fold_delete_found other fuel p m IH Hopen); try done.
    + by apply remove_directory_after_children.
    + apply NoDup_children.
    + apply List.Forall_forall. intros c Hc.
      by apply list_elem_of_In, elem_of_children in Hc as [_ Hc].
    + apply List.Forall_forall. intros c Hc.
      pose proof (proj1 (List.Forall_forall _ _) Hforms c Hc) as [x ->].
      pose proof (nodes_below_child (resolve p) x m) as Hlt.
      rewrite HR in Hlt. specialize (Hlt ltac:(done)). lia.
Qed.

(** X18.  [recursive_delete_directory] on a directory tree.  When every
    path in the tree fits the path buffer with [\*.*] after it, the function
    returns TRUE and removes the directory and everything below it, and
    nothing else; the clean-up the loader runs on canonical paths does the
    same. *)
Theorem recursive_delete_removes_the_tree
    (other : list ascii -> gmap key node -> option (list find_data))
    (fuel : nat) (path : list ascii) (m : gmap key node) :
  resolve path <> [] ->
  is_dir m (resolve path) = true ->
  tree_below (resolve path) m = true ->
  short_below path m = true ->
  (nodes_below (resolve path) m <= fuel)%nat ->
  Cleanup.recursive_delete_directory other fuel path m
  = (true, remove_below (resolve path) m)
  /\ Loader.recursive_delete_directory fuel (resolve path) m
     = (true, remove_below (resolve path) m)
  /\ forall k,
       remove_below (resolve path) m !! k
       = if inside (resolve path) k then None else m !! k.
Proof.
  intros Hne Hd Htree Hshort Hfuel.
  pose proof (opens_temp_dir path) as Hopen.
  pose proof (tree_below_spec _ _ Htree) as TB.
  pose proof (short_below_spec _ _ Hshort) as Hnames.
  split_and!.
  - by apply recursive_delete_strings.
  - by apply recursive_delete_spec.
  - intros k. rewrite remove_below_lookup. unfold inside.
    destruct (decide (resolve path `prefix_of` k)) as [H|H].
    + by rewrite bool_decide_eq_true_2.
    + by rewrite bool_decide_eq_false_2.
Qed.

End CleanupStrings.

(** ** The loader leaves the disk as it found it *)

Section NoTrace.
Import C Layout FS Walk Cleanup Loader.

Lemma is_dir_insert_ne (m : gmap key node) k v p :
  p <> k -> is_dir (<[k := v]> m) p = is_dir m p.
Proof.
  intros Hne. unfold is_dir. destruct p as [|x p]; [done |].
  by rewrite lookup_insert_ne.
Qed.

Lemma parent_ne (k : key) : k <> [] -> parent k <> k.
Proof. intros Hk H. pose proof (length_parent k Hk) as Hl. rewrite H in Hl. lia. Qed.

Lemma mkdir_tree R q m :
  (forall k v, m !! k = Some v -> R `prefix_of` parent k ->
     is_dir m (parent k) = true) ->
  forall k v, mkdir q m !! k = Some v -> R `prefix_of` parent k ->
    is_dir (mkdir q m) (parent k) = true.
Proof.
  intros TB k v. unfold mkdir.
  destruct (is_dir m (parent q)) eqn:Hp; [| apply TB].
  destruct (exists_at m q) eqn:He; [apply TB |].
  apply exists_at_false in He as [Hq0 Hq]. cbn [andb negb].
  assert (Hkeep : forall p, is_dir m p = true -> is_dir (<[q := DirN]> m) p = true).
  { intros p Hd. rewrite is_dir_insert_ne; [done |]. intros ->.
    unfold is_dir in Hd. destruct q; [done |]. by rewrite Hq in Hd. }
  destruct (decide (k = q)) as [->|Hne].
  - intros _ _. by apply Hkeep.
  - rewrite lookup_insert_ne by done. intros Hk HR. by apply Hkeep, (TB k v).
Qed.

Lemma create_subdirectories_tree R rest :
  forall pre m,
    (forall k v, m !! k = Some v -> R `prefix_of` parent k ->
       is_dir m (parent k) = true) ->
    forall k v, create_subdirectories pre rest m !! k = Some v ->
      R `prefix_of` parent k ->
      is_dir (create_subdirectories pre rest m) (parent k) = true.
Proof.
  induction rest as [|ch rest IH]; intros pre m TB; [done |].
  cbn [create_subdirectories]. apply IH.
  destruct (is_sep ch); [| done]. by apply mkdir_tree.
Qed.

Lemma extract_entry_tree E R st e :
  (forall k v, fs st !! k = Some v -> R `prefix_of` parent k ->
     is_dir (fs st) (parent k) = true) ->
  forall k v, fs (extract_entry E st e) !! k = Some v -> R `prefix_of` parent k ->
    is_dir (fs (extract_entry E st e)) (parent k) = true.
Proof.
  intros TB.
  assert (TB' : forall k v, subdirectories E e (fs st) !! k = Some v ->
                  R `prefix_of` parent k ->
                  is_dir (subdirectories E e (fs st)) (parent k) = true)
    by (by apply create_subdirectories_tree).
  rewrite extract_entry_eq.
  destruct (fopen_wb (out_path_of E e) (subdirectories E e (fs st))) as [q|] eqn:Ho;
    [| exact TB'].
  destruct (copy_loop _ _ _ _ _) as [[w f] b]. cbn [fs].
  apply fopen_wb_Some in Ho as (_ & Hp & Hd).
  set (m := subdirectories E e (fs st)) in *.
  assert (Hq0 : q <> []) by (by intros ->).
  intros k v Hk HR.
  destruct (decide (k = q)) as [->|Hne].
  - rewrite is_dir_insert_ne; [done | by apply parent_ne].
  - rewrite lookup_insert_ne in Hk by done.
    pose proof (TB' k v Hk HR) as Hpk.
    rewrite is_dir_insert_ne; [done |]. intros Heq. rewrite Heq in Hpk.
    congruence.
Qed.

Lemma extraction_tree E R es :
  forall st,
    (forall k v, fs st !! k = Some v -> R `prefix_of` parent k ->
       is_dir (fs st) (parent k) = true) ->
    forall k v, fs (fold_left (extract_entry E) es st) !! k = Some v ->
      R `prefix_of` parent k ->
      is_dir (fs (fold_left (extract_entry E) es st)) (parent k) = true.
Proof.
  induction es as [|e es IH]; intros st TB; [done |].
  cbn [fold_left]. apply IH. by apply extract_entry_tree.
Qed.

Lemma create_temp_dir_eq E :
  resolve (temp_dir E) <> [] ->
  is_dir (disk E) (parent (resolve (temp_dir E))) = true ->
  fresh_below (resolve (temp_dir E)) (disk E) = true ->
  create_temp_dir E (disk E) = <[resolve (temp_dir E) := DirN]> (disk E).
Proof.
  intros Hne Hp Hfresh.
  set (R := resolve (temp_dir E)) in *.
  assert (HR : disk E !! R = None) by (by apply (fresh_below_spec R)).
  unfold create_temp_dir, fopen_wb, DeleteFileA, CreateDirectoryA, mkdir. fold R.
  assert (Hd : is_dir (disk E) R = false).
  { unfold is_dir. destruct R; [done |]. by rewrite HR. }
  rewrite Hp, Hd. cbn [andb negb]. rewrite lookup_insert_eq.
  rewrite delete_insert_id by done.
  rewrite Hp. unfold exists_at. destruct R; [done |]. by rewrite HR.
Qed.

(** An entry without [..] that fits the path buffer changes nothing
    outside the extraction root. *)
Lemma extract_entry_outside E st e k :
  Forall (fun c => c <> lit "..") (split (cstr (relative_path e))) ->
  (length (temp_dir E ++ lit "\" ++ cstr (relative_path e)) < MAX_PATH)%nat ->
  ~ resolve (temp_dir E) `prefix_of` k ->
  fs (extract_entry E st e) !! k = fs st !! k.
Proof.
  intros Hseg Hfit Hout.
  assert (Hdirs : subdirectories E e (fs st) !! k = fs st !! k).
  { destruct (decide (subdirectories E e (fs st) !! k = fs st !! k)) as [|Hne]; [done |].
    exfalso. apply Hout. rewrite subdirectories_eq in Hne by done.
    apply create_subdirectories_changed in Hne as (_ & r1 & ch & r2 & Hr & Hch & ->).
    rewrite <- app_assoc. cbn [lit list_ascii_of_string app].
    rewrite resolve_app_sep by done. apply fold_step_prefix.
    rewrite Hr, split_app_sep in Hseg by done.
    by apply Forall_app in Hseg as [? _]. }
  rewrite extract_entry_eq.
  destruct (fopen_wb (out_path_of E e) (subdirectories E e (fs st))) as [q|] eqn:Ho;
    [| done].
  destruct (copy_loop _ _ _ _ _) as [[w f] b]. cbn [fs].
  rewrite lookup_insert_ne; [done |]. intros <-. apply Hout.
  apply fopen_wb_Some in Ho as (-> & _).
  unfold out_path_of. rewrite snprintf_fits by done.
  cbn [lit list_ascii_of_string app].
  rewrite resolve_app_sep by done. by apply fold_step_prefix.
Qed.

Lemma extraction_outside E es :
  forall st k,
    Forall
      (fun e =>
         Forall (fun c => c <> lit "..") (split (cstr (relative_path e)))
         /\ (length (temp_dir E ++ lit "\" ++ cstr (relative_path e))
             < MAX_PATH)%nat) es ->
    ~ resolve (temp_dir E) `prefix_of` k ->
    fs (fold_left (extract_entry E) es st) !! k = fs st !! k.
Proof.
  induction es as [|e es IH]; intros st k Hes Hout; [done |].
  apply Forall_cons in Hes as [[Hseg Hfit] Hes].
  cbn [fold_left]. rewrite IH by done. by apply extract_entry_outside.
Qed.

Lemma cleanup_eq E m :
  resolve (temp_dir E) <> [] -> is_dir m (resolve (temp_dir E)) = true ->
  (forall k v, m !! k = Some v -> resolve (temp_dir E) `prefix_of` parent k ->
     is_dir m (parent k) = true) ->
  cleanup E m = remove_below (resolve (temp_dir E)) m.
Proof.
  intros Hne Hd TB. unfold cleanup.
  rewrite recursive_delete_spec; try done.
  rewrite length_map_to_list. unfold nodes_below.
  etrans; [apply map_size_filter | lia].
Qed.

(** The extraction, whatever the manifest, leaves a tree below the root. *)
Lemma extraction_is_tree E data :
  resolve (temp_dir E) <> [] ->
  is_dir (disk E) (parent (resolve (temp_dir E))) = true ->
  fresh_below (resolve (temp_dir E)) (disk E) = true ->
  is_dir (fs (extraction E data)) (resolve (temp_dir E)) = true
  /\ forall k v, fs (extraction E data) !! k = Some v ->
       resolve (temp_dir E) `prefix_of` parent k ->
       is_dir (fs (extraction E data)) (parent k) = true.
Proof.
  intros Hne Hp Hfresh. set (R := resolve (temp_dir E)) in *.
  rewrite extraction_unfold.
  assert (H0 : fs (extraction_start E data) = <[R := DirN]> (disk E))
    by (by apply create_temp_dir_eq).
  split.
  - destruct (extraction_keeps_nodes E (manifest_read E data).1
                (extraction_start E data) R DirN) as (v' & Hv & Hd).
    { by rewrite H0, lookup_insert_eq. }
    unfold is_dir. destruct R; [done |]. rewrite Hv.
    by rewrite (proj1 Hd eq_refl).
  - apply extraction_tree. rewrite H0. intros k v Hk HR.
    destruct (decide (k = R)) as [->|Hk'].
    + rewrite is_dir_insert_ne; [done | by apply parent_ne].
    + rewrite lookup_insert_ne in Hk by done.
      rewrite (fresh_below_spec R (disk E) k) in Hk; [done | done |].
      etrans; [exact HR | apply parent_prefix].
Qed.

(** X17.  The loader leaves no trace.  With a fresh temporary name in an
    existing directory, and a child that leaves the files as they are (or no
    child), nothing is left at the temporary directory or below it when the
    loader returns, whatever the manifest holds, and everything else is as the
    extraction left it; [recursive_delete_directory], run as it is written
    on the path strings, returns TRUE with that result, the extracted paths
    being short enough for its buffers.  When, in addition, no entry has a
    [..] component or a path too long for the buffer, the disk is exactly as
    it was before the run. *)
Theorem loader_leaves_no_trace (E : env) (data : list ascii) :
  self E = Some data -> accepts E data = true ->
  resolve (temp_dir E) <> [] ->
  is_dir (disk E) (parent (resolve (temp_dir E))) = true ->
  fresh_below (resolve (temp_dir E)) (disk E) = true ->
  short_below (temp_dir E) (extracted (main E)) = true ->
  (forall app m code m',
     CreateProcessA E app (cmd_line E) (temp_dir E) m = Some (code, m') ->
     m' = m) ->
  (forall k,
     final (main E) !! k
     = if inside (resolve (temp_dir E)) k then None else extracted (main E) !! k)
  /\ (forall other fuel,
        (nodes_below (resolve (temp_dir E)) (extracted (main E)) <= fuel)%nat ->
        Cleanup.recursive_delete_directory other fuel (temp_dir E)
          (extracted (main E))
        = (true, final (main E)))
  /\ (Forall
        (fun e =>
           Forall (fun c => c <> lit "..") (split (cstr (relative_path e)))
           /\ (length (temp_dir E ++ lit "\" ++ cstr (relative_path e))
               < MAX_PATH)%nat) (manifest_read E data).1 ->
      final (main E) = disk E).
Proof.
  intros Hs Ha Hne Hp Hfresh Hshort Hchild. set (R := resolve (temp_dir E)) in *.
  destruct (extraction_is_tree E data Hne Hp Hfresh) as [Hd TB]. fold R in Hd, TB.
  assert (Hfinal : final (main E) = remove_below R (fs (extraction E data))
                   /\ extracted (main E) = fs (extraction E data)).
  { destruct (main_exe_path (extraction E data)) as [|ch p] eqn:Hpath.
    - rewrite (main_not_launched E data Hs Ha (or_introl Hpath)).
      cbn [final extracted]. split; [| done]. by apply cleanup_eq.
    - destruct (CreateProcessA E (main_exe_path (extraction E data)) (cmd_line E)
                  (temp_dir E) (fs (extraction E data))) as [[code m']|] eqn:Hc.
      + assert (Hnil : main_exe_path (extraction E data) <> []) by (by rewrite Hpath).
        rewrite (main_launched E data code m' Hs Ha Hnil Hc).
        cbn [final extracted]. split; [| done].
        rewrite (Hchild _ _ _ _ Hc). by apply cleanup_eq.
      + rewrite (main_not_launched E data Hs Ha (or_intror Hc)).
        cbn [final extracted]. split; [| done]. by apply cleanup_eq. }
  destruct Hfinal as [Hfin Hext]. rewrite Hext in Hshort. rewrite Hfin, Hext.
  assert (Hlook : forall k,
             remove_below R (fs (extraction E data)) !! k
             = if inside R k then None else fs (extraction E data) !! k).
  { intros k. rewrite remove_below_lookup. unfold inside.
    destruct (decide (R `prefix_of` k)) as [H|H].
    - by rewrite bool_decide_eq_true_2.
    - by rewrite bool_decide_eq_false_2. }
  split_and!; [exact Hlook | |].
  - intros other fuel Hfuel.
    apply recursive_delete_strings; try done.
    + apply opens_temp_dir.
    + by apply short_below_spec.
  - intros Hes. apply map_eq. intros k. rewrite Hlook. unfold inside.
    destruct (decide (R `prefix_of` k)) as [H|H].
    + rewrite bool_decide_eq_true_2 by done. symmetry. by apply (fresh_below_spec R).
    + rewrite bool_decide_eq_false_2 by done.
      rewrite extraction_unfold, extraction_outside by done.
      cbn [extraction_start fs]. rewrite create_temp_dir_eq by done. fold R.
      rewrite lookup_insert_ne; [done |]. by intros <-.
Qed.

Lemma loader_leaves_no_trace_witness :
  let E := Scenario.loader_env Scenario.archive_A in
  (forall k,
     final (main E) !! k
     = if inside (resolve (temp_dir E)) k then None else extracted (main E) !! k)
  /\ (forall other fuel,
        (nodes_below (resolve (temp_dir E)) (extracted (main E)) <= fuel)%nat ->
        Cleanup.recursive_delete_directory other fuel (temp_dir E)
          (extracted (main E))
        = (true, final (main E)))
  /\ (Forall
        (fun e =>
           Forall (fun c => c <> lit "..") (split (cstr (relative_path e)))
           /\ (length (temp_dir E ++ lit "\" ++ cstr (relative_path e))
               < MAX_PATH)%nat) (manifest_read E Scenario.archive_A).1 ->
      final (main E) = disk E).
Proof.
  intros E.
  apply (loader_leaves_no_trace E Scenario.archive_A).
  - reflexivity.
  - vm_compute. reflexivity.
  - vm_compute. discriminate.
  - vm_compute. reflexivity.
  - vm_compute. reflexivity.
  - vm_compute. reflexivity.
  - intros app m code m' H. cbn in H. congruence.
Defined.

End NoTrace.

(** ** The main executable, from the packer to the child process *)

Section MainExecutable.
Import C Layout FS Walk.

Lemma Forall2_right {A B} (R : A -> B -> Prop) (P : B -> Prop) l k :
  Forall2 R l k -> (forall x y, In x l -> R x y -> P y) -> Forall P k.
Proof.
  induction 1 as [|x y l k Hxy _ IH]; intros Himp; [constructor |].
  constructor; [apply (Himp x); [by left | done] |].
  apply IH. intros x' y' Hin. apply Himp. by right.
Qed.

(** The loop has nothing to rewrite in a path without a forward slash. *)
Lemma rewritten_path_plain LE e p :
  Loader.out_path_of LE e = Loader.temp_dir LE ++ lit "\" ++ p ->
  ~ In "/"%char p ->
  Loader.rewritten_path LE e = Loader.out_path_of LE e.
Proof.
  intros Hout Hp. unfold Loader.rewritten_path. rewrite Hout, app_assoc.
  rewrite firstn_app_exact, skipn_app_exact
    by (rewrite length_app; cbn [length lit list_ascii_of_string]; lia).
  by rewrite backslashed_id.
Qed.

Lemma valid_name_no_slash n : valid_name n = true -> ~ In "/"%char n.
Proof.
  intros (_ & _ & _ & H)%valid_name_spec Hin.
  rewrite List.Forall_forall in H. by destruct (H _ Hin) as [Hs _].
Qed.

(** X19.  The main executable comes out as it went in and is what the
    loader starts.  For an archive the packer produced, of a length that fits
    a [long], run with a fresh temporary directory: when the main executable
    could be opened, its base name is a valid file name, and no packed file
    has that name at the top of the directory, the extraction leaves its
    bytes in the file of that name directly below the extraction root; the
    loader asks for that file to be started, with its own command line, in
    the temporary directory, and returns the child's exit code. *)
Theorem main_executable_is_extracted_and_started (PE : Packer.env) (r : Packer.result)
    (a : list ascii) (LE : Loader.env) (b : list ascii) :
  Packer.main PE = Packer.Returned r -> Packer.exit_code r = 0 ->
  Packer.out_exe r = Some a ->
  Z.of_nat (length a) <= LONG_MAX ->
  wf_listing (Packer.pack_dir_listing PE) = true ->
  Packer.main_exe_file PE = Some b ->
  (forall kd, In kd (tree_files (Packer.pack_dir_listing PE)) ->
     (length (Loader.temp_dir LE ++ lit "\" ++ join kd.1) < MAX_PATH)%nat
     /\ kd.1 <> [base_name (Packer.arg PE 2)]) ->
  valid_name (base_name (Packer.arg PE 2)) = true ->
  (length (Loader.temp_dir LE ++ lit "\" ++ base_name (Packer.arg PE 2))
   < MAX_PATH)%nat ->
  Loader.self LE = Some a ->
  resolve (Loader.temp_dir LE) <> [] ->
  is_dir (Loader.disk LE) (parent (resolve (Loader.temp_dir LE))) = true ->
  fresh_below (resolve (Loader.temp_dir LE)) (Loader.disk LE) = true ->
  let started := Loader.temp_dir LE ++ lit "\" ++ base_name (Packer.arg PE 2) in
  Loader.extracted (Loader.main LE)
  !! (resolve (Loader.temp_dir LE) ++ [base_name (Packer.arg PE 2)])
  = Some (FileN b)
  /\ resolve started = resolve (Loader.temp_dir LE) ++ [base_name (Packer.arg PE 2)]
  /\ forall code m',
       Loader.CreateProcessA LE started (Loader.cmd_line LE) (Loader.temp_dir LE)
         (Loader.extracted (Loader.main LE)) = Some (code, m') ->
       Loader.launched (Loader.main LE)
       = Some (started, Loader.cmd_line LE, Loader.temp_dir LE)
       /\ Loader.exit_code (Loader.main LE) = to_int code.
Proof.
  intros Hmain Hcode Hout Hlen Hwf Hexe Hpaths Hvbase Hfbase Hself HR Hparent Hfresh.
  cbv zeta.
  destruct (main_success PE r Hmain Hcode)
    as (stub & Hstub & Hne & Hargc & Hbase & Hout' & _).
  rewrite Hout' in Hout. injection Hout as Ha. symmetry in Ha.
  set (R := resolve (Loader.temp_dir LE)) in *.
  set (base := base_name (Packer.arg PE 2)) in *.
  set (tf := tree_files (Packer.pack_dir_listing PE)) in *.
  pose proof (manifest_wf PE stub Hbase) as HM.
  assert (Hfit : fits_under [] tf).
  { intros kd Hin. destruct (Hpaths kd Hin) as [H _]. cbn [app].
    rewrite !length_app in H. lia. }
  pose proof (entries_paths PE 0 (length stub) Hwf Hfit) as Hcarry.
  fold tf in Hcarry.
  pose proof (tree_files_paths _ Hwf) as Hvalid. fold tf in Hvalid.
  assert (HaE : a = archive_of (body PE stub) (manifest PE stub)) by done.
  assert (Hacc : Loader.accepts LE a = true) by (rewrite HaE; by apply accepts_archive).
  destruct (manifest_read_archive LE (body PE stub) (manifest PE stub) HM)
    as [Hread Hstream]; [by rewrite <- HaE |].
  rewrite <- HaE in Hread, Hstream.
  (* the entry of the main executable *)
  assert (Hnames : names LE (exe_entry PE stub) [base]).
  { unfold names. cbn [join]. split_and!; [| by repeat constructor | done | done].
    unfold exe_entry. rewrite relative_path_entry_for.
    apply cstr_no_nul. by apply valid_name_no_nul. }
  pose proof (length_archive_of (body PE stub) (manifest PE stub) HM) as Hl.
  rewrite <- HaE in Hl.
  assert (Hbody : length (body PE stub)
                  = (length (stub ++ payloads (walk PE)) + length b)%nat).
  { unfold body. by rewrite Hexe, length_app. }
  assert (Hcar : carries a ([base], (b, true)) (exe_entry PE stub)).
  { split; cbn [fst snd join].
    - by destruct Hnames as [? _].
    - intros _. exists (length (stub ++ payloads (walk PE))).
      unfold exe_entry, entry_for. rewrite Hexe.
      cbn [offset size set_size set_offset].
      rewrite !to_u64_ftell_small by lia.
      split_and!; try done; try lia.
      rewrite HaE. unfold archive_of, body. rewrite Hexe. cbn [payload].
      rewrite <- !app_assoc, (app_assoc stub).
      rewrite skipn_app_exact by done. by apply firstn_app_exact. }
  set (st0 := Loader.extraction_start LE a).
  set (st1 := Loader.extract_entry LE st0 (exe_entry PE stub)).
  assert (Htidy : tidy R [] (Loader.fs st0)) by (by apply create_temp_dir_fresh).
  assert (Hfile : Loader.fs st1 !! (R ++ [base]) = Some (FileN b)).
  { by apply (extract_carried LE st0 (exe_entry PE stub) a [base] b []). }
  assert (Hpath1 : Loader.main_exe_path st1 = Loader.temp_dir LE ++ lit "\" ++ base).
  { destruct (extract_entry_put LE st0 (exe_entry PE stub) [base] [] Hnames Htidy)
      as (w & f & buf & Hcopy & _ & _); try done.
    destruct (names_target LE (exe_entry PE stub) [base] Hnames) as (Hres & Hsub).
    destruct (tidy_put R [] (Loader.fs st0) [base] w Htidy) as (Hp & Hd & _); try done.
    unfold st1. rewrite extract_entry_eq. rewrite Hsub. unfold fopen_wb.
    rewrite Hres. fold R. rewrite Hp, Hd. cbn [andb negb]. rewrite Hcopy.
    cbn [Loader.main_exe_path].
    assert (Hout : Loader.out_path_of LE (exe_entry PE stub)
                   = Loader.temp_dir LE ++ lit "\" ++ base).
    { unfold Loader.out_path_of, exe_entry.
      rewrite relative_path_entry_for, cstr_no_nul by (by apply valid_name_no_nul).
      by apply snprintf_fits. }
    rewrite (rewritten_path_plain LE _ base Hout)
      by (by apply valid_name_no_slash).
    rewrite Hout. unfold exe_entry. by rewrite is_executable_entry_for. }
  (* the entries that follow leave both alone *)
  assert (Hex : Loader.extraction LE a
                = fold_left (Loader.extract_entry LE)
                    (rev (entries_for PE 0 (length stub) (walk PE))) st1).
  { rewrite extraction_unfold, Hread. reflexivity. }
  assert (Hend : Loader.fs (Loader.extraction LE a) !! (R ++ [base]) = Some (FileN b)).
  { rewrite Hex. apply extraction_frame; [done |].
    apply Forall_rev.
    apply (Forall2_right _ _ _ _ Hcarry). intros kd e Hin Hc.
    destruct (Hpaths kd Hin) as [Hf Hkd].
    pose proof (proj1 (List.Forall_forall _ _) Hvalid kd Hin) as [Hv Hn].
    destruct (names_target LE e kd.1) as [-> _].
    { unfold names. by split_and!. }
    fold R. intros Heq. apply app_inv_head in Heq. by apply Hkd. }
  assert (Hpath : Loader.main_exe_path (Loader.extraction LE a)
                  = Loader.temp_dir LE ++ lit "\" ++ base).
  { rewrite Hex, extraction_unflagged; [done |].
    apply Forall_rev, entries_for_unflagged. }
  assert (Hres : resolve (Loader.temp_dir LE ++ lit "\" ++ base) = R ++ [base]).
  { rewrite app_assoc. apply opens_name; [apply opens_temp_dir | done]. }
  rewrite (extracted_eq LE a Hself Hacc).
  split_and!; [done | done |].
  intros code m' Hc. rewrite <- Hpath in Hc.
  assert (Hnil : Loader.main_exe_path (Loader.extraction LE a) <> []).
  { rewrite Hpath. by destruct (Loader.temp_dir LE). }
  rewrite (main_launched LE a code m' Hself Hacc Hnil Hc).
  cbn [Loader.launched Loader.exit_code]. by rewrite Hpath.
Qed.

End MainExecutable.

Section MainExecutableRuns.
Import C Layout FS Walk.

Lemma main_executable_is_started_witness :
  let LE := Scenario.loader_env Scenario.archive_A in
  let started := Loader.temp_dir LE ++ lit "\" ++ base_name (Packer.arg Scenario.packer_A 2) in
  Loader.extracted (Loader.main LE)
  !! (resolve (Loader.temp_dir LE) ++ [base_name (Packer.arg Scenario.packer_A 2)])
  = Some (FileN (lit "MZgame"))
  /\ resolve started
     = resolve (Loader.temp_dir LE) ++ [base_name (Packer.arg Scenario.packer_A 2)]
  /\ forall code m',
       Loader.CreateProcessA LE started (Loader.cmd_line LE) (Loader.temp_dir LE)
         (Loader.extracted (Loader.main LE)) = Some (code, m') ->
       Loader.launched (Loader.main LE)
       = Some (started, Loader.cmd_line LE, Loader.temp_dir LE)
       /\ Loader.exit_code (Loader.main LE) = to_int code.
Proof.
  intros LE.
  apply (main_executable_is_extracted_and_started Scenario.packer_A
           {| Packer.exit_code := 0; Packer.out_exe := Some Scenario.archive_A;
              Packer.stdout := transcript Scenario.packer_A |}
           Scenario.archive_A LE (lit "MZgame")).
  - vm_compute. reflexivity.
  - reflexivity.
  - reflexivity.
  - vm_compute. discriminate.
  - vm_compute. reflexivity.
  - reflexivity.
  - intros kd Hin. vm_compute in Hin. destruct Hin as [<-|[]]. split.
    + vm_compute. lia.
    + discriminate.
  - vm_compute. reflexivity.
  - vm_compute. lia.
  - reflexivity.
  - vm_compute. discriminate.
  - vm_compute. reflexivity.
  - vm_compute. reflexivity.
Defined.

End MainExecutableRuns.

Section CleanupRuns.
Import C Layout FS Walk Cleanup.

Lemma recursive_delete_witness :
  let path := lit "C:\Temp\d2e1.tmp" in
  let m :=
    <[ Scenario.root ++ [lit "Content"; lit "readme.txt"] := FileN (lit "hello") ]>
      (<[ Scenario.root ++ [lit "Content"] := DirN ]>
         (<[ Scenario.root ++ [lit "Game.exe"] := FileN (lit "MZgame") ]>
            (<[ Scenario.root := DirN ]> Scenario.disk0))) in
  Cleanup.recursive_delete_directory (fun _ _ => None) 4 path m
  = (true, remove_below (resolve path) m)
  /\ Loader.recursive_delete_directory 4 (resolve path) m
     = (true, remove_below (resolve path) m)
  /\ forall k,
       remove_below (resolve path) m !! k
       = if inside (resolve path) k then None else m !! k.
Proof.
  intros path m.
  apply (recursive_delete_removes_the_tree (fun _ _ => None) 4 path m).
  - vm_compute. discriminate.
  - vm_compute. reflexivity.
  - vm_compute. reflexivity.
  - vm_compute. reflexivity.
  - vm_compute. lia.
Defined.

End CleanupRuns.

(** ** Paths the loader takes for the same *)

Section SeparatorProperties.
Import C Layout FS Loader Separators.

Lemma create_subdirectories_alike rest rest' :
  alike rest rest' ->
  forall pre pre' m,
    alike pre pre' ->
    create_subdirectories pre rest m = create_subdirectories pre' rest' m.
Proof.
  unfold alike at 1.
  induction 1 as [|x y rest rest' Hxy _ IH]; intros pre pre' m Hpre; [done |].
  cbn [create_subdirectories].
  assert (Hsep : is_sep x = is_sep y).
  { destruct Hxy as [->|[-> ->]]; done. }
  rewrite Hsep. unfold CreateDirectoryA. rewrite (resolve_alike pre pre') by done.
  apply IH. unfold alike in *. apply Forall2_app; [done |]. by constructor.
Qed.

Lemma cstr_backslashed buf : cstr (backslashed buf) = backslashed (cstr buf).
Proof.
  induction buf as [|ch buf IH]; [done |].
  cbn [backslashed map cstr].
  destruct (Ascii.eqb_spec ch "/"%char) as [->|Hne]; [cbn; by f_equal |].
  destruct (Ascii.eqb ch NUL); [done |].
  cbn [map]. destruct (Ascii.eqb_spec ch "/"%char); [done |]. by f_equal.
Qed.

(** X20.  The loader takes a forward slash in an entry's path for a
    separator, like a backslash.  An entry whose path is written with
    forward slashes is extracted as the same entry written with backslashes
    is: the same directories are created, the same file is written with the
    same bytes, and the path kept for the child denotes the same file. *)
Theorem forward_slash_is_a_separator (E : env) (st : state) (e : ManifestEntry) :
  let e' := set_relative_path (backslashed (relative_path e)) e in
  fs (extract_entry E st e') = fs (extract_entry E st e)
  /\ f_self (extract_entry E st e') = f_self (extract_entry E st e)
  /\ buffer (extract_entry E st e') = buffer (extract_entry E st e)
  /\ resolve (main_exe_path (extract_entry E st e'))
     = resolve (main_exe_path (extract_entry E st e)).
Proof.
  cbv zeta. set (e' := set_relative_path (backslashed (relative_path e)) e).
  assert (Hout : alike (out_path_of E e') (out_path_of E e)).
  { unfold alike, out_path_of, snprintf. apply Forall2_take.
    apply Forall2_app; [apply (alike_refl (temp_dir E)) |].
    apply Forall2_app; [apply (alike_refl (lit "\")) |].
    unfold e'. cbn [relative_path set_relative_path].
    rewrite cstr_backslashed. apply alike_backslashed. }
  assert (Hsub : forall m, subdirectories E e' m = subdirectories E e m).
  { intros m. unfold subdirectories. apply create_subdirectories_alike.
    - unfold alike in *. by apply Forall2_drop.
    - unfold alike in *. by apply Forall2_take. }
  assert (Hopen : forall m, fopen_wb (out_path_of E e') m = fopen_wb (out_path_of E e) m).
  { intros m. unfold fopen_wb. by rewrite (resolve_alike _ _ Hout). }
  rewrite !extract_entry_eq, Hsub, Hopen.
  change (offset e') with (offset e). change (size e') with (size e).
  change (is_executable e') with (is_executable e).
  destruct (fopen_wb (out_path_of E e) (subdirectories E e (fs st))); [| done].
  destruct (copy_loop _ _ _ _ _) as [[w f] b]. cbn [fs f_self buffer main_exe_path].
  split_and!; try done.
  destruct (Ascii.eqb (is_executable e) Ascii.zero); [done |].
  rewrite (resolve_alike _ _ (rewritten_path_alike E e')).
  rewrite (resolve_alike _ _ (rewritten_path_alike E e)).
  by apply resolve_alike.
Qed.

(** The path kept for the child is the rewritten one: the main executable
    packed as [build/Game.exe] is started as [build\Game.exe]. *)
Remark started_path_has_backslashes :
  let a := Scenario.out_of (Packer.main Scenario.packer_slash) in
  let E := Scenario.loader_env a in
  launched (main E)
  = Some (lit "C:\Temp\d2e1.tmp\build\Game.exe", cmd_line E, temp_dir E).
Proof. vm_compute. reflexivity. Qed.

(** X21.  An entry with an empty path is passed over.  Its target is the
    extraction root itself, which cannot be opened as a file: the entry
    changes nothing at all. *)
Theorem entry_with_empty_path_is_skipped (E : env) (st : state) (e : ManifestEntry) :
  cstr (relative_path e) = [] ->
  (length (temp_dir E) + 1 < MAX_PATH)%nat ->
  is_dir (fs st) (resolve (temp_dir E)) = true ->
  extract_entry E st e = st.
Proof.
  intros Hp Hfit Hd.
  assert (Hout : out_path_of E e = temp_dir E ++ lit "\").
  { unfold out_path_of. rewrite Hp, snprintf_fits; [done |].
    rewrite !length_app. cbn [length lit list_ascii_of_string]. lia. }
  assert (Hsub : subdirectories E e (fs st) = fs st).
  { unfold subdirectories. rewrite Hout.
    rewrite skipn_all2; [done |]. rewrite length_app. cbn [length lit list_ascii_of_string]. lia. }
  assert (Hres : resolve (temp_dir E ++ lit "\") = resolve (temp_dir E)).
  { cbn [lit list_ascii_of_string]. by rewrite resolve_app_sep. }
  rewrite extract_entry_eq. rewrite Hsub, Hout. unfold fopen_wb.
  rewrite Hres, Hd, andb_false_r. by destruct st.
Qed.

Lemma empty_path_witness :
  let E := Scenario.loader_env Scenario.archive_A in
  let st := extraction_start E Scenario.archive_A in
  let e := Scenario.entry 4 2 "001"%char [] in
  extract_entry E st e = st.
Proof.
  intros E st e.
  apply (entry_with_empty_path_is_skipped E st e).
  - reflexivity.
  - vm_compute. lia.
  - vm_compute. reflexivity.
Defined.

Lemma copy_loop_at_end fuel remaining data pos buf :
  (length data <= pos)%nat -> 0 <= remaining <= Loader.BUFFER_SIZE ->
  copy_loop (S fuel) remaining {| r_data := data; r_pos := pos |} buf []
  = (load (overlay [] buf) 0 (Z.to_nat remaining),
     {| r_data := data; r_pos := pos |},
     if 0 <? remaining then overlay [] buf else buf).
Proof.
  intros Hpos Hrem. cbn [copy_loop].
  destruct (Z.ltb_spec 0 remaining) as [Hgt|Hle].
  - destruct (Z.ltb_spec Loader.BUFFER_SIZE remaining) as [|_]; [lia |].
    unfold fread. cbn [r_data r_pos].
    rewrite skipn_all2 by lia. rewrite firstn_nil. cbn [length app].
    rewrite Nat.add_0_r, Z.sub_diag.
    destruct fuel; reflexivity.
  - by replace remaining with 0 by lia.
Qed.

(** X22.  A range beyond the end of the file.  When the stream stands at
    or after the end of the file, [fread] obtains nothing and the loop
    writes what the buffer held: an entry of at most 1 MiB whose offset is
    not below the file's length, and fits a [long], is extracted as the
    first [size] bytes the buffer was left with, which are those of the file
    extracted before it, or of the fresh block. *)
Theorem range_beyond_end_copies_the_buffer (E : env) (st : state)
    (e : ManifestEntry) (k : key) :
  fopen_wb (out_path_of E e) (subdirectories E e (fs st)) = Some k ->
  Z.of_nat (length (r_data (f_self st))) <= offset e <= LONG_MAX ->
  0 <= size e <= Loader.BUFFER_SIZE ->
  fs (extract_entry E st e) !! k
  = Some (FileN (load (buffer st) 0 (Z.to_nat (size e))))
  /\ forall i, buffer (extract_entry E st e) i = buffer st i.
Proof.
  intros Ho Hoff Hsize. rewrite extract_entry_eq. rewrite Ho.
  rewrite to_long_small by lia.
  unfold fseek_set. destruct (Z.leb_spec 0 (offset e)) as [_|]; [| lia].
  rewrite copy_loop_at_end by (cbn [r_data r_pos]; lia).
  cbn [fs buffer]. rewrite lookup_insert_eq, load_overlay_nil.
  split; [done |]. intros i. destruct (0 <? size e); [| done].
  unfold overlay. by destruct i.
Qed.

Lemma range_beyond_end_witness :
  let E := Scenario.loader_env Scenario.archive_beyond in
  let st := extraction_start E Scenario.archive_beyond in
  let e := Scenario.entry 5000 5 Ascii.zero (lit "a.bin") in
  fs (extract_entry E st e) !! (Scenario.root ++ [lit "a.bin"])
  = Some (FileN (load (buffer st) 0 (Z.to_nat (size e))))
  /\ forall i, buffer (extract_entry E st e) i = buffer st i.
Proof.
  intros E st e.
  apply (range_beyond_end_copies_the_buffer E st e (Scenario.root ++ [lit "a.bin"])).
  - vm_compute. reflexivity.
  - vm_compute. split; discriminate.
  - vm_compute. split; discriminate.
Defined.

End SeparatorProperties.

(** ** The subdirectory loop on the buffer *)

Section InPlace.
Import C Layout FS Loader Separators.

Lemma insert_at_end_of_prefix (pre : list ascii) x ch rest :
  <[length pre := x]> (pre ++ ch :: rest) = pre ++ x :: rest.
Proof.
  induction pre as [|c pre IH]; [done |].
  change (c :: <[length pre := x]> (pre ++ ch :: rest) = c :: pre ++ x :: rest).
  by rewrite IH.
Qed.

Lemma nth_error_at_end_of_prefix (pre : list ascii) ch rest :
  nth_error (pre ++ ch :: rest) (length pre) = Some ch.
Proof. induction pre as [|c pre IH]; [done |]. exact IH. Qed.

Lemma nth_error_past_prefix (pre : list ascii) :
  nth_error (pre ++ []) (length pre) = None.
Proof. apply nth_error_None. rewrite app_nil_r. lia. Qed.

Lemma in_place_loop rest :
  forall pre pre' m fuel,
    alike pre' pre -> no_nul pre' -> no_nul rest ->
    (length rest <= fuel)%nat ->
    create_subdirectories_in_place fuel (pre' ++ rest) (length pre') m
    = (pre' ++ backslashed rest, create_subdirectories pre rest m).
Proof.
  induction rest as [|ch rest IH]; intros pre pre' m fuel Hpre Hnul Hrest Hfuel.
  - destruct fuel as [|fuel]; [done |].
    cbn [create_subdirectories_in_place]. by rewrite nth_error_past_prefix.
  - destruct fuel as [|fuel]; [cbn [length] in Hfuel; lia |].
    apply Forall_cons in Hrest as [Hch Hrest]. cbn [length] in Hfuel.
    cbn [create_subdirectories_in_place create_subdirectories backslashed map].
    rewrite nth_error_at_end_of_prefix.
    destruct (is_sep ch) eqn:Hsep.
    + rewrite !insert_at_end_of_prefix.
      rewrite cstr_app_nul by done.
      unfold CreateDirectoryA at 1. rewrite (resolve_alike pre' pre) by done.
      fold (CreateDirectoryA pre m).
      replace (pre' ++ "\"%char :: rest) with ((pre' ++ ["\"%char]) ++ rest)
        by (by rewrite <- app_assoc).
      replace (S (length pre')) with (length (pre' ++ ["\"%char]))
        by (rewrite length_app; cbn [length]; lia).
      rewrite (IH (pre ++ [ch])); try done; try lia.
      * rewrite <- app_assoc. cbn [app]. do 2 f_equal.
        unfold is_sep in Hsep. apply orb_true_iff in Hsep as [H|H];
          apply Ascii.eqb_eq in H; by subst ch.
      * unfold alike in *. apply Forall2_app; [done |].
        constructor; [| constructor]. by right.
      * apply Forall_app. split; [done |]. by repeat constructor.
    + replace (pre' ++ ch :: rest) with ((pre' ++ [ch]) ++ rest)
        by (by rewrite <- app_assoc).
      replace (S (length pre')) with (length (pre' ++ [ch]))
        by (rewrite length_app; cbn [length]; lia).
      rewrite (IH (pre ++ [ch])); try done; try lia.
      * rewrite <- app_assoc. cbn [app]. do 2 f_equal.
        destruct (Ascii.eqb_spec ch "/"%char) as [->|_]; [done | done].
      * unfold alike in *. apply Forall2_app; [done |].
        constructor; [| constructor]. by left.
      * apply Forall_app. split; [done |]. by repeat constructor.
Qed.

(** X23.  The subdirectory loop as it is written changes [out_path] in place.
    Run on the buffer, it creates the same directories as the loop of the
    loader's model, which keeps the path as the entry gives it, and leaves in
    the buffer the same path with a backslash for every separator after the
    temporary directory's: the path opened for writing, and kept for the
    child, denotes the same file either way. *)
Theorem subdirectory_loop_rewrites_separators (E : env) (e : ManifestEntry)
    (m : gmap key node) (fuel : nat) :
  no_nul (temp_dir E) ->
  (length (temp_dir E) < length (out_path_of E e))%nat ->
  (length (out_path_of E e) <= fuel)%nat ->
  let start := S (length (temp_dir E)) in
  let r := create_subdirectories_in_place fuel (out_path_of E e) start m in
  r.1 = firstn start (out_path_of E e) ++ backslashed (skipn start (out_path_of E e))
  /\ r.2 = subdirectories E e m
  /\ resolve r.1 = resolve (out_path_of E e)
  /\ fopen_wb r.1 r.2 = fopen_wb (out_path_of E e) (subdirectories E e m).
Proof.
  intros Hnul Hstart Hfuel. cbv zeta.
  set (s := out_path_of E e) in *. set (start := S (length (temp_dir E))).
  assert (Hs : no_nul s).
  { unfold s, out_path_of, snprintf. apply Forall_take.
    apply Forall_app. split; [done |].
    apply Forall_app. split; [by repeat constructor | apply cstr_is_no_nul]. }
  assert (Hsplit : s = firstn start s ++ skipn start s) by (by rewrite firstn_skipn).
  assert (Hlen : length (firstn start s) = start).
  { rewrite length_firstn. unfold start. lia. }
  assert (Hloop : create_subdirectories_in_place fuel s start m
                  = (firstn start s ++ backslashed (skipn start s),
                     create_subdirectories (firstn start s) (skipn start s) m)).
  { pose proof (in_place_loop (skipn start s) (firstn start s) (firstn start s) m fuel)
      as H.
    rewrite firstn_skipn, Hlen in H. apply H.
    - apply alike_refl.
    - by apply Forall_take.
    - by apply Forall_drop.
    - rewrite length_skipn. lia. }
  rewrite Hloop. cbn [fst snd].
  assert (Hal : alike (firstn start s ++ backslashed (skipn start s)) s).
  { rewrite Hsplit at 3.
    apply Forall2_app; [apply alike_refl | apply alike_backslashed]. }
  split_and!; try done.
  - by apply resolve_alike.
  - unfold fopen_wb. by rewrite (resolve_alike _ _ Hal).
Qed.

Lemma subdirectory_loop_witness :
  let E := Scenario.loader_env Scenario.archive_A in
  let e := Scenario.entry 4 2 Ascii.zero (lit "Content/sub/readme.txt") in
  let m := fs (extraction_start E Scenario.archive_A) in
  let start := S (length (temp_dir E)) in
  let r := create_subdirectories_in_place 260 (out_path_of E e) start m in
  r.1 = firstn start (out_path_of E e) ++ backslashed (skipn start (out_path_of E e))
  /\ r.2 = subdirectories E e m
  /\ resolve r.1 = resolve (out_path_of E e)
  /\ fopen_wb r.1 r.2 = fopen_wb (out_path_of E e) (subdirectories E e m).
Proof.
  intros E e m.
  apply (subdirectory_loop_rewrites_separators E e m 260).
  - repeat constructor; discriminate.
  - vm_compute. lia.
  - vm_compute. lia.
Defined.

End InPlace.

(** ** Edge cases of the loader's run *)

Section LoaderEdges.
Import C Layout FS Walk Cleanup Loader.

(** X24.  An archive with an empty manifest.  The loader creates the
    temporary directory, extracts nothing, starts nothing, returns 1, and
    removes the directory again: the disk is as it was. *)
Theorem empty_manifest_runs_nothing (E : env) (body : list ascii) :
  self E = Some (archive_of body []) ->
  Z.of_nat (length (archive_of body [])) <= LONG_MAX ->
  resolve (temp_dir E) <> [] ->
  is_dir (disk E) (parent (resolve (temp_dir E))) = true ->
  fresh_below (resolve (temp_dir E)) (disk E) = true ->
  exit_code (main E) = 1 /\ launched (main E) = None
  /\ extracted (main E) = <[resolve (temp_dir E) := DirN]> (disk E)
  /\ final (main E) = disk E.
Proof.
  intros Hs Hlen Hne Hp Hfresh. set (a := archive_of body []) in *.
  set (R := resolve (temp_dir E)) in *.
  assert (Ha : accepts E a = true) by (apply accepts_archive; constructor).
  destruct (manifest_read_archive E body [] (List.Forall_nil _) Hlen) as [Hread _].
  fold a in Hread.
  assert (Hex : extraction E a = extraction_start E a).
  { by rewrite extraction_unfold, Hread. }
  assert (Hpath : main_exe_path (extraction E a) = []) by (by rewrite Hex).
  destruct (extraction_is_tree E a Hne Hp Hfresh) as [Hd TB]. fold R in Hd, TB.
  rewrite (main_not_launched E a Hs Ha (or_introl Hpath)).
  cbn [exit_code launched extracted final].
  assert (Hfs : fs (extraction E a) = <[R := DirN]> (disk E)).
  { rewrite Hex. cbn [extraction_start fs]. by apply create_temp_dir_eq. }
  split_and!; [done | done | done |].
  rewrite cleanup_eq by done. fold R. rewrite Hfs.
  apply map_eq. intros k. rewrite remove_below_lookup.
  destruct (decide (R `prefix_of` k)) as [H|H].
  - symmetry. by apply (fresh_below_spec R).
  - rewrite lookup_insert_ne; [done |]. by intros <-.
Qed.

Lemma empty_manifest_witness :
  let E := Scenario.loader_env (archive_of (lit "STUB") []) in
  exit_code (main E) = 1 /\ launched (main E) = None
  /\ extracted (main E) = <[resolve (temp_dir E) := DirN]> (disk E)
  /\ final (main E) = disk E.
Proof.
  intros E.
  apply (empty_manifest_runs_nothing E (lit "STUB")).
  - reflexivity.
  - vm_compute. discriminate.
  - vm_compute. discriminate.
  - vm_compute. reflexivity.
  - vm_compute. reflexivity.
Defined.

Lemma cstr_magic_exact (l : list ascii) :
  length l = 8%nat ->
  cstr l = MAGIC_BYTES <-> l = MAGIC_BYTES ++ [NUL].
Proof.
  intros Hl. split; [| by intros ->].
  do 9 (destruct l as [|? l]; try discriminate Hl). clear Hl.
  cbn [cstr].
  repeat match goal with
         | |- context [Ascii.eqb ?c NUL] =>
             destruct (Ascii.eqb_spec c NUL) as [->|?]
         end; intros H; try discriminate H.
  by injection H as -> -> -> -> -> -> ->.
Qed.

(** X25.  What the magic test accepts.  For a file of at least 16 bytes
    the loader goes on exactly when the last eight bytes are the seven
    characters of the signature and a zero byte; eight bytes that start with
    the signature and end in anything else are turned away. *)
Theorem magic_test_is_exact (E : env) (data : list ascii) :
  (sizeof_ArchiveFooter <= length data)%nat ->
  accepts E data = true
  <-> skipn (length data - 8) data = MAGIC_BYTES ++ [NUL].
Proof.
  intros Hlen. rewrite accepts_iff by done.
  assert (Hm : magic (footer_in data) = skipn (length data - 8) data).
  { unfold footer_in, footer_of_bytes. cbn [magic].
    rewrite skipn_skipn. unfold sizeof_ArchiveFooter in *.
    replace (8 + (length data - 16))%nat with (length data - 8)%nat by lia.
    apply firstn_all2. rewrite length_skipn. lia. }
  rewrite Hm. apply cstr_magic_exact.
  rewrite length_skipn. unfold sizeof_ArchiveFooter in *. lia.
Qed.

Lemma magic_test_witness :
  accepts (Scenario.loader_env Scenario.archive_A) Scenario.archive_A = true
  <-> skipn (length Scenario.archive_A - 8) Scenario.archive_A
      = MAGIC_BYTES ++ [NUL].
Proof.
  apply (magic_test_is_exact (Scenario.loader_env Scenario.archive_A)
           Scenario.archive_A).
  vm_compute. lia.
Defined.

End LoaderEdges.

